(** * go-ripgrep: the line matcher, the highlighter, the ignore filter and
      the directory walk of [main_v2.go], embedded in Rocq.

    A Go [string] is a sequence of bytes; it is modelled as [list ascii]
    (an [ascii] is exactly one byte).  Go's [int] indices and lengths are
    modelled in [Z]: every index below is bounded by the length of a string
    held in memory, so the 64-bit wrap-around is never reached.  A slice
    expression out of range panics; panics are explicit in the [exec]
    type. *)

From Stdlib Require Import List ZArith Lia Bool Ascii.
From Stdlib Require String DecimalString.
Import ListNotations String.StringSyntax.
Delimit Scope string_scope with string.
Bind Scope string_scope with String.string.
Local Open Scope Z_scope.
Local Open Scope list_scope.

(** ** Go strings *)

Definition gostring := list ascii.

(** A literal: the bytes of a Rocq string. *)
Definition str (s : String.string) : gostring :=
  String.list_ascii_of_string s.

(** A byte given by its number, for bytes a literal cannot hold. *)
Definition byte (n : Z) : ascii := ascii_of_N (Z.to_N n).

Definition ord (c : ascii) : Z := Z.of_N (N_of_ascii c).

(** [len(s)] *)
Definition len (s : gostring) : Z := Z.of_nat (length s).

(** [a == b] on strings *)
Fixpoint streq (a b : gostring) : bool :=
  match a, b with
  | [], [] => true
  | x :: a', y :: b' => Ascii.eqb x y && streq a' b'
  | _, _ => false
  end.

(** ** Results of code that can panic

    [Done v] is a normal return, [Panic] a run-time panic (a slice
    expression out of range), [Timeout] the exhaustion of the fuel that
    bounds a [for] loop of the source; the loops below are shown never to
    reach it. *)

Inductive exec (A : Type) : Type :=
| Done (v : A)
| Panic
| Timeout.

Arguments Done {A} v.
Arguments Panic {A}.
Arguments Timeout {A}.

Definition bind {A B : Type} (m : exec A) (k : A -> exec B) : exec B :=
  match m with
  | Done v => k v
  | Panic => Panic
  | Timeout => Timeout
  end.

Notation "x <- m ;; k" := (bind m (fun x => k))
  (at level 61, m at next level, right associativity).

(** [s[lo:hi]]: panics unless [0 <= lo <= hi <= len(s)]. *)
Definition slice (s : gostring) (lo hi : Z) : exec gostring :=
  if (0 <=? lo) && (lo <=? hi) && (hi <=? len s)
  then Done (firstn (Z.to_nat (hi - lo)) (skipn (Z.to_nat lo) s))
  else Panic.

(** [s[lo:]] *)
Definition slice_from (s : gostring) (lo : Z) : exec gostring :=
  slice s lo (len s).

(** [s[:hi]] *)
Definition slice_to (s : gostring) (hi : Z) : exec gostring :=
  slice s 0 hi.

(** ** Package [unicode/utf8] *)

Module utf8.

Definition rune := Z.

Definition RuneError : rune := 0xFFFD.
Definition RuneSelf : Z := 0x80.
Definition MaxRune : rune := 0x10FFFF.

(** A continuation byte lies in [lo..hi]. *)
Definition within (lo hi : Z) (c : ascii) : bool :=
  (lo <=? ord c) && (ord c <=? hi).

Definition cont (c : ascii) : Z := Z.land (ord c) 0x3F.

(** The accept range of the second byte, by first byte
    (the tables [first] and [acceptRanges] of the package). *)
Definition second_range (s0 : Z) : Z * Z :=
  if s0 =? 0xE0 then (0xA0, 0xBF)
  else if s0 =? 0xED then (0x80, 0x9F)
  else if s0 =? 0xF0 then (0x90, 0xBF)
  else if s0 =? 0xF4 then (0x80, 0x8F)
  else (0x80, 0xBF).

(** The length announced by a first byte; 0 for a byte that cannot
    start a sequence. *)
Definition seq_size (s0 : Z) : Z :=
  if s0 <? 0x80 then 1
  else if s0 <? 0xC2 then 0
  else if s0 <? 0xE0 then 2
  else if s0 <? 0xF0 then 3
  else if s0 <? 0xF5 then 4
  else 0.

(** [utf8.DecodeRuneInString]: the first rune of [s] and its width in
    bytes; [(RuneError, 0)] for the empty string and [(RuneError, 1)]
    for an encoding that is invalid or cut short. *)
Definition DecodeRuneInString (s : gostring) : rune * Z :=
  match s with
  | [] => (RuneError, 0)
  | c0 :: t =>
      let s0 := ord c0 in
      let sz := seq_size s0 in
      if sz =? 1 then (s0, 1)
      else if sz =? 0 then (RuneError, 1)
      else
        let '(lo, hi) := second_range s0 in
        match t with
        | c1 :: t1 =>
            if negb (within lo hi c1) then (RuneError, 1)
            else if sz =? 2 then
              (Z.lor (Z.shiftl (Z.land s0 0x1F) 6) (cont c1), 2)
            else
              match t1 with
              | c2 :: t2 =>
                  if negb (within 0x80 0xBF c2) then (RuneError, 1)
                  else if sz =? 3 then
                    (Z.lor (Z.shiftl (Z.land s0 0x0F) 12)
                       (Z.lor (Z.shiftl (cont c1) 6) (cont c2)), 3)
                  else
                    match t2 with
                    | c3 :: _ =>
                        if negb (within 0x80 0xBF c3) then (RuneError, 1)
                        else
                          (Z.lor (Z.shiftl (Z.land s0 0x07) 18)
                             (Z.lor (Z.shiftl (cont c1) 12)
                                (Z.lor (Z.shiftl (cont c2) 6) (cont c3))), 4)
                    | [] => (RuneError, 1)
                    end
              | [] => (RuneError, 1)
              end
        | [] => (RuneError, 1)
        end
  end.

Definition tx (z : Z) : ascii := byte (Z.lor 0x80 (Z.land z 0x3F)).

Definition encode3 (r : rune) : gostring :=
  [byte (Z.lor 0xE0 (Z.shiftr r 12)); tx (Z.shiftr r 6); tx r].

(** [utf8.AppendRune] on an empty buffer: the encoding of [r]; a rune
    out of range or a surrogate half is written as [RuneError]. *)
Definition EncodeRune (r : rune) : gostring :=
  if (0 <=? r) && (r <=? 0x7F) then [byte r]
  else if (0 <=? r) && (r <=? 0x7FF) then
    [byte (Z.lor 0xC0 (Z.shiftr r 6)); tx r]
  else if (r <? 0) || (MaxRune <? r) || ((0xD800 <=? r) && (r <=? 0xDFFF))
  then encode3 RuneError
  else if r <=? 0xFFFF then encode3 r
  else
    [byte (Z.lor 0xF0 (Z.shiftr r 18)); tx (Z.shiftr r 12);
     tx (Z.shiftr r 6); tx r].

End utf8.

(** ** Package [strings] *)

Module strings.

(** [strings.HasPrefix(s, prefix)] *)
Fixpoint HasPrefix (s prefix : gostring) {struct prefix} : bool :=
  match prefix, s with
  | [], _ => true
  | p :: prefix', c :: s' => Ascii.eqb c p && HasPrefix s' prefix'
  | _ :: _, [] => false
  end.

(** [strings.HasSuffix(s, suffix)]:
    [len(s) >= len(suffix) && s[len(s)-len(suffix):] == suffix]. *)
Definition HasSuffix (s suffix : gostring) : bool :=
  (len suffix <=? len s) &&
  streq (skipn (length s - length suffix) s) suffix.

(** The first position at which [substr] starts in [s], if any. *)
Fixpoint find (s substr : gostring) : option nat :=
  if HasPrefix s substr then Some O
  else match s with
       | [] => None
       | _ :: s' => option_map S (find s' substr)
       end.

(** [strings.Index(s, substr)]: the index of the first instance of
    [substr] in [s], or -1. *)
Definition Index (s substr : gostring) : Z :=
  match find s substr with
  | Some i => Z.of_nat i
  | None => -1
  end.

(** [strings.Contains(s, substr)] is [Index(s, substr) >= 0]. *)
Definition Contains (s substr : gostring) : bool :=
  0 <=? Index s substr.

(** [strings.TrimPrefix(s, prefix)] *)
Definition TrimPrefix (s prefix : gostring) : gostring :=
  if HasPrefix s prefix then skipn (length prefix) s else s.

(** [strings.TrimSuffix(s, suffix)] *)
Definition TrimSuffix (s suffix : gostring) : gostring :=
  if HasSuffix s suffix then firstn (length s - length suffix) s else s.

(** The runes of [s] and their widths, as [for _, c := range s] yields
    them: an invalid byte is one [RuneError] of width 1. *)
Fixpoint runes (fuel : nat) (s : gostring) : list (utf8.rune * Z) :=
  match fuel, s with
  | S fuel', _ :: _ =>
      let '(r, w) := utf8.DecodeRuneInString s in
      (r, w) :: runes fuel' (skipn (Z.to_nat w) s)
  | _, _ => []
  end.

(** [strings.Map(mapping, s)]: every rune of [s] replaced by its image,
    a negative image dropped, the images written in UTF-8. *)
Definition Map (mapping : utf8.rune -> utf8.rune) (s : gostring) : gostring :=
  flat_map
    (fun cw => let r := mapping (fst cw) in
               if r <? 0 then [] else utf8.EncodeRune r)
    (runes (length s) s).

(** [explode]: [s] cut into its UTF-8 sequences. *)
Definition explode (s : gostring) : list gostring :=
  (fix go (ws : list (utf8.rune * Z)) (s : gostring) : list gostring :=
     match ws with
     | [] => []
     | (_, w) :: ws' =>
         firstn (Z.to_nat w) s :: go ws' (skipn (Z.to_nat w) s)
     end) (runes (length s) s) s.

(** The loop of [genSplit] for a non-empty separator: cut at every
    instance of [sep]; the last piece is what is left. *)
Fixpoint split_loop (fuel : nat) (s sep : gostring) : list gostring :=
  match fuel with
  | O => [s]
  | S fuel' =>
      let m := Index s sep in
      if m <? 0 then [s]
      else firstn (Z.to_nat m) s
             :: split_loop fuel' (skipn (Z.to_nat (m + len sep)) s) sep
  end.

(** [strings.Split(s, sep)] *)
Definition Split (s sep : gostring) : list gostring :=
  match sep with
  | [] => explode s
  | _ :: _ => split_loop (length s) s sep
  end.

(** The loop of [Replace] for a non-empty [old]: the text before each
    instance, then [new], and the search goes on behind the instance. *)
Fixpoint replace_loop (fuel : nat) (s old new : gostring) : gostring :=
  match fuel with
  | O => s
  | S fuel' =>
      let j := Index s old in
      if j <? 0 then s
      else firstn (Z.to_nat j) s ++ new
             ++ replace_loop fuel' (skipn (Z.to_nat (j + len old)) s) old new
  end.

(** [strings.ReplaceAll(s, old, new)]: all non-overlapping instances of
    [old] replaced by [new]; an empty [old] matches before every UTF-8
    sequence and at the end. *)
Definition ReplaceAll (s old new : gostring) : gostring :=
  if streq old new then s
  else match old with
       | [] => new ++ flat_map (fun chunk => chunk ++ new) (explode s)
       | _ :: _ => replace_loop (length s) s old new
       end.

(** [strings.Join(elems, sep)] *)
Fixpoint Join (elems : list gostring) (sep : gostring) : gostring :=
  match elems with
  | [] => []
  | [e] => e
  | e :: rest => e ++ sep ++ Join rest sep
  end.

Definition isASCII (s : gostring) : bool :=
  forallb (fun c => ord c <? utf8.RuneSelf) s.

Definition lowerByte (c : ascii) : ascii :=
  if (ord "A"%char <=? ord c) && (ord c <=? ord "Z"%char)
  then byte (ord c + (ord "a"%char - ord "A"%char))
  else c.

Section CaseTable.

(** [unicode.ToLower], the simple lower-case mapping of the Unicode
    tables.  It is a variable: nothing proved below depends on what
    the tables hold. *)
Variable lowerRune : utf8.rune -> utf8.rune.

(** [strings.ToLower(s)]: ASCII-only strings are lowered byte by
    byte, the others rune by rune through [Map]. *)
Definition ToLower (s : gostring) : gostring :=
  if isASCII s then map lowerByte s else Map lowerRune s.

End CaseTable.

End strings.

(** The rows of [unicode.ToLower] used by the examples of this file:
    Basic Latin, Latin-1 Supplement, and U+0130 (capital I with dot above,
    whose simple lower case is the one-byte [i]); other runes are left
    alone. *)
Definition unicode_ToLower (r : utf8.rune) : utf8.rune :=
  if (0x41 <=? r) && (r <=? 0x5A) then r + 32
  else if (0xC0 <=? r) && (r <=? 0xDE) && negb (r =? 0xD7) then r + 32
  else if r =? 0x130 then 0x69
  else r.

(** ** Package [path/filepath], with [/] as the separator *)

Module filepath.

Definition isSep (c : ascii) : bool := Ascii.eqb c "/"%char.

Fixpoint dropWhile (p : ascii -> bool) (s : gostring) : gostring :=
  match s with
  | [] => []
  | c :: s' => if p c then dropWhile p s' else s
  end.

Fixpoint takeWhile (p : ascii -> bool) (s : gostring) : gostring :=
  match s with
  | [] => []
  | c :: s' => if p c then c :: takeWhile p s' else []
  end.

(** [filepath.Base(path)]: the last element of [path], trailing
    separators removed first; ["."] for the empty path and ["/"] for a
    path of separators only. *)
Definition Base (path : gostring) : gostring :=
  match path with
  | [] => str "."
  | _ :: _ =>
      let stripped := dropWhile isSep (rev path) in
      let last := rev (takeWhile (fun c => negb (isSep c)) stripped) in
      match last with
      | [] => str "/"
      | _ :: _ => last
      end
  end.

(** The loop of [Ext], over the path read backwards. *)
Fixpoint ext_scan (r acc : gostring) : gostring :=
  match r with
  | [] => []
  | c :: r' =>
      if isSep c then []
      else if Ascii.eqb c "."%char then c :: acc
      else ext_scan r' (c :: acc)
  end.

(** [filepath.Ext(path)]: the suffix from the last dot of the last
    element of [path]; empty if there is no dot. *)
Definition Ext (path : gostring) : gostring := ext_scan (rev path) [].

(** [filepath.ToSlash(path)]: the separator is already [/]. *)
Definition ToSlash (path : gostring) : gostring := path.

End filepath.

(** ** The program *)

Definition ColorReset : gostring := byte 27 :: str "[0m".
Definition ColorRed : gostring := byte 27 :: str "[31m".
Definition ColorGreen : gostring := byte 27 :: str "[32m".
Definition ColorPurple : gostring := byte 27 :: str "[35m".

Record Config : Type := {
  fixedStrings : bool;
  hidden : bool;
  noHeading : bool;
  lineNumber : bool;
  withFilename : bool;
  color : bool;
  ignoreCase : bool;
  respectGitignore : bool;
  pattern : gostring;
  searchPath : gostring
}.

Record GitignoreFilter : Type := {
  patterns : list gostring;
  basePath : gostring
}.

(** What [os.Open] and the reads that follow give for one file:
    [firstRead] is the result of the first [Read] of at most 512 bytes
    ([None] for a read error, which an empty file gives too), [tokens]
    the lines [bufio.Scanner] yields one after the other, [scanErr]
    whether [scanner.Err()] is non-nil once [Scan] has returned false. *)
Record OpenedFile : Type := {
  firstRead : option gostring;
  tokens : list gostring;
  scanErr : bool
}.

(** The file system under the search root, as [filepath.Walk] meets it:
    every entry with the path the walk hands to its callback.  [Missing]
    is an entry whose [Lstat] fails; [readErr] tells that the names of a
    directory cannot be read. *)
Inductive node : Type :=
| Missing (path : gostring)
| Regular (path : gostring)
| Directory (path : gostring) (readErr : bool) (children : list node).

(** The error values a [WalkFunc] returns. *)
Inductive werr : Type := ErrNil | SkipDir | ErrOther.

(** What the run does to the outside: files it opens for scanning and
    lines it writes to standard output. *)
Inductive event : Type :=
| EvOpen (filename : gostring)
| EvPrint (text : gostring).

(** Code that acts on the outside: the events it causes, in order, and
    how it ends.  The events that precede a panic stay. *)
Definition run (A : Type) : Type := (list event * exec A)%type.

Definition ret {A : Type} (v : A) : run A := ([], Done v).

Definition emit (e : event) : run unit := ([e], Done tt).

Definition lift {A : Type} (m : exec A) : run A := ([], m).

Definition rbind {A B : Type} (m : run A) (k : A -> run B) : run B :=
  match snd m with
  | Done v => (fst m ++ fst (k v), snd (k v))
  | Panic => (fst m, Panic)
  | Timeout => (fst m, Timeout)
  end.

Notation "x <-- m ;; k" := (rbind m (fun x => k))
  (at level 61, m at next level, right associativity).

Definition is_nil (e : werr) : bool :=
  match e with ErrNil => true | _ => false end.

Definition is_other (e : werr) : bool :=
  match e with ErrOther => true | _ => false end.

(** [fmt.Sprintf("%d", n)] *)
Definition Sprintf_d (n : Z) : gostring :=
  str (DecimalString.NilZero.string_of_int (Z.to_int n)).

Section Program.

(** [unicode.ToLower] *)
Variable lowerRune : utf8.rune -> utf8.rune.
(** [filepath.Rel(basepath, targpath)]; [None] is its error. *)
Variable Rel : gostring -> gostring -> option gostring.
(** [filepath.Join(dir, name)] *)
Variable Join : gostring -> gostring -> gostring.
(** [strings.TrimSpace] *)
Variable TrimSpace : gostring -> gostring.
(** [os.Open]; [None] is its error. *)
Variable open : gostring -> option OpenedFile.

Local Abbreviation ToLower := (strings.ToLower lowerRune).

(** *** Ignore filter *)

Definition skipLine (line : gostring) : bool :=
  streq line [] || strings.HasPrefix line (str "#").

Definition loadGitignoreFilter (searchPath : gostring)
  : GitignoreFilter * bool :=
  let gitignorePath := Join searchPath (str ".gitignore") in
  match open gitignorePath with
  | None => ({| patterns := []; basePath := searchPath |}, false)
  | Some file =>
      ({| patterns :=
            filter (fun line => negb (skipLine line))
                   (map TrimSpace (tokens file));
          basePath := searchPath |},
       scanErr file)
  end.

Definition matchWildcard (text pattern : gostring) : bool :=
  if streq pattern (str "*") then true
  else if strings.HasPrefix pattern (str "*.") then
    let ext := strings.TrimPrefix pattern (str "*") in
    strings.HasSuffix text ext
  else
    match strings.Split pattern (str "*") with
    | [part0; part1] =>
        strings.HasPrefix text part0 && strings.HasSuffix text part1
    | _ => false
    end.

Definition matchGitignorePattern (path pattern : gostring) : bool :=
  let pattern := strings.TrimPrefix pattern (str "/") in
  if strings.HasPrefix pattern (str "!") then false
  else if strings.HasSuffix pattern (str "/") then
    let pattern := strings.TrimSuffix pattern (str "/") in
    strings.Contains path pattern
  else if strings.Contains pattern (str "*") then
    matchWildcard path pattern
  else if strings.Contains path pattern then true
  else
    let fileName := filepath.Base path in
    streq fileName pattern.

(** The receiver is a pointer; [None] is the nil filter. *)
Definition shouldIgnore (gf : option GitignoreFilter) (path : gostring)
  : bool :=
  match gf with
  | None => false
  | Some f =>
      match patterns f with
      | [] => false
      | _ :: _ =>
          match Rel (basePath f) path with
          | None => false
          | Some relPath =>
              let relPath := filepath.ToSlash relPath in
              existsb (fun pattern => matchGitignorePattern relPath pattern)
                      (patterns f)
          end
      end
  end.

Definition ignoreDirs : list gostring :=
  map str [".svn"; ".hg"; ".bzr"; "node_modules"; ".vscode";
           "__pycache__"; ".pytest_cache"; "build"; "dist";
           "target"]%string.

Definition shouldIgnoreDirectory (path basePath : gostring) : bool :=
  let dirName := filepath.Base path in
  if streq dirName (str ".git") || streq dirName (str ".idea") then true
  else existsb (fun ignoreDir => streq dirName ignoreDir) ignoreDirs.

Definition isHidden (path : gostring) : bool :=
  let name := filepath.Base path in
  strings.HasPrefix name (str ".").

(** *** Binary classifier *)

Definition isBinaryFile (file : OpenedFile) : bool :=
  match firstRead file with
  | None => false
  | Some buffer => existsb (fun c => ord c =? 0) buffer
  end.

Definition binaryExts : list gostring :=
  map str [".exe"; ".dll"; ".so"; ".dylib"; ".a"; ".o"; ".obj";
           ".zip"; ".tar"; ".gz"; ".bz2"; ".xz"; ".7z"; ".rar";
           ".jpg"; ".jpeg"; ".png"; ".gif"; ".bmp"; ".tiff"; ".ico";
           ".mp3"; ".mp4"; ".avi"; ".mkv"; ".mov"; ".wmv"; ".flv";
           ".pdf"; ".doc"; ".docx"; ".xls"; ".xlsx"; ".ppt"; ".pptx";
           ".bin"; ".dat"; ".db"; ".sqlite"; ".sqlite3";
           ".pyc"; ".class"; ".jar"]%string.

Definition isBinaryFileByExtension (filename : gostring) : bool :=
  let ext := ToLower (filepath.Ext filename) in
  existsb (fun binExt => streq ext binExt) binaryExts.

(** *** Line matcher (the same function in [main.go]) *)

Definition matchesPattern (line pattern : gostring)
           (fixedStrings ignoreCase : bool) : bool :=
  let line := if ignoreCase then ToLower line else line in
  let pattern := if ignoreCase then ToLower pattern else pattern in
  if fixedStrings then strings.Contains line pattern
  else strings.Contains line pattern.

(** *** Highlight renderer *)

(** The [for] loop of [highlightIgnoreCase]; [result] is the
    [strings.Builder]. *)
Fixpoint highlightLoop (fuel : nat)
         (line pattern lowerLine lowerPattern : gostring)
         (lastIndex : Z) (result : gostring) : exec gostring :=
  match fuel with
  | O => Timeout
  | S fuel' =>
      rest <- slice_from lowerLine lastIndex ;;
      let index := strings.Index rest lowerPattern in
      if index =? -1 then
        tail <- slice_from line lastIndex ;;
        Done (result ++ tail)
      else
        let actualIndex := lastIndex + index in
        if actualIndex + len pattern >? len line then
          tail <- slice_from line lastIndex ;;
          Done (result ++ tail)
        else
          before <- slice line lastIndex actualIndex ;;
          original <- slice line actualIndex (actualIndex + len pattern) ;;
          highlightLoop fuel' line pattern lowerLine lowerPattern
            (actualIndex + len pattern)
            (result ++ before ++ (ColorRed ++ original ++ ColorReset))
  end.

Definition highlightIgnoreCase (line pattern : gostring) : exec gostring :=
  if (len line =? 0) || (len pattern =? 0) then Done line
  else
    let lowerLine := ToLower line in
    let lowerPattern := ToLower pattern in
    highlightLoop (S (length line)) line pattern lowerLine lowerPattern 0 [].

Definition highlightMatches (line pattern : gostring)
           (fixedStrings ignoreCase : bool) : exec gostring :=
  if len pattern =? 0 then Done line
  else if ignoreCase then highlightIgnoreCase line pattern
  else Done (strings.ReplaceAll line pattern
               (ColorRed ++ pattern ++ ColorReset)).

(** *** Match printer: the bytes written to standard output *)

Definition printMatch (filename : gostring) (lineNum : Z) (line : gostring)
           (config : Config) : exec gostring :=
  let parts0 :=
    if withFilename config then
      if color config then [ColorPurple ++ filename ++ ColorReset]
      else [filename]
    else [] in
  let parts :=
    if lineNumber config then
      if color config
      then parts0 ++ [ColorGreen ++ Sprintf_d lineNum ++ ColorReset]
      else parts0 ++ [Sprintf_d lineNum]
    else parts0 in
  displayLine <-
    (if color config
     then highlightMatches line (pattern config) (fixedStrings config)
            (ignoreCase config)
     else Done line) ;;
  match parts with
  | _ :: _ =>
      Done (strings.Join parts (str ":") ++ str ":" ++ displayLine
              ++ [byte 10])
  | [] => Done (displayLine ++ [byte 10])
  end.

(** *** Scanning one file *)

Definition truncationMarker : gostring := str "... [line truncated]".

(** The body of the [for scanner.Scan()] loop, for the lines still to
    come; [lineNum] counts the lines already read. *)
Fixpoint scanLoop (filename : gostring) (config : Config) (lineNum : Z)
         (todo : list gostring) : run unit :=
  match todo with
  | [] => ret tt
  | text :: todo' =>
      let lineNum := lineNum + 1 in
      line <-- lift (if len text >? 32768 then
                       head <- slice_to text 32768 ;;
                       Done (head ++ truncationMarker)
                     else Done text) ;;
      _ <-- (if matchesPattern line (pattern config) (fixedStrings config)
                  (ignoreCase config)
             then out <-- lift (printMatch filename lineNum line config) ;;
                  emit (EvPrint out)
             else ret tt) ;;
      scanLoop filename config lineNum todo'
  end.

Definition searchInFile (filename : gostring) (config : Config) : run werr :=
  _ <-- emit (EvOpen filename) ;;
  match open filename with
  | None => ret ErrNil
  | Some file =>
      if isBinaryFile file then ret ErrNil
      else
        _ <-- scanLoop filename config 0 (tokens file) ;;
        ret (if scanErr file then ErrOther else ErrNil)
  end.

(** *** Directory walker *)

(** The callback [search] hands to [filepath.Walk]; [isDir] is
    [info.IsDir()] and [err] tells whether the error argument is
    non-nil. *)
Definition walkFn (config : Config) (gitignoreFilter : option GitignoreFilter)
           (path : gostring) (isDir err : bool) : run werr :=
  if err then ret ErrNil
  else if isDir then
    if shouldIgnoreDirectory path (searchPath config) then ret SkipDir
    else if negb (hidden config) && isHidden path then ret SkipDir
    else if shouldIgnore gitignoreFilter path then ret SkipDir
    else ret ErrNil
  else
    if negb (hidden config) && isHidden path then ret ErrNil
    else if shouldIgnore gitignoreFilter path then ret ErrNil
    else if isBinaryFileByExtension path then ret ErrNil
    else searchInFile path config.

Section Walk.

Variable fn : gostring -> bool -> bool -> run werr.

(** What ends the loop over the names of a directory: any error of a
    file, and any error but [SkipDir] of a directory or of an entry
    whose [Lstat] failed. *)
Definition stops (child : node) (err : werr) : bool :=
  match child with
  | Regular _ => negb (is_nil err)
  | _ => is_other err
  end.

(** [walk] of [path/filepath], together with what [Walk] and the loop
    over the names of a directory do for an entry whose [Lstat]
    fails. *)
Fixpoint walk (n : node) : run werr :=
  match n with
  | Missing path => fn path false true
  | Regular path => fn path false false
  | Directory path readErr children =>
      err1 <-- fn path true readErr ;;
      if readErr || negb (is_nil err1) then ret err1
      else
        (fix walkNames (names : list node) : run werr :=
           match names with
           | [] => ret ErrNil
           | child :: names' =>
               err <-- walk child ;;
               if stops child err then ret err else walkNames names'
           end) children
  end.

(** [filepath.Walk(root, fn)] *)
Definition Walk (root : node) : run werr :=
  err <-- walk root ;;
  ret (match err with SkipDir => ErrNil | e => e end).

End Walk.

(** [search(config)]; [root] is what lies at [config.searchPath]. *)
Definition search (config : Config) (root : node) : run werr :=
  let gitignoreFilter :=
    if respectGitignore config then
      let '(filter, err) := loadGitignoreFilter (searchPath config) in
      if err then None else Some filter
    else None in
  Walk (walkFn config gitignoreFilter) root.

(** The files handed to [searchInFile] during a run. *)
Definition candidates (evs : list event) : list gostring :=
  flat_map (fun e => match e with EvOpen f => [f] | EvPrint _ => [] end) evs.

(** The lines written during a run. *)
Definition printed (evs : list event) : list gostring :=
  flat_map (fun e => match e with EvPrint t => [t] | EvOpen _ => [] end) evs.

End Program.

(** * Properties *)

(** ** Strings: equality, prefixes, suffixes, occurrences *)

(** [P] occurs in [L] as a contiguous substring. *)
Definition occurs_in (P L : gostring) : Prop :=
  exists pre post, L = pre ++ P ++ post.

Lemma streq_iff (a b : gostring) : streq a b = true <-> a = b.
Proof.
  revert b; induction a as [|x a IH]; intros [|y b]; simpl;
    try (split; [discriminate | discriminate]); try tauto.
  rewrite andb_true_iff, Ascii.eqb_eq, IH.
  split; [intros [-> ->]; reflexivity | intros H; inversion H; auto].
Qed.

Lemma streq_refl (a : gostring) : streq a a = true.
Proof. apply streq_iff; reflexivity. Qed.

Lemma len_app (a b : gostring) : len (a ++ b) = len a + len b.
Proof. unfold len; rewrite length_app; lia. Qed.

Lemma len_nonneg (a : gostring) : 0 <= len a.
Proof. unfold len; lia. Qed.

Lemma HasPrefix_nil (s : gostring) : strings.HasPrefix s [] = true.
Proof. destruct s; reflexivity. Qed.

Lemma HasPrefix_iff (s p : gostring) :
  strings.HasPrefix s p = true <-> exists t, s = p ++ t.
Proof.
  revert s; induction p as [|c p IH]; intros s.
  - rewrite HasPrefix_nil. split; [exists s; reflexivity | reflexivity].
  - destruct s as [|d s]; simpl.
    + split; [discriminate | intros [t Ht]; discriminate].
    + rewrite andb_true_iff, Ascii.eqb_eq, IH. split.
      * intros [-> [t ->]]. exists t; reflexivity.
      * intros [t Ht]. inversion Ht; subst. split; [reflexivity | eauto].
Qed.

Lemma HasPrefix_app (p t : gostring) : strings.HasPrefix (p ++ t) p = true.
Proof. apply HasPrefix_iff; eauto. Qed.

Lemma HasSuffix_iff (s suf : gostring) :
  strings.HasSuffix s suf = true <-> exists t, s = t ++ suf.
Proof.
  unfold strings.HasSuffix, len.
  rewrite andb_true_iff, streq_iff, Z.leb_le. split.
  - intros [Hlen Heq].
    exists (firstn (length s - length suf) s).
    rewrite <- Heq at 2. symmetry; apply firstn_skipn.
  - intros [t ->]. rewrite length_app. split; [lia|].
    replace (length t + length suf - length suf)%nat with (length t) by lia.
    rewrite skipn_app, skipn_all, Nat.sub_diag. reflexivity.
Qed.

Lemma find_unfold (s sub : gostring) :
  strings.find s sub =
  if strings.HasPrefix s sub then Some O
  else match s with
       | [] => None
       | _ :: s' => option_map S (strings.find s' sub)
       end.
Proof. destruct s; reflexivity. Qed.

Lemma find_Some (s sub : gostring) (i : nat) :
  strings.find s sub = Some i ->
  exists pre post, s = pre ++ sub ++ post /\ length pre = i.
Proof.
  revert i; induction s as [|c s IH]; intros i; rewrite find_unfold.
  - destruct (strings.HasPrefix [] sub) eqn:E; [|discriminate].
    intros [= <-]. apply HasPrefix_iff in E as [t Ht].
    exists [], t; auto.
  - destruct (strings.HasPrefix (c :: s) sub) eqn:E.
    + intros [= <-]. apply HasPrefix_iff in E as [t Ht].
      exists [], t; auto.
    + destruct (strings.find s sub) as [j|] eqn:F; [|discriminate].
      simpl. intros [= <-].
      destruct (IH j eq_refl) as (pre & post & -> & Hl).
      exists (c :: pre), post; simpl; auto.
Qed.

Lemma find_first (s sub : gostring) (i : nat) :
  strings.find s sub = Some i ->
  forall pre post, s = pre ++ sub ++ post -> (i <= length pre)%nat.
Proof.
  revert i; induction s as [|c s IH]; intros i; rewrite find_unfold.
  - destruct (strings.HasPrefix [] sub); [|discriminate].
    intros [= <-]; intros; lia.
  - destruct (strings.HasPrefix (c :: s) sub) eqn:E.
    + intros [= <-]; intros; lia.
    + destruct (strings.find s sub) as [j|] eqn:F; [|discriminate].
      simpl. intros [= <-] pre post Hs.
      destruct pre as [|d pre].
      * simpl in Hs. rewrite Hs, HasPrefix_app in E. discriminate.
      * simpl in Hs. inversion Hs; subst. simpl.
        specialize (IH j eq_refl pre post eq_refl). lia.
Qed.

Lemma find_None (s sub : gostring) :
  strings.find s sub = None -> ~ occurs_in sub s.
Proof.
  induction s as [|c s IH]; rewrite find_unfold.
  - destruct (strings.HasPrefix [] sub) eqn:E; [discriminate|].
    intros _ (pre & post & Hs).
    destruct pre; [|discriminate]. simpl in Hs.
    rewrite Hs, HasPrefix_app in E. discriminate.
  - destruct (strings.HasPrefix (c :: s) sub) eqn:E; [discriminate|].
    destruct (strings.find s sub) eqn:F; [discriminate|].
    intros _ (pre & post & Hs).
    destruct pre as [|d pre]; simpl in Hs.
    + rewrite Hs, HasPrefix_app in E. discriminate.
    + inversion Hs; subst. apply IH; [reflexivity|]. exists pre, post; auto.
Qed.

Lemma find_occurs (s sub : gostring) :
  occurs_in sub s -> exists i, strings.find s sub = Some i.
Proof.
  intros H. destruct (strings.find s sub) eqn:F; [eauto|].
  exfalso. exact (find_None _ _ F H).
Qed.

Lemma Index_nonneg_iff (s sub : gostring) :
  0 <= strings.Index s sub <-> occurs_in sub s.
Proof.
  unfold strings.Index. destruct (strings.find s sub) as [i|] eqn:F.
  - split; [|lia]. intros _.
    destruct (find_Some _ _ _ F) as (pre & post & -> & _).
    exists pre, post; reflexivity.
  - split; [lia|]. intros H. exfalso. exact (find_None _ _ F H).
Qed.

Lemma Index_range (s sub : gostring) :
  strings.Index s sub = -1 \/ 0 <= strings.Index s sub.
Proof. unfold strings.Index. destruct (strings.find s sub); lia. Qed.

Lemma Contains_iff (s sub : gostring) :
  strings.Contains s sub = true <-> occurs_in sub s.
Proof.
  unfold strings.Contains. rewrite Z.leb_le. apply Index_nonneg_iff.
Qed.

Lemma Contains_nil (s : gostring) : strings.Contains s [] = true.
Proof. apply Contains_iff. exists [], s; reflexivity. Qed.

(** ** The line matcher *)

(** C1: the matcher gives the same answer with [fixedStrings] set and
    unset, whatever the line, the pattern and [ignoreCase]; and with
    [ignoreCase] unset it answers true exactly when the pattern occurs in
    the line as a contiguous substring. *)
Theorem matchesPattern_fixedStrings_irrelevant
        (lowerRune : utf8.rune -> utf8.rune) (L P : gostring) :
  (forall ignoreCase : bool,
      matchesPattern lowerRune L P true ignoreCase
      = matchesPattern lowerRune L P false ignoreCase)
  /\ (forall fixedStrings : bool,
         matchesPattern lowerRune L P fixedStrings false = true
         <-> occurs_in P L).
Proof.
  split.
  - intros ic. unfold matchesPattern. reflexivity.
  - intros fs. unfold matchesPattern. destruct fs; apply Contains_iff.
Qed.

(** C2: with [ignoreCase] set the matcher answers true exactly when the
    lower-cased pattern occurs in the lower-cased line. *)
Theorem matchesPattern_ignoreCase
        (lowerRune : utf8.rune -> utf8.rune) (L P : gostring)
        (fixedStrings : bool) :
  matchesPattern lowerRune L P fixedStrings true = true
  <-> occurs_in (strings.ToLower lowerRune P) (strings.ToLower lowerRune L).
Proof.
  unfold matchesPattern. destruct fixedStrings; apply Contains_iff.
Qed.

Lemma ToLower_nil (lowerRune : utf8.rune -> utf8.rune) :
  strings.ToLower lowerRune [] = [].
Proof. reflexivity. Qed.

(** ** Slices *)

Lemma slice_ok (s : gostring) (lo hi : Z) :
  0 <= lo -> lo <= hi -> hi <= len s ->
  slice s lo hi = Done (firstn (Z.to_nat (hi - lo)) (skipn (Z.to_nat lo) s)).
Proof.
  intros H1 H2 H3. unfold slice.
  apply Z.leb_le in H1, H2, H3. rewrite H1, H2, H3. reflexivity.
Qed.

Lemma slice_Done (s m : gostring) (lo hi : Z) :
  slice s lo hi = Done m ->
  0 <= lo /\ lo <= hi /\ hi <= len s
  /\ m = firstn (Z.to_nat (hi - lo)) (skipn (Z.to_nat lo) s).
Proof.
  unfold slice.
  destruct (0 <=? lo) eqn:H1; [|discriminate].
  destruct (lo <=? hi) eqn:H2; [|discriminate].
  destruct (hi <=? len s) eqn:H3; [|discriminate].
  simpl. intros [= <-]. apply Z.leb_le in H1, H2, H3. auto.
Qed.

Lemma slice_from_ok (s : gostring) (lo : Z) :
  0 <= lo -> lo <= len s -> slice_from s lo = Done (skipn (Z.to_nat lo) s).
Proof.
  intros H1 H2. unfold slice_from. rewrite slice_ok by lia.
  f_equal. apply firstn_all2. rewrite length_skipn. unfold len. lia.
Qed.

Lemma slice_to_ok (s : gostring) (hi : Z) :
  0 <= hi -> hi <= len s -> slice_to s hi = Done (firstn (Z.to_nat hi) s).
Proof.
  intros H1 H2. unfold slice_to. rewrite slice_ok by lia.
  rewrite Z.sub_0_r. reflexivity.
Qed.

(** ** Runs *)

Lemma rbind_ret {A B : Type} (v : A) (k : A -> run B) :
  rbind (ret v) k = k v.
Proof. unfold rbind, ret. simpl. destruct (k v); reflexivity. Qed.

Lemma rbind_lift_Done {A B : Type} (v : A) (k : A -> run B) :
  rbind (lift (Done v)) k = k v.
Proof. apply rbind_ret. Qed.

Lemma rbind_fst_incl {A B : Type} (m : run A) (k : A -> run B) (e : event) :
  In e (fst (rbind m k)) ->
  In e (fst m) \/ exists v, snd m = Done v /\ In e (fst (k v)).
Proof.
  unfold rbind. destruct m as [ev [v| |]]; simpl; auto.
  rewrite in_app_iff. intros [H|H]; [auto | right; eauto].
Qed.

Lemma rbind_emit_fst {B : Type} (e : event) (k : unit -> run B) :
  fst (rbind (emit e) k) = e :: fst (k tt).
Proof. reflexivity. Qed.

(** ** Scanning a file *)

Section Scanning.

Variable lowerRune : utf8.rune -> utf8.rune.
Variable open : gostring -> option OpenedFile.

(** The line the loop goes on with: the text itself, or its first
    32768 bytes and the marker. *)
Definition shownLine (text : gostring) : gostring :=
  if len text >? 32768
  then firstn (Z.to_nat 32768) text ++ truncationMarker
  else text.

Lemma scanLoop_cons (filename : gostring) (config : Config) (lineNum : Z)
      (text : gostring) (todo : list gostring) :
  scanLoop lowerRune filename config lineNum (text :: todo)
  = (_ <-- (if matchesPattern lowerRune (shownLine text) (pattern config)
                 (fixedStrings config) (ignoreCase config)
            then out <-- lift (printMatch lowerRune filename (lineNum + 1)
                                 (shownLine text) config) ;;
                 emit (EvPrint out)
            else ret tt) ;;
     scanLoop lowerRune filename config (lineNum + 1) todo).
Proof.
  cbn [scanLoop]. unfold shownLine.
  destruct (len text >? 32768) eqn:E.
  - apply Z.gtb_lt in E. rewrite slice_to_ok by lia.
    unfold bind. rewrite rbind_lift_Done. reflexivity.
  - rewrite rbind_lift_Done. reflexivity.
Qed.

(** A long line is matched as it is shown: when the pattern is not in
    the truncated text, the line gives no record, whatever its tail
    holds. *)
Lemma scanLoop_long_line (filename : gostring) (config : Config)
      (lineNum : Z) (text : gostring) :
  32768 < len text ->
  matchesPattern lowerRune (firstn (Z.to_nat 32768) text ++ truncationMarker)
    (pattern config) (fixedStrings config) (ignoreCase config) = false ->
  scanLoop lowerRune filename config lineNum [text] = ([], Done tt).
Proof.
  intros Hlen Hm. rewrite scanLoop_cons. unfold shownLine.
  apply Z.gtb_lt in Hlen. rewrite Hlen, Hm. reflexivity.
Qed.

Lemma printMatch_empty_pattern (filename : gostring) (lineNum : Z)
      (line : gostring) (config : Config) :
  pattern config = [] ->
  exists out, printMatch lowerRune filename lineNum line config = Done out.
Proof.
  intros Hp. unfold printMatch, highlightMatches. rewrite Hp. simpl.
  destruct (color config); simpl;
    match goal with
    | |- context [match ?parts with [] => _ | _ :: _ => _ end] =>
        destruct parts; eauto
    end.
Qed.

End Scanning.

(** C9: the matcher answers true for the empty pattern, on every line and
    under every combination of [fixedStrings] and [ignoreCase]: nothing in
    the matcher checks that the pattern is non-empty, and a scan with the
    empty pattern prints one record for every line read. *)
Theorem empty_pattern_matches_every_line
        (lowerRune : utf8.rune -> utf8.rune) :
  (forall (L : gostring) (fixedStrings ignoreCase : bool),
      matchesPattern lowerRune L [] fixedStrings ignoreCase = true)
  /\ (forall (filename : gostring) (config : Config) (lineNum : Z)
             (todo : list gostring),
         pattern config = [] ->
         exists outs,
           scanLoop lowerRune filename config lineNum todo
           = (map EvPrint outs, Done tt)
           /\ length outs = length todo).
Proof.
  assert (M : forall L fs ic, matchesPattern lowerRune L [] fs ic = true).
  { intros L fs ic. unfold matchesPattern.
    destruct ic; rewrite ?ToLower_nil; destruct fs; apply Contains_nil. }
  split; [exact M|].
  intros filename config lineNum todo Hp. revert lineNum.
  induction todo as [|text todo IH]; intros lineNum.
  - exists []. split; reflexivity.
  - rewrite scanLoop_cons, Hp, M.
    destruct (printMatch_empty_pattern lowerRune filename (lineNum + 1)
                (shownLine text) config Hp) as [out ->].
    destruct (IH (lineNum + 1)) as (outs & -> & Hl).
    exists (out :: outs). simpl. split; [reflexivity | congruence].
Qed.

Definition plainConfig (pat : gostring) : Config :=
  {| fixedStrings := false; hidden := false; noHeading := false;
     lineNumber := false; withFilename := false; color := false;
     ignoreCase := false; respectGitignore := false;
     pattern := pat; searchPath := str "." |}.

Lemma empty_pattern_matches_every_line_witness :
  pattern (plainConfig []) = []
  /\ exists outs,
      scanLoop unicode_ToLower (str "a.txt") (plainConfig []) 0
        [str "foo"; str ""; str "baz"]
      = (map EvPrint outs, Done tt)
      /\ length outs = 3%nat.
Proof.
  split; [reflexivity|].
  exact (proj2 (empty_pattern_matches_every_line unicode_ToLower)
           (str "a.txt") (plainConfig []) 0 [str "foo"; str ""; str "baz"]
           eq_refl).
Defined.

(** *** A long line whose only match lies behind the cut *)

Definition longLine : gostring :=
  repeat "a"%char (Z.to_nat 32768) ++ str "needle".

Definition longFile : OpenedFile :=
  {| firstRead := Some (firstn 512 longLine);
     tokens := [longLine];
     scanErr := false |}.

(** C3, at the failing input: the line holds the pattern, once, behind
    byte 32768; the matcher finds it in the line as read, but the scan
    cuts the line before matching and prints no record. *)
Theorem searchInFile_misses_match_behind_cut :
  len longLine = 32774
  /\ matchesPattern unicode_ToLower longLine (str "needle") false false = true
  /\ searchInFile unicode_ToLower (fun _ => Some longFile) (str "big.txt")
       (plainConfig (str "needle"))
     = ([EvOpen (str "big.txt")], Done ErrNil).
Proof. vm_compute. repeat split. Qed.

(** ** The wildcard matcher *)

Definition star : ascii := "*"%char.

Definition isStar (c : ascii) : bool := Ascii.eqb c star.

(** The number of [*] in a pattern. *)
Definition stars (p : gostring) : nat :=
  length (filter isStar p).

Definition noStar (p : gostring) : Prop := stars p = O.

Lemma stars_app (a b : gostring) : stars (a ++ b) = (stars a + stars b)%nat.
Proof. unfold stars. rewrite filter_app, length_app. reflexivity. Qed.

Lemma stars_cons_star (b : gostring) : stars (star :: b) = S (stars b).
Proof. reflexivity. Qed.

Lemma noStar_find (s : gostring) : noStar s -> strings.find s [star] = None.
Proof.
  unfold noStar, stars. induction s as [|c s IH]; intros H.
  - reflexivity.
  - rewrite find_unfold. simpl in H |- *.
    unfold isStar in H. destruct (Ascii.eqb c star); [discriminate|].
    simpl. rewrite (IH H). reflexivity.
Qed.

Lemma find_first_star (a b : gostring) :
  noStar a -> strings.find (a ++ star :: b) [star] = Some (length a).
Proof.
  unfold noStar, stars. induction a as [|c a IH]; intros H.
  - rewrite find_unfold. reflexivity.
  - rewrite find_unfold. simpl in H |- *.
    unfold isStar in H. destruct (Ascii.eqb c star); [discriminate|].
    simpl. rewrite (IH H). reflexivity.
Qed.

Lemma stars_decompose (s : gostring) :
  stars s <> O -> exists a b, s = a ++ star :: b /\ noStar a.
Proof.
  induction s as [|c s IH]; intros H.
  - exfalso; apply H; reflexivity.
  - destruct (Ascii.eqb c star) eqn:E.
    + apply Ascii.eqb_eq in E; subst c. exists [], s. split; reflexivity.
    + assert (Hs : stars s <> O).
      { unfold stars in *. simpl in H. unfold isStar at 1 in H.
        rewrite E in H. exact H. }
      destruct (IH Hs) as (a & b & -> & Ha).
      exists (c :: a), b. split; [reflexivity|].
      unfold noStar, stars in *. simpl. unfold isStar at 1. rewrite E.
      exact Ha.
Qed.

Lemma split_loop_noStar (fuel : nat) (s : gostring) :
  noStar s -> strings.split_loop fuel s [star] = [s].
Proof.
  intros H. destruct fuel; [reflexivity|]. simpl.
  unfold strings.Index. rewrite (noStar_find _ H). reflexivity.
Qed.

Lemma split_loop_star (fuel : nat) (a b : gostring) :
  noStar a ->
  strings.split_loop (S fuel) (a ++ star :: b) [star]
  = a :: strings.split_loop fuel b [star].
Proof.
  intros H. simpl. unfold strings.Index. rewrite (find_first_star _ b H).
  destruct (Z.of_nat (length a) <? 0) eqn:E; [apply Z.ltb_lt in E; lia|].
  rewrite Nat2Z.id.
  replace (Z.to_nat (Z.of_nat (length a) + len [star])) with (length a + 1)%nat
    by (unfold len; simpl; lia).
  rewrite firstn_app, firstn_all, Nat.sub_diag. simpl. rewrite app_nil_r.
  rewrite skipn_app, skipn_all2 by lia.
  replace (length a + 1 - length a)%nat with 1%nat by lia. reflexivity.
Qed.

Lemma split_loop_length (fuel : nat) (s : gostring) :
  (length s <= fuel)%nat ->
  length (strings.split_loop fuel s [star]) = S (stars s).
Proof.
  revert s; induction fuel as [|fuel IH]; intros s Hs.
  - destruct s; [reflexivity | simpl in Hs; lia].
  - destruct (Nat.eq_dec (stars s) O) as [H0|H0].
    + rewrite split_loop_noStar by exact H0. rewrite H0. reflexivity.
    + destruct (stars_decompose s H0) as (a & b & -> & Ha).
      rewrite split_loop_star by exact Ha. simpl.
      rewrite IH.
      * rewrite stars_app, stars_cons_star, Ha. reflexivity.
      * rewrite length_app in Hs. simpl in Hs. lia.
Qed.

Lemma Split_one_star (prefix suffix : gostring) :
  noStar prefix -> noStar suffix ->
  strings.Split (prefix ++ star :: suffix) [star] = [prefix; suffix].
Proof.
  intros Hp Hs. unfold strings.Split.
  rewrite length_app. simpl length.
  replace (length prefix + S (length suffix))%nat
    with (S (length prefix + length suffix)) by lia.
  rewrite split_loop_star by exact Hp.
  rewrite split_loop_noStar by exact Hs. reflexivity.
Qed.

Lemma Split_length (p : gostring) :
  length (strings.Split p [star]) = S (stars p).
Proof. unfold strings.Split. apply split_loop_length. lia. Qed.

Lemma streq_star_cons (c : ascii) (s : gostring) :
  streq (star :: c :: s) (str "*") = false.
Proof. reflexivity. Qed.

Lemma HasPrefix_star_dot (c : ascii) (s : gostring) :
  strings.HasPrefix (star :: c :: s) (str "*.") = Ascii.eqb c "."%char.
Proof.
  simpl. rewrite andb_true_r. reflexivity.
Qed.

Lemma not_star_first (c : ascii) (prefix : gostring) :
  noStar (c :: prefix) -> Ascii.eqb c star = false.
Proof.
  unfold noStar, stars. simpl. unfold isStar.
  destruct (Ascii.eqb c star); [discriminate | reflexivity].
Qed.

Lemma matchWildcard_split (text pattern : gostring) :
  streq pattern (str "*") = false ->
  strings.HasPrefix pattern (str "*.") = false ->
  matchWildcard text pattern
  = match strings.Split pattern [star] with
    | [part0; part1] =>
        strings.HasPrefix text part0 && strings.HasSuffix text part1
    | _ => false
    end.
Proof. intros H1 H2. unfold matchWildcard. rewrite H1, H2. reflexivity. Qed.

(** The pattern is handed to [matchWildcard] by [matchGitignorePattern]:
    it does not start with [!], does not end with [/], and holds a [*]
    (a leading [/] has been removed before). *)
Lemma matchGitignorePattern_wildcard (path pattern : gostring) :
  let p := strings.TrimPrefix pattern (str "/") in
  strings.HasPrefix p (str "!") = false ->
  strings.HasSuffix p (str "/") = false ->
  strings.Contains p (str "*") = true ->
  matchGitignorePattern path pattern = matchWildcard path p.
Proof.
  intros p H1 H2 H3. unfold matchGitignorePattern. fold p.
  rewrite H1, H2, H3. reflexivity.
Qed.

(** C4, as the code has it.  An ignore pattern that, a leading [/]
    removed, does not start with [!], does not end with [/] and holds a
    [*] is decided by [matchWildcard]; there [*] alone matches every path;
    a pattern that starts with [*.] matches exactly the paths that end with
    the pattern less its first byte, further [*] in it being taken
    literally; [*suffix] with no other [*] matches exactly the paths that
    end with [suffix]; [prefix*suffix] with a single [*] matches exactly
    the paths that start with [prefix] and end with [suffix]; and a pattern
    that does not start with [*.] and does not hold exactly one [*] matches
    no path. *)
Theorem matchWildcard_shapes (text pattern : gostring) :
  (forall raw,
      strings.TrimPrefix raw (str "/") = pattern ->
      strings.HasPrefix pattern (str "!") = false ->
      strings.HasSuffix pattern (str "/") = false ->
      strings.Contains pattern (str "*") = true ->
      matchGitignorePattern text raw = matchWildcard text pattern)
  /\ (pattern = [star] -> matchWildcard text pattern = true)
  /\ (forall rest, pattern = star :: "."%char :: rest ->
        (matchWildcard text pattern = true
         <-> exists t, text = t ++ "."%char :: rest))
  /\ (forall suffix, pattern = star :: suffix -> noStar suffix ->
        (matchWildcard text pattern = true <-> exists t, text = t ++ suffix))
  /\ (forall prefix suffix,
        pattern = prefix ++ star :: suffix -> prefix <> [] ->
        noStar prefix -> noStar suffix ->
        (matchWildcard text pattern = true
         <-> (exists t, text = prefix ++ t) /\ (exists t, text = t ++ suffix)))
  /\ (strings.HasPrefix pattern (str "*.") = false ->
      stars pattern <> 1%nat ->
      matchWildcard text pattern = false).
Proof.
  assert (Dot : forall rest,
             matchWildcard text (star :: "."%char :: rest) = true
             <-> exists t, text = t ++ "."%char :: rest).
  { intros rest. unfold matchWildcard.
    rewrite streq_star_cons, HasPrefix_star_dot.
    change (strings.TrimPrefix (star :: "."%char :: rest) (str "*"))
      with ("."%char :: rest).
    apply HasSuffix_iff. }
  split.
  { intros raw <- H1 H2 H3. apply matchGitignorePattern_wildcard; assumption. }
  split; [intros ->; reflexivity|].
  split; [intros rest ->; apply Dot|].
  split.
  { intros suffix -> Hs. destruct suffix as [|c s].
    - split; [intros _; exists text; symmetry; apply app_nil_r | reflexivity].
    - destruct (Ascii.eqb c "."%char) eqn:E.
      + apply Ascii.eqb_eq in E; subst c. apply Dot.
      + rewrite matchWildcard_split;
          [| apply streq_star_cons | rewrite HasPrefix_star_dot; exact E].
        pose proof (Split_one_star [] (c :: s) eq_refl Hs) as HS.
        simpl app in HS. rewrite HS.
        rewrite HasPrefix_nil. simpl. apply HasSuffix_iff. }
  split.
  { intros prefix suffix -> Hne Hp Hs.
    destruct prefix as [|c prefix]; [congruence|].
    pose proof (not_star_first _ _ Hp) as Hc.
    rewrite matchWildcard_split.
    - pose proof (Split_one_star (c :: prefix) suffix Hp Hs) as HS.
      simpl app in HS |- *. rewrite HS.
      rewrite andb_true_iff, HasPrefix_iff, HasSuffix_iff. reflexivity.
    - simpl. fold star. rewrite Hc. reflexivity.
    - simpl. fold star. rewrite Hc. reflexivity. }
  intros Hd Hn. unfold matchWildcard. rewrite Hd.
  destruct (streq pattern (str "*")) eqn:E.
  - apply streq_iff in E. subst pattern. exfalso. apply Hn. reflexivity.
  - pose proof (Split_length pattern) as L. fold star in L.
    change (str "*") with [star].
    destruct (strings.Split pattern [star]) as [|x [|y [|z l]]];
      try reflexivity.
    simpl in L. congruence.
Qed.

Lemma matchWildcard_shapes_witness :
  noStar (str ".log")
  /\ (matchWildcard (str "build/output.log") (str "*.log") = true
      <-> exists t, str "build/output.log" = t ++ str ".log")
  /\ matchGitignorePattern (str "build/output.log") (str "/*.log")
     = matchWildcard (str "build/output.log") (str "*.log")
  /\ strings.HasPrefix (str "a*b*c") (str "*.") = false
  /\ stars (str "a*b*c") <> 1%nat
  /\ matchWildcard (str "abc") (str "a*b*c") = false.
Proof.
  split; [reflexivity|].
  split.
  { apply (proj1 (proj2 (proj2 (proj2
             (matchWildcard_shapes (str "build/output.log") (str "*.log")))))
             (str ".log")); reflexivity. }
  split.
  { apply (proj1 (matchWildcard_shapes (str "build/output.log") (str "*.log"))
             (str "/*.log")); reflexivity. }
  split; [reflexivity|].
  split; [discriminate|].
  apply (proj2 (proj2 (proj2 (proj2 (proj2
           (matchWildcard_shapes (str "abc") (str "a*b*c"))))))).
  - reflexivity.
  - discriminate.
Defined.

Example log_pattern :
  matchGitignorePattern (str "build/output.log") (str "*.log") = true
  /\ matchGitignorePattern (str "output.logx") (str "*.log") = false.
Proof. split; reflexivity. Qed.

(** C4 as stated fails: a pattern with two [*] that starts with [*.]
    matches the path that ends with the rest of it, in [matchWildcard] and
    through [matchGitignorePattern]. *)
Lemma two_stars_can_match :
  stars (str "*.l*g") = 2%nat
  /\ matchWildcard (str "x.l*g") (str "*.l*g") = true
  /\ matchGitignorePattern (str "x.l*g") (str "*.l*g") = true.
Proof. repeat split. Qed.

(** ** The ignore filter and the walk *)

(** Induction on a tree, with the hypothesis for every child of a
    directory. *)
Section NodeInduction.

Variable P : node -> Prop.
Hypothesis HMissing : forall path, P (Missing path).
Hypothesis HRegular : forall path, P (Regular path).
Hypothesis HDirectory :
  forall path readErr children,
    Forall P children -> P (Directory path readErr children).

Fixpoint node_induction (n : node) : P n :=
  match n with
  | Missing path => HMissing path
  | Regular path => HRegular path
  | Directory path readErr children =>
      HDirectory path readErr children
        ((fix all (l : list node) : Forall P l :=
            match l with
            | [] => Forall_nil P
            | c :: l' => Forall_cons c (node_induction c) (all l')
            end) children)
  end.

End NodeInduction.

Lemma In_candidates (f : gostring) (evs : list event) :
  In f (candidates evs) <-> In (EvOpen f) evs.
Proof.
  unfold candidates. rewrite in_flat_map. split.
  - intros ([g|t] & Hin & Hf); simpl in Hf; [|contradiction].
    destruct Hf as [->|[]]. exact Hin.
  - intros H. exists (EvOpen f). split; [exact H | left; reflexivity].
Qed.

Lemma candidates_app (a b : list event) :
  candidates (a ++ b) = candidates a ++ candidates b.
Proof. unfold candidates. apply flat_map_app. Qed.

Section WalkFacts.

Variable fn : gostring -> bool -> bool -> run werr.

(** The loop over the names of a directory, by itself. *)
Fixpoint walkNames (names : list node) : run werr :=
  match names with
  | [] => ret ErrNil
  | child :: names' =>
      err <-- walk fn child ;;
      if stops child err then ret err else walkNames names'
  end.

Lemma walk_Directory (path : gostring) (readErr : bool)
      (children : list node) :
  walk fn (Directory path readErr children)
  = (err1 <-- fn path true readErr ;;
     if readErr || negb (is_nil err1) then ret err1
     else walkNames children).
Proof.
  simpl. f_equal.
Qed.

(** Every event of a walk is an event of one call of the callback. *)
Lemma walk_events (n : node) (e : event) :
  In e (fst (walk fn n)) ->
  exists path isDir err, In e (fst (fn path isDir err)).
Proof.
  induction n as [path|path|path readErr children IH] using node_induction.
  - simpl. eauto.
  - simpl. eauto.
  - rewrite walk_Directory. intros H.
    apply rbind_fst_incl in H as [H|(err1 & _ & H)]; [eauto|].
    destruct (readErr || negb (is_nil err1)); [destruct H|].
    clear path readErr err1.
    induction IH as [|child names Hc _ IHn]; simpl in H; [destruct H|].
    apply rbind_fst_incl in H as [H|(err & _ & H)]; [auto|].
    destruct (stops child err); [destruct H | auto].
Qed.

End WalkFacts.

Lemma walk_ext (fn fn' : gostring -> bool -> bool -> run werr) :
  (forall path isDir err, fn path isDir err = fn' path isDir err) ->
  forall n, walk fn n = walk fn' n.
Proof.
  intros E n.
  induction n as [path|path|path readErr children IH] using node_induction.
  - apply E.
  - apply E.
  - rewrite !walk_Directory, E.
    assert (N : walkNames fn children = walkNames fn' children).
    { induction IH as [|child names Hc _ IHn]; [reflexivity|].
      simpl. rewrite Hc, IHn. reflexivity. }
    rewrite N. reflexivity.
Qed.

Lemma Walk_ext (fn fn' : gostring -> bool -> bool -> run werr) :
  (forall path isDir err, fn path isDir err = fn' path isDir err) ->
  forall root, Walk fn root = Walk fn' root.
Proof. intros E root. unfold Walk. rewrite (walk_ext fn fn' E). reflexivity. Qed.

Section SearchFacts.

Variable lowerRune : utf8.rune -> utf8.rune.
Variable Rel : gostring -> gostring -> option gostring.
Variable Join : gostring -> gostring -> gostring.
Variable TrimSpace : gostring -> gostring.
Variable open : gostring -> option OpenedFile.

Local Abbreviation walkFn' := (walkFn lowerRune Rel open).
Local Abbreviation search' := (search lowerRune Rel Join TrimSpace open).
Local Abbreviation load' := (loadGitignoreFilter Join TrimSpace open).

Lemma shouldIgnore_no_rules (base path : gostring) :
  shouldIgnore Rel (Some {| patterns := []; basePath := base |}) path = false.
Proof. reflexivity. Qed.

Lemma loadGitignoreFilter_open_fails (searchPath : gostring) :
  open (Join searchPath (str ".gitignore")) = None ->
  load' searchPath = ({| patterns := []; basePath := searchPath |}, false).
Proof. intros H. unfold loadGitignoreFilter. rewrite H. reflexivity. Qed.

(** The callback reads the filter through [shouldIgnore] only. *)
Lemma walkFn_filter_ext (config : Config) (gf gf' : option GitignoreFilter) :
  (forall path, shouldIgnore Rel gf path = shouldIgnore Rel gf' path) ->
  forall path isDir err,
    walkFn' config gf path isDir err = walkFn' config gf' path isDir err.
Proof.
  intros E path isDir err. unfold walkFn. rewrite (E path). reflexivity.
Qed.

Lemma scanLoop_only_prints (filename : gostring) (config : Config)
      (todo : list gostring) :
  forall (lineNum : Z) (e : event),
    In e (fst (scanLoop lowerRune filename config lineNum todo)) ->
    exists t, e = EvPrint t.
Proof.
  induction todo as [|text todo IH]; intros lineNum e H.
  - destruct H.
  - rewrite scanLoop_cons in H.
    apply rbind_fst_incl in H as [H|(u & _ & H)]; [|eauto].
    destruct (matchesPattern lowerRune (shownLine text) (pattern config)
                (fixedStrings config) (ignoreCase config)); [|destruct H].
    apply rbind_fst_incl in H as [H|(out & _ & H)]; [destruct H|].
    destruct H as [<-|[]]. eauto.
Qed.

Lemma only_prints_no_candidates (evs : list event) :
  (forall e, In e evs -> exists t, e = EvPrint t) -> candidates evs = [].
Proof.
  induction evs as [|e evs IH]; intros H; [reflexivity|].
  destruct (H e (or_introl eq_refl)) as [t ->]. simpl.
  apply IH. intros e' He'. apply H. right. exact He'.
Qed.

Lemma searchInFile_candidates (filename : gostring) (config : Config) :
  candidates (fst (searchInFile lowerRune open filename config))
  = [filename].
Proof.
  unfold searchInFile. rewrite rbind_emit_fst.
  change (candidates (EvOpen filename :: ?l))
    with (filename :: candidates l).
  f_equal.
  apply only_prints_no_candidates. intros e H.
  destruct (open filename) as [file|]; [|destruct H].
  destruct (isBinaryFile file); [destruct H|].
  apply rbind_fst_incl in H as [H|(u & _ & H)]; [|destruct H].
  exact (scanLoop_only_prints _ _ _ _ _ H).
Qed.

(** A file is opened by the callback only if it passed every check. *)
Lemma walkFn_candidates (config : Config) (gf : option GitignoreFilter)
      (path : gostring) (isDir err : bool) (f : gostring) :
  In f (candidates (fst (walkFn' config gf path isDir err))) ->
  f = path /\ isDir = false /\ err = false
  /\ negb (hidden config) && isHidden path = false
  /\ shouldIgnore Rel gf path = false
  /\ isBinaryFileByExtension lowerRune path = false.
Proof.
  unfold walkFn. destruct err; [intros []|].
  destruct isDir.
  - destruct (shouldIgnoreDirectory path (searchPath config)); [intros []|].
    destruct (negb (hidden config) && isHidden path); [intros []|].
    destruct (shouldIgnore Rel gf path); intros [].
  - destruct (negb (hidden config) && isHidden path); [intros []|].
    destruct (shouldIgnore Rel gf path); [intros []|].
    destruct (isBinaryFileByExtension lowerRune path); [intros []|].
    rewrite searchInFile_candidates. intros [<-|[]]. repeat split.
Qed.

Lemma walk_candidates (config : Config) (gf : option GitignoreFilter)
      (n : node) (f : gostring) :
  In f (candidates (fst (walk (walkFn' config gf) n))) ->
  negb (hidden config) && isHidden f = false
  /\ shouldIgnore Rel gf f = false
  /\ isBinaryFileByExtension lowerRune f = false.
Proof.
  intros H. apply In_candidates in H.
  apply walk_events in H as (path & isDir & err & H).
  apply In_candidates in H. apply walkFn_candidates in H.
  destruct H as (-> & _ & _ & H). exact H.
Qed.

Lemma Walk_candidates (fn : gostring -> bool -> bool -> run werr)
      (root : node) :
  candidates (fst (Walk fn root)) = candidates (fst (walk fn root)).
Proof.
  unfold Walk, rbind. destruct (walk fn root) as [evs [err| |]]; simpl;
    rewrite ?app_nil_r; reflexivity.
Qed.

End SearchFacts.

(** C5: a missing or unreadable ignore file never fails the search.  When
    the file cannot be opened the loader returns the empty rule set and no
    error; the empty rule set ignores no path; and when the file cannot be
    opened, or reading it ends in an error, the search is the walk with no
    filter at all. *)
Theorem ignore_file_failure_is_permissive
        (lowerRune : utf8.rune -> utf8.rune)
        (Rel : gostring -> gostring -> option gostring)
        (Join : gostring -> gostring -> gostring)
        (TrimSpace : gostring -> gostring)
        (open : gostring -> option OpenedFile) :
  (forall searchPath,
      open (Join searchPath (str ".gitignore")) = None ->
      loadGitignoreFilter Join TrimSpace open searchPath
      = ({| patterns := []; basePath := searchPath |}, false))
  /\ (forall base path,
         shouldIgnore Rel (Some {| patterns := []; basePath := base |}) path
         = false)
  /\ (forall config root,
         open (Join (searchPath config) (str ".gitignore")) = None
         \/ snd (loadGitignoreFilter Join TrimSpace open (searchPath config))
            = true ->
         search lowerRune Rel Join TrimSpace open config root
         = Walk (walkFn lowerRune Rel open config None) root).
Proof.
  split; [apply loadGitignoreFilter_open_fails|].
  split; [apply shouldIgnore_no_rules|].
  intros config root H. unfold search.
  destruct (respectGitignore config); [|reflexivity].
  destruct H as [H|H].
  - rewrite (loadGitignoreFilter_open_fails Join TrimSpace open _ H).
    apply Walk_ext. apply walkFn_filter_ext. intros path. reflexivity.
  - destruct (loadGitignoreFilter Join TrimSpace open (searchPath config))
      as [filter err].
    simpl in H. rewrite H. reflexivity.
Qed.

(** C6: with [hidden] unset no file whose base name starts with a dot is
    handed to the scan, and a directory whose base name starts with a dot
    is left without any of its entries being visited; with [hidden] set
    the callback decides without looking at the name, so that such a file
    is scanned once the ignore filter and the extension check let it
    through. *)
Theorem hidden_entries_excluded
        (lowerRune : utf8.rune -> utf8.rune)
        (Rel : gostring -> gostring -> option gostring)
        (Join : gostring -> gostring -> gostring)
        (TrimSpace : gostring -> gostring)
        (open : gostring -> option OpenedFile)
        (config : Config) :
  (hidden config = false ->
   (forall root f,
       In f (candidates
               (fst (search lowerRune Rel Join TrimSpace open config root))) ->
       isHidden f = false)
   /\ (forall gf path readErr children,
          isHidden path = true ->
          fst (walk (walkFn lowerRune Rel open config gf)
                 (Directory path readErr children)) = []))
  /\ (hidden config = true ->
      forall gf path,
        walkFn lowerRune Rel open config gf path false false
        = (if shouldIgnore Rel gf path then ret ErrNil
           else if isBinaryFileByExtension lowerRune path then ret ErrNil
           else searchInFile lowerRune open path config)
        /\ walkFn lowerRune Rel open config gf path true false
           = (if shouldIgnoreDirectory path (searchPath config) then ret SkipDir
              else if shouldIgnore Rel gf path then ret SkipDir
              else ret ErrNil)
        /\ (shouldIgnore Rel gf path = false ->
            isBinaryFileByExtension lowerRune path = false ->
            candidates
              (fst (walk (walkFn lowerRune Rel open config gf) (Regular path)))
            = [path])).
Proof.
  split.
  - intros Hh. split.
    + intros root f H. unfold search in H. rewrite Walk_candidates in H.
      apply walk_candidates in H. destruct H as (H & _).
      rewrite Hh in H. exact H.
    + intros gf path readErr children Hp. rewrite walk_Directory.
      unfold walkFn. rewrite Hh, Hp.
      destruct readErr; [reflexivity|].
      destruct (shouldIgnoreDirectory path (searchPath config)); reflexivity.
  - intros Hh gf path. unfold walk, walkFn. rewrite Hh. simpl.
    split; [reflexivity|]. split; [reflexivity|].
    intros H1 H2. rewrite H1, H2. apply searchInFile_candidates.
Qed.

(** *** A small tree: [root] holds [.secret] and [a.txt] *)

Definition exampleRel (base path : gostring) : option gostring :=
  Some (strings.TrimPrefix (strings.TrimPrefix path base) (str "/")).

Definition exampleJoin (dir name : gostring) : gostring :=
  dir ++ str "/" ++ name.

Definition exampleTree : node :=
  Directory (str "root") false
    [Regular (str "root/.secret"); Regular (str "root/a.txt")].

Definition exampleOpen (path : gostring) : option OpenedFile :=
  if streq path (str "root/a.txt") then
    Some {| firstRead := Some (str "foo" ++ byte 10 :: str "FooBar"
                                 ++ byte 10 :: str "baz" ++ [byte 10]);
            tokens := [str "foo"; str "FooBar"; str "baz"];
            scanErr := false |}
  else if streq path (str "root/.secret") then
    Some {| firstRead := Some (str "foo" ++ [byte 10]);
            tokens := [str "foo"];
            scanErr := false |}
  else None.

Definition exampleConfig (hid ic : bool) : Config :=
  {| fixedStrings := false; hidden := hid; noHeading := false;
     lineNumber := true; withFilename := true; color := false;
     ignoreCase := ic; respectGitignore := true;
     pattern := str "foo"; searchPath := str "root" |}.

Definition exampleSearch (hid ic : bool) : run werr :=
  search unicode_ToLower exampleRel exampleJoin (fun s => s) exampleOpen
    (exampleConfig hid ic) exampleTree.

Example search_hidden_off :
  exampleSearch false false
  = ([EvOpen (str "root/a.txt");
      EvPrint (str "root/a.txt:1:foo" ++ [byte 10])], Done ErrNil).
Proof. vm_compute. reflexivity. Qed.

Example search_hidden_off_ignoreCase :
  printed (fst (exampleSearch false true))
  = [str "root/a.txt:1:foo" ++ [byte 10];
     str "root/a.txt:2:FooBar" ++ [byte 10]].
Proof. vm_compute. reflexivity. Qed.

Example search_hidden_on :
  candidates (fst (exampleSearch true false))
  = [str "root/.secret"; str "root/a.txt"].
Proof. vm_compute. reflexivity. Qed.

Lemma ignore_file_failure_is_permissive_witness :
  exampleOpen (exampleJoin (str "root") (str ".gitignore")) = None
  /\ exampleSearch false false
     = Walk (walkFn unicode_ToLower exampleRel exampleOpen
               (exampleConfig false false) None) exampleTree.
Proof.
  split; [reflexivity|].
  apply (proj2 (proj2 (ignore_file_failure_is_permissive unicode_ToLower
                         exampleRel exampleJoin (fun s => s) exampleOpen))).
  left. reflexivity.
Defined.

Lemma hidden_entries_excluded_witness :
  (hidden (exampleConfig false false) = false
   /\ forall f, In f (candidates (fst (exampleSearch false false))) ->
                isHidden f = false)
  /\ (hidden (exampleConfig true false) = true
      /\ candidates
           (fst (walk (walkFn unicode_ToLower exampleRel exampleOpen
                         (exampleConfig true false) None)
                   (Regular (str "root/.secret"))))
         = [str "root/.secret"]).
Proof.
  split.
  - split; [reflexivity|].
    exact (proj1 (proj1 (hidden_entries_excluded unicode_ToLower exampleRel
                           exampleJoin (fun s => s) exampleOpen
                           (exampleConfig false false)) eq_refl)
             exampleTree).
  - split; [reflexivity|].
    apply (proj2 (hidden_entries_excluded unicode_ToLower exampleRel
                    exampleJoin (fun s => s) exampleOpen
                    (exampleConfig true false)) eq_refl None
             (str "root/.secret")); reflexivity.
Defined.

(** ** Emphasis markers *)

Definition ESC : ascii := byte 27.

(** Deleting the emphasis markers from a text, in one pass from the left:
    at every position a begin marker or an end marker that starts there is
    left out, any other byte is kept. *)
Fixpoint stripFrom (skip : nat) (s : gostring) : gostring :=
  match s with
  | [] => []
  | c :: s' =>
      match skip with
      | S k => stripFrom k s'
      | O =>
          if strings.HasPrefix s ColorRed
          then stripFrom (length ColorRed - 1) s'
          else if strings.HasPrefix s ColorReset
               then stripFrom (length ColorReset - 1) s'
               else c :: stripFrom O s'
      end
  end.

Definition stripMarkers (s : gostring) : gostring := stripFrom O s.

(** The text holds no emphasis marker. *)
Definition markerFree (s : gostring) : Prop :=
  ~ occurs_in ColorRed s /\ ~ occurs_in ColorReset s.

Definition markerFreeb (s : gostring) : bool :=
  negb (strings.Contains s ColorRed) && negb (strings.Contains s ColorReset).

Lemma markerFreeb_iff (s : gostring) : markerFreeb s = true <-> markerFree s.
Proof.
  unfold markerFreeb, markerFree.
  rewrite andb_true_iff, !negb_true_iff, <- !not_true_iff_false, !Contains_iff.
  reflexivity.
Qed.

(** A run of markers: one marker after the other. *)
Inductive markerRun : gostring -> Prop :=
| run_red : markerRun ColorRed
| run_reset : markerRun ColorReset
| run_red_more r : markerRun r -> markerRun (ColorRed ++ r)
| run_reset_more r : markerRun r -> markerRun (ColorReset ++ r).

(** [out] is [line] with [pre] and [post] put around some of its pieces,
    which follow one another without overlap. *)
Inductive Wrapped (pre post : gostring) : gostring -> gostring -> Prop :=
| Wrapped_tail t : Wrapped pre post t t
| Wrapped_span g m rest out :
    Wrapped pre post rest out ->
    Wrapped pre post (g ++ m ++ rest) (g ++ pre ++ m ++ post ++ out).

Lemma occurs_in_app_l (p a b : gostring) : occurs_in p a -> occurs_in p (a ++ b).
Proof.
  intros (x & y & ->). exists x, (y ++ b). rewrite <- !app_assoc. reflexivity.
Qed.

Lemma occurs_in_app_r (p a b : gostring) : occurs_in p b -> occurs_in p (a ++ b).
Proof.
  intros (x & y & ->). exists (a ++ x), y. rewrite <- !app_assoc. reflexivity.
Qed.

Lemma markerFree_app (a b : gostring) :
  markerFree (a ++ b) -> markerFree a /\ markerFree b.
Proof.
  intros [H1 H2]. repeat split; intros H.
  - apply H1, occurs_in_app_l, H.
  - apply H2, occurs_in_app_l, H.
  - apply H1, occurs_in_app_r, H.
  - apply H2, occurs_in_app_r, H.
Qed.

(** A prefix of [x ++ y] lies in [x], or [x] is its proper beginning and
    the rest of it starts [y]. *)
Lemma HasPrefix_app_cases (x y M : gostring) :
  strings.HasPrefix (x ++ y) M = true ->
  strings.HasPrefix x M = true
  \/ exists M2, M = x ++ M2 /\ M2 <> [] /\ strings.HasPrefix y M2 = true.
Proof.
  revert M; induction x as [|c x IH]; intros M H.
  - destruct M as [|d M]; [left; reflexivity|].
    right. exists (d :: M). repeat split; [discriminate | exact H].
  - destruct M as [|d M]; [left; reflexivity|].
    simpl in H. apply andb_true_iff in H as [Hc H].
    apply Ascii.eqb_eq in Hc; subst d.
    destruct (IH M H) as [H'|(M2 & -> & Hne & H')].
    + left. simpl. rewrite Ascii.eqb_refl. exact H'.
    + right. exists M2. repeat split; assumption.
Qed.

(** The escape byte is the first byte of a marker and no other. *)
Lemma marker_ESC_first (M x M2 : gostring) :
  M = ColorRed \/ M = ColorReset ->
  M = x ++ ESC :: M2 -> x = [].
Proof.
  intros [->| ->] H;
    destruct x as [|c1 [|c2 [|c3 [|c4 [|c5 [|c6 x]]]]]];
    try reflexivity; discriminate.
Qed.

Definition startsESC (b : gostring) : Prop :=
  match b with
  | [] => True
  | c :: _ => c = ESC
  end.

(** Behind a text without markers that is followed by an escape byte, or
    by nothing, no marker starts inside the text. *)
Lemma no_marker_start (M a2 b : gostring) :
  M = ColorRed \/ M = ColorReset ->
  ~ occurs_in M a2 -> startsESC b -> a2 <> [] ->
  strings.HasPrefix (a2 ++ b) M = false.
Proof.
  intros HM Hfree Hb Hne.
  destruct (strings.HasPrefix (a2 ++ b) M) eqn:E; [|reflexivity].
  exfalso. apply HasPrefix_app_cases in E as [E|(M2 & HM2 & Hne2 & E)].
  - apply HasPrefix_iff in E as [t ->]. apply Hfree. exists [], t. reflexivity.
  - destruct M2 as [|d M2]; [congruence|].
    destruct b as [|c b]; [destruct HM as [->| ->]; discriminate|].
    simpl in Hb, E. subst c. apply andb_true_iff in E as [E _].
    apply Ascii.eqb_eq in E. subst d.
    apply Hne. exact (marker_ESC_first M a2 M2 HM HM2).
Qed.

Lemma stripFrom_keep (a b : gostring) :
  markerFree a -> startsESC b ->
  stripMarkers (a ++ b) = a ++ stripMarkers b.
Proof.
  unfold stripMarkers. induction a as [|c a IH]; intros Hfree Hb.
  - reflexivity.
  - change ((c :: a) ++ b) with (c :: (a ++ b)).
    cbn [stripFrom].
    change (c :: (a ++ b)) with ((c :: a) ++ b).
    rewrite (no_marker_start ColorRed (c :: a) b), (no_marker_start ColorReset (c :: a) b);
      auto; try apply Hfree; try discriminate.
    simpl. f_equal. apply IH; [|exact Hb].
    apply (markerFree_app [c] a). exact Hfree.
Qed.

Lemma stripMarkers_free (a : gostring) : markerFree a -> stripMarkers a = a.
Proof.
  intros H. rewrite <- (app_nil_r a) at 1.
  rewrite stripFrom_keep by (auto; exact I). rewrite app_nil_r. reflexivity.
Qed.

Lemma stripMarkers_run (r x : gostring) :
  markerRun r -> stripMarkers (r ++ x) = stripMarkers x.
Proof.
  intros H; induction H as [| |r H IH|r H IH].
  - reflexivity.
  - reflexivity.
  - rewrite <- app_assoc. exact IH.
  - rewrite <- app_assoc. exact IH.
Qed.

Lemma markerRun_startsESC (r x : gostring) : markerRun r -> startsESC (r ++ x).
Proof. intros H; destruct H; reflexivity. Qed.

(** Stripping the markers from a wrapped text gives the text back. *)
Lemma stripMarkers_Wrapped (pre post line out : gostring) :
  markerRun pre -> markerRun post ->
  Wrapped pre post line out -> markerFree line -> stripMarkers out = line.
Proof.
  intros Hpre Hpost W. induction W as [t|g m rest out W IH]; intros Hfree.
  - apply stripMarkers_free. exact Hfree.
  - apply markerFree_app in Hfree as [Hg Hfree].
    apply markerFree_app in Hfree as [Hm Hrest].
    rewrite stripFrom_keep by (auto using markerRun_startsESC).
    rewrite stripMarkers_run by exact Hpre.
    rewrite stripFrom_keep by (auto using markerRun_startsESC).
    rewrite stripMarkers_run by exact Hpost.
    rewrite IH by exact Hrest. reflexivity.
Qed.

(** ** The highlighter *)

Lemma split_three (s : gostring) (i n : nat) :
  s = firstn i s ++ firstn n (skipn i s) ++ skipn (i + n) s.
Proof.
  rewrite <- (firstn_skipn i s) at 1. f_equal.
  rewrite <- (firstn_skipn n (skipn i s)) at 1. f_equal.
  rewrite skipn_skipn. f_equal. lia.
Qed.

Lemma find_Some_split (s sub : gostring) (i : nat) :
  strings.find s sub = Some i ->
  s = firstn i s ++ sub ++ skipn (i + length sub) s.
Proof.
  intros F. destruct (find_Some _ _ _ F) as (pre & post & -> & <-).
  rewrite firstn_app, firstn_all, Nat.sub_diag. simpl. rewrite app_nil_r.
  rewrite skipn_app, skipn_all2 by lia.
  replace (length pre + length sub - length pre)%nat with (length sub) by lia.
  rewrite skipn_app, skipn_all, Nat.sub_diag. reflexivity.
Qed.

Lemma Index_find (s sub : gostring) (j : Z) :
  strings.Index s sub = j -> 0 <= j ->
  strings.find s sub = Some (Z.to_nat j).
Proof.
  unfold strings.Index. destruct (strings.find s sub) as [i|]; intros <- H.
  - rewrite Nat2Z.id. reflexivity.
  - lia.
Qed.

(** [strings.ReplaceAll] with a wrapped copy of [old] only puts the
    wrapping around pieces of the text. *)
Lemma replace_loop_Wrapped (pre post old : gostring) (fuel : nat) :
  forall s,
    Wrapped pre post s (strings.replace_loop fuel s old (pre ++ old ++ post)).
Proof.
  induction fuel as [|fuel IH]; intros s; simpl.
  - constructor.
  - destruct (strings.Index s old <? 0) eqn:E; [constructor|].
    apply Z.ltb_ge in E.
    pose proof (Index_find s old _ eq_refl E) as F.
    apply find_Some_split in F.
    set (j := strings.Index s old) in *.
    replace (Z.to_nat (j + len old)) with (Z.to_nat j + length old)%nat
      by (unfold len; lia).
    rewrite F at 1. rewrite <- !app_assoc.
    apply Wrapped_span. apply IH.
Qed.

Section HighlightLoop.

Variables line pattern lowerLine lowerPattern : gostring.

Local Abbreviation loop :=
  (fun fuel => highlightLoop fuel line pattern lowerLine lowerPattern).

(** Whatever the loop returns is the builder followed by the rest of
    the line, wrapped. *)
Lemma highlightLoop_Wrapped (fuel : nat) :
  forall (lastIndex : Z) (result out : gostring),
    0 <= lastIndex ->
    loop fuel lastIndex result = Done out ->
    exists out',
      out = result ++ out'
      /\ Wrapped ColorRed ColorReset (skipn (Z.to_nat lastIndex) line) out'.
Proof.
  induction fuel as [|fuel IH]; intros last result out Hlast;
    cbn [highlightLoop].
  - discriminate.
  - destruct (slice_from lowerLine last) as [rest| |] eqn:S1;
      cbn [bind]; try discriminate.
    set (index := strings.Index rest lowerPattern).
    assert (Tail : forall r, slice_from line last = r ->
              bind r (fun tail => Done (result ++ tail)) = Done out ->
              exists out',
                out = result ++ out'
                /\ Wrapped ColorRed ColorReset
                     (skipn (Z.to_nat last) line) out').
    { intros r Hr Hd. destruct r as [tail| |]; try discriminate.
      cbn [bind] in Hd. injection Hd as <-.
      apply slice_Done in Hr as (_ & H2 & _ & ->).
      exists (firstn (Z.to_nat (len line - last))
                (skipn (Z.to_nat last) line)).
      split; [reflexivity|].
      rewrite firstn_all2 by (rewrite length_skipn; unfold len; lia).
      constructor. }
    destruct (index =? -1) eqn:E1; [apply (Tail _ eq_refl)|].
    destruct (last + index + len pattern >? len line) eqn:E2;
      [apply (Tail _ eq_refl)|].
    clear Tail.
    destruct (slice line last (last + index)) as [before| |] eqn:S2;
      cbn [bind]; try discriminate.
    destruct (slice line (last + index) (last + index + len pattern))
      as [original| |] eqn:S3; cbn [bind]; try discriminate.
    intros Hd.
    apply slice_Done in S2 as (_ & Hi & _ & ->).
    apply slice_Done in S3 as (_ & _ & Hend & ->).
    pose proof (len_nonneg pattern) as Hp.
    apply IH in Hd as (out' & -> & W); [|lia].
    eexists. split; [rewrite <- !app_assoc; reflexivity|].
    set (L := skipn (Z.to_nat last) line).
    replace (skipn (Z.to_nat (last + index)) line)
      with (skipn (Z.to_nat index) L)
      by (unfold L; rewrite skipn_skipn; f_equal; lia).
    replace (skipn (Z.to_nat (last + index + len pattern)) line)
      with (skipn (Z.to_nat index + length pattern) L) in W
      by (unfold L; rewrite skipn_skipn; f_equal; unfold len; lia).
    replace (Z.to_nat (last + index - last)) with (Z.to_nat index) by lia.
    replace (Z.to_nat (last + index + len pattern - (last + index)))
      with (length pattern) by (unfold len; lia).
    rewrite (split_three L (Z.to_nat index) (length pattern)) at 1.
    apply Wrapped_span. exact W.
Qed.

(** The loop ends before its fuel does. *)
Lemma highlightLoop_no_Timeout (fuel : nat) :
  forall (lastIndex : Z) (result : gostring),
    0 < len pattern -> 0 <= lastIndex ->
    (Z.to_nat (len line - lastIndex) < fuel)%nat ->
    loop fuel lastIndex result <> Timeout.
Proof.
  induction fuel as [|fuel IH]; intros last result Hp Hlast Hf; [lia|].
  cbn [highlightLoop].
  destruct (slice_from lowerLine last) as [rest| |] eqn:S1; cbn [bind];
    [| discriminate | unfold slice_from, slice in S1;
       destruct ((0 <=? last) && (last <=? len lowerLine)
                 && (len lowerLine <=? len lowerLine)); discriminate].
  pose proof (Index_range rest lowerPattern) as Hi.
  set (index := strings.Index rest lowerPattern) in *.
  assert (Tail : bind (slice_from line last)
                   (fun tail => Done (result ++ tail)) <> Timeout).
  { unfold slice_from, slice.
    destruct ((0 <=? last) && (last <=? len line) && (len line <=? len line));
      discriminate. }
  destruct (index =? -1) eqn:E1; [exact Tail|].
  destruct (last + index + len pattern >? len line) eqn:E2; [exact Tail|].
  clear Tail. apply Z.eqb_neq in E1.
  assert (E2' : last + index + len pattern <= len line).
  { destruct (Z.gtb_spec (last + index + len pattern) (len line));
      [discriminate | lia]. }
  rewrite !slice_ok by lia. cbn [bind]. apply IH; lia.
Qed.


End HighlightLoop.

Lemma ToLower_ascii (lowerRune : utf8.rune -> utf8.rune) (s : gostring) :
  strings.isASCII s = true ->
  strings.ToLower lowerRune s = map strings.lowerByte s.
Proof. intros H. unfold strings.ToLower. rewrite H. reflexivity. Qed.

Lemma highlightIgnoreCase_no_Timeout
      (lowerRune : utf8.rune -> utf8.rune) (line pattern : gostring) :
  highlightIgnoreCase lowerRune line pattern <> Timeout.
Proof.
  unfold highlightIgnoreCase.
  destruct (len line =? 0); [discriminate|].
  destruct (len pattern =? 0) eqn:E; [discriminate|]. simpl orb. cbv iota.
  apply Z.eqb_neq in E. pose proof (len_nonneg pattern).
  apply highlightLoop_no_Timeout; unfold len in *; lia.
Qed.



(** The boundary rule: when the span found in the lowered line would end
    behind the end of the line, the rest of the line is appended as it
    is and the loop ends. *)
Lemma highlightLoop_overrun
      (fuel : nat) (line pattern lowerLine lowerPattern rest : gostring)
      (lastIndex : Z) (result : gostring) :
  0 <= lastIndex -> lastIndex <= len line ->
  slice_from lowerLine lastIndex = Done rest ->
  strings.Index rest lowerPattern <> -1 ->
  len line < lastIndex + strings.Index rest lowerPattern + len pattern ->
  highlightLoop (S fuel) line pattern lowerLine lowerPattern lastIndex result
  = Done (result ++ skipn (Z.to_nat lastIndex) line).
Proof.
  intros H0 H1 S1 Hi Hover. cbn [highlightLoop]. rewrite S1. cbn [bind].
  apply Z.eqb_neq in Hi. rewrite Hi.
  apply Z.gtb_lt in Hover. rewrite Hover.
  rewrite slice_from_ok by lia. reflexivity.
Qed.

(** The rule at work: the byte [0xFF] is not valid UTF-8 and is lowered
    to the three bytes of U+FFFD, so [ab] is found at offset 3 of the
    lowered line and the span 3..5 overruns the three bytes of the line;
    nothing is emphasised. *)
Example highlightIgnoreCase_overrun :
  strings.ToLower unicode_ToLower (byte 255 :: str "ab")
  = [byte 239; byte 191; byte 189] ++ str "ab"
  /\ highlightIgnoreCase unicode_ToLower (byte 255 :: str "ab") (str "ab")
     = Done (byte 255 :: str "ab").
Proof. split; reflexivity. Qed.

Example highlightIgnoreCase_original_casing :
  highlightIgnoreCase unicode_ToLower (str "Hello WORLD") (str "world")
  = Done (str "Hello " ++ ColorRed ++ str "WORLD" ++ ColorReset).
Proof. reflexivity. Qed.

(** *** Lowering that changes the length of the text *)

(** The bytes [C4 B0] encode U+0130, whose lower case is [i]. *)
Definition Istanbul : gostring := byte 196 :: byte 176 :: str "stanbul".

(** C7, at a failing input: lowering the line moves [stan] from offset 2
    to offset 1; the span 1..5 is cut from the line as read, so the
    emphasised bytes are [B0 s t a], which is neither the text that matched
    nor its original casing.  And with the whole line as the pattern the
    scan does not stop at all: it panics behind the first span. *)
Theorem highlightIgnoreCase_emphasises_shifted_span :
  strings.ToLower unicode_ToLower Istanbul = str "istanbul"
  /\ highlightIgnoreCase unicode_ToLower Istanbul (str "stan")
     = Done ([byte 196] ++ ColorRed ++ (byte 176 :: str "sta") ++ ColorReset
               ++ str "nbul")
  /\ strings.ToLower unicode_ToLower (byte 176 :: str "sta")
     <> strings.ToLower unicode_ToLower (str "stan")
  /\ highlightIgnoreCase unicode_ToLower Istanbul Istanbul = Panic.
Proof. repeat split. vm_compute. discriminate. Qed.

(** The same shift on a Latin-1 text, where no letter beyond ASCII is
    lowered: the byte [E9] is not valid UTF-8 and is written as the three
    bytes of U+FFFD, so [au] is found two bytes behind its place in the
    line and the bytes emphasised are a blank and [l]. *)
Example highlightIgnoreCase_latin1 :
  highlightIgnoreCase unicode_ToLower
    (str "caf" ++ byte 233 :: str " au lait") (str "au")
  = Done (str "caf" ++ byte 233 :: str " au" ++ ColorRed ++ str " l"
            ++ ColorReset ++ str "ait").
Proof. reflexivity. Qed.

(** C10, at a failing input: the line holds no marker and the pattern is
    not empty, but the pattern is the line itself and lowering makes both
    one byte shorter; after the first span [lastIndex] is 9, the lowered
    line has 8 bytes, and [lowerLine[lastIndex:]] panics: there is no
    output to strip. *)
Theorem highlightMatches_panics_when_lowering_shortens :
  markerFreeb Istanbul = true
  /\ len Istanbul = 9
  /\ len (strings.ToLower unicode_ToLower Istanbul) = 8
  /\ highlightMatches unicode_ToLower Istanbul Istanbul false true = Panic.
Proof. repeat split. Qed.

(** ** Highlighting as one scan

    Both modes of the highlighter scan a text for a key and put markers
    around the pieces of the line that lie where the key was found: the
    case-sensitive mode scans the line itself, the case-insensitive mode
    its lowered copy.  [wrapScan] is that scan, with the text scanned
    ([shadow]) apart from the line the pieces are cut from. *)

Fixpoint wrapScan (fuel : nat) (key pre post shadow line : gostring)
  : gostring :=
  match fuel with
  | O => line
  | S fuel' =>
      match strings.find shadow key with
      | None => line
      | Some i =>
          firstn i line ++ pre ++ firstn (length key) (skipn i line) ++ post
            ++ wrapScan fuel' key pre post
                 (skipn (i + length key) shadow) (skipn (i + length key) line)
      end
  end.

Definition emphasize (key pre post shadow line : gostring) : gostring :=
  wrapScan (S (length shadow)) key pre post shadow line.

(** No byte of [key] is a byte of [B]. *)
Definition apart (key B : gostring) : Prop :=
  forall c, In c key -> ~ In c B.

Lemma firstn_app_le (i : nat) (a b : gostring) :
  (i <= length a)%nat -> firstn i (a ++ b) = firstn i a.
Proof.
  intros H. rewrite firstn_app.
  replace (i - length a)%nat with O by lia. simpl. apply app_nil_r.
Qed.

Lemma skipn_app_le (i : nat) (a b : gostring) :
  (i <= length a)%nat -> skipn i (a ++ b) = skipn i a ++ b.
Proof.
  intros H. rewrite skipn_app.
  replace (i - length a)%nat with O by lia. reflexivity.
Qed.

Lemma firstn_app_exact (k : nat) (a b : gostring) :
  firstn (length a + k) (a ++ b) = a ++ firstn k b.
Proof. apply firstn_app_2. Qed.

Lemma skipn_app_exact (k : nat) (a b : gostring) :
  skipn (length a + k) (a ++ b) = skipn k b.
Proof.
  rewrite skipn_app, skipn_all2 by lia.
  replace (length a + k - length a)%nat with k by lia. reflexivity.
Qed.

Lemma find_bound (s key : gostring) (i : nat) :
  strings.find s key = Some i -> (i + length key <= length s)%nat.
Proof.
  intros F. destruct (find_Some _ _ _ F) as (pre & post & -> & <-).
  rewrite !length_app. lia.
Qed.

Lemma find_nil_key (key : gostring) :
  key <> [] -> strings.find [] key = None.
Proof. destruct key; [congruence | reflexivity]. Qed.

Lemma find_self (key : gostring) : strings.find key key = Some O.
Proof.
  rewrite find_unfold.
  rewrite <- (app_nil_r key) at 1. rewrite HasPrefix_app. reflexivity.
Qed.

Lemma find_firstn_None (s key : gostring) (i : nat) :
  key <> [] ->
  strings.find s key = Some i -> strings.find (firstn i s) key = None.
Proof.
  intros Hk F.
  destruct (strings.find (firstn i s) key) as [j|] eqn:G; [|reflexivity].
  exfalso. pose proof (find_bound _ _ _ G) as B.
  destruct (find_Some _ _ _ G) as (a & b & Hab & Hj).
  pose proof (find_first _ _ _ F a (b ++ skipn i s)) as Hf.
  rewrite <- (firstn_skipn i s) in Hf at 1. rewrite Hab in Hf.
  rewrite <- !app_assoc in Hf. specialize (Hf eq_refl).
  rewrite length_firstn in B.
  destruct key; [congruence|]. simpl in B. lia.
Qed.

Section Scan.

Variable key : gostring.
Hypothesis key_nonempty : key <> [].

Lemma wrapScan_fuel (pre post : gostring) (f1 : nat) :
  forall (f2 : nat) (shadow line : gostring),
    (length shadow <= f1)%nat -> (length shadow <= f2)%nat ->
    wrapScan f1 key pre post shadow line
    = wrapScan f2 key pre post shadow line.
Proof.
  induction f1 as [|f1 IH]; intros f2 shadow line H1 H2.
  - destruct shadow; [|simpl in H1; lia].
    destruct f2; [reflexivity|]. cbn [wrapScan].
    rewrite (find_nil_key key key_nonempty). reflexivity.
  - destruct f2 as [|f2].
    + destruct shadow; [|simpl in H2; lia]. cbn [wrapScan].
      rewrite (find_nil_key key key_nonempty). reflexivity.
    + cbn [wrapScan]. destruct (strings.find shadow key) as [i|] eqn:F;
        [|reflexivity].
      pose proof (find_bound _ _ _ F) as B.
      assert (length key <> O) by (destruct key; simpl; congruence).
      do 4 f_equal. apply IH; rewrite length_skipn; lia.
Qed.

Lemma emphasize_unfold (pre post shadow line : gostring) :
  emphasize key pre post shadow line
  = match strings.find shadow key with
    | None => line
    | Some i =>
        firstn i line ++ pre ++ firstn (length key) (skipn i line) ++ post
          ++ emphasize key pre post
               (skipn (i + length key) shadow) (skipn (i + length key) line)
    end.
Proof.
  destruct (strings.find shadow key) as [i|] eqn:F.
  - unfold emphasize at 1. cbn [wrapScan]. rewrite F. do 4 f_equal.
    unfold emphasize. apply wrapScan_fuel; rewrite ?length_skipn; lia.
  - unfold emphasize. cbn [wrapScan]. rewrite F. reflexivity.
Qed.

Lemma emphasize_no_match (pre post shadow line : gostring) :
  strings.find shadow key = None -> emphasize key pre post shadow line = line.
Proof. intros F. rewrite emphasize_unfold, F. reflexivity. Qed.

Lemma wrapScan_Wrapped (pre post : gostring) (fuel : nat) :
  forall shadow line,
    Wrapped pre post line (wrapScan fuel key pre post shadow line).
Proof.
  induction fuel as [|fuel IH]; intros shadow line; cbn [wrapScan].
  - constructor.
  - destruct (strings.find shadow key) as [i|]; [|constructor].
    rewrite (split_three line i (length key)) at 1.
    apply Wrapped_span. apply IH.
Qed.

Lemma wrapScan_length (pre post : gostring) (fuel : nat) :
  forall shadow l1 l2,
    length l1 = length l2 ->
    length (wrapScan fuel key pre post shadow l1)
    = length (wrapScan fuel key pre post shadow l2).
Proof.
  induction fuel as [|fuel IH]; intros shadow l1 l2 H; cbn [wrapScan].
  - exact H.
  - destruct (strings.find shadow key) as [i|]; [|exact H].
    rewrite !length_app, !length_firstn, !length_skipn, H.
    rewrite (IH _ (skipn (i + length key) l1) (skipn (i + length key) l2));
      [reflexivity|].
    rewrite !length_skipn, H. reflexivity.
Qed.

Lemma wrapScan_map (f : ascii -> ascii) (pre post : gostring) (fuel : nat) :
  forall shadow line,
    map f (wrapScan fuel key pre post shadow line)
    = wrapScan fuel key (map f pre) (map f post) shadow (map f line).
Proof.
  induction fuel as [|fuel IH]; intros shadow line; cbn [wrapScan].
  - reflexivity.
  - destruct (strings.find shadow key) as [i|]; [|reflexivity].
    rewrite !map_app, IH.
    repeat (rewrite firstn_map || rewrite skipn_map). reflexivity.
Qed.

(** [strings.ReplaceAll] with a wrapped copy of the key is the scan of
    the line itself. *)
Lemma replace_loop_wrapScan (pre post : gostring) (fuel : nat) :
  forall s,
    strings.replace_loop fuel s key (pre ++ key ++ post)
    = wrapScan fuel key pre post s s.
Proof.
  induction fuel as [|fuel IH]; intros s; cbn [wrapScan strings.replace_loop].
  - reflexivity.
  - unfold strings.Index.
    destruct (strings.find s key) as [i|] eqn:F; [|reflexivity].
    destruct (Z.of_nat i <? 0) eqn:E; [apply Z.ltb_lt in E; lia|].
    rewrite Nat2Z.id.
    replace (Z.to_nat (Z.of_nat i + len key)) with (i + length key)%nat
      by (unfold len; lia).
    rewrite IH. rewrite <- !app_assoc. do 3 f_equal.
    destruct (find_Some _ _ _ F) as (a & b & -> & <-).
    rewrite skipn_app, skipn_all, Nat.sub_diag. simpl.
    rewrite firstn_app, firstn_all, Nat.sub_diag. simpl.
    rewrite app_nil_r. reflexivity.
Qed.

End Scan.

(** The loop of [highlightIgnoreCase] is the scan of the lowered line,
    when lowering keeps the lengths of the line and of the pattern. *)
Lemma highlightLoop_wrapScan
      (line pattern lowerLine lowerPattern : gostring) :
  length lowerLine = length line ->
  length lowerPattern = length pattern ->
  0 < len pattern ->
  forall (fuel : nat) (lastIndex : Z) (result : gostring),
    0 <= lastIndex -> lastIndex <= len line ->
    (Z.to_nat (len line - lastIndex) < fuel)%nat ->
    highlightLoop fuel line pattern lowerLine lowerPattern lastIndex result
    = Done (result
              ++ wrapScan fuel lowerPattern ColorRed ColorReset
                   (skipn (Z.to_nat lastIndex) lowerLine)
                   (skipn (Z.to_nat lastIndex) line)).
Proof.
  intros Hll Hlp Hp.
  induction fuel as [|fuel IH]; intros last result H0 H1 Hf; [lia|].
  cbn [highlightLoop wrapScan].
  rewrite (slice_from_ok lowerLine last) by (unfold len in *; lia).
  cbn [bind]. unfold strings.Index.
  destruct (strings.find (skipn (Z.to_nat last) lowerLine) lowerPattern)
    as [i|] eqn:F.
  - pose proof (find_bound _ _ _ F) as B. rewrite length_skipn in B.
    destruct (Z.of_nat i =? -1) eqn:E1; [apply Z.eqb_eq in E1; lia|].
    destruct (last + Z.of_nat i + len pattern >? len line) eqn:E2.
    { apply Z.gtb_lt in E2. unfold len in *. lia. }
    rewrite !slice_ok by (unfold len in *; lia). cbn [bind].
    rewrite IH by (unfold len in *; lia).
    replace (Z.to_nat (last + Z.of_nat i - last)) with i by lia.
    replace (Z.to_nat (last + Z.of_nat i + len pattern - (last + Z.of_nat i)))
      with (length lowerPattern) by (unfold len; lia).
    replace (skipn (Z.to_nat (last + Z.of_nat i)) line)
      with (skipn i (skipn (Z.to_nat last) line))
      by (rewrite skipn_skipn; f_equal; lia).
    replace (skipn (Z.to_nat (last + Z.of_nat i + len pattern)) line)
      with (skipn (i + length lowerPattern) (skipn (Z.to_nat last) line))
      by (rewrite skipn_skipn; f_equal; unfold len; lia).
    replace (skipn (Z.to_nat (last + Z.of_nat i + len pattern)) lowerLine)
      with (skipn (i + length lowerPattern) (skipn (Z.to_nat last) lowerLine))
      by (rewrite skipn_skipn; f_equal; unfold len; lia).
    rewrite <- !app_assoc. reflexivity.
  - cbn [Z.eqb]. rewrite slice_from_ok by lia. reflexivity.
Qed.

Lemma highlightIgnoreCase_emphasize
      (lowerRune : utf8.rune -> utf8.rune) (line pattern : gostring) :
  length (strings.ToLower lowerRune line) = length line ->
  length (strings.ToLower lowerRune pattern) = length pattern ->
  pattern <> [] ->
  highlightIgnoreCase lowerRune line pattern
  = Done (emphasize (strings.ToLower lowerRune pattern) ColorRed ColorReset
            (strings.ToLower lowerRune line) line).
Proof.
  intros Hl Hp Hne. unfold highlightIgnoreCase.
  assert (Hk : strings.ToLower lowerRune pattern <> []).
  { intros E. rewrite E in Hp. destruct pattern; [congruence | discriminate]. }
  assert (Hlen : (len pattern =? 0) = false).
  { apply Z.eqb_neq. destruct pattern; [congruence|]. unfold len. simpl. lia. }
  rewrite Hlen, orb_false_r.
  destruct (len line =? 0) eqn:E.
  - apply Z.eqb_eq in E. destruct line; [|unfold len in E; simpl in E; lia].
    destruct (strings.ToLower lowerRune []); [|discriminate].
    rewrite emphasize_no_match; auto using find_nil_key.
  - rewrite highlightLoop_wrapScan; auto; try (unfold len; lia).
    + unfold emphasize. rewrite Hl. reflexivity.
    + apply Z.eqb_neq in Hlen. pose proof (len_nonneg pattern). lia.
Qed.

(** *** A text that the key cannot reach across *)

Section Barrier.

Variable key : gostring.
Hypothesis key_nonempty : key <> [].

Variable B : gostring.
Hypothesis B_nonempty : B <> [].
Hypothesis B_apart : apart key B.

Lemma HasPrefix_barrier (x y : gostring) :
  strings.HasPrefix (x ++ B ++ y) key = strings.HasPrefix x key.
Proof.
  destruct (strings.HasPrefix x key) eqn:E.
  - apply HasPrefix_iff in E as [t ->]. rewrite <- app_assoc.
    apply HasPrefix_app.
  - destruct (strings.HasPrefix (x ++ B ++ y) key) eqn:E2; [|reflexivity].
    exfalso. apply HasPrefix_app_cases in E2 as [E2|(M2 & HM & Hne & E2)].
    + congruence.
    + destruct M2 as [|d M2]; [congruence|].
      destruct B as [|b B'] eqn:EB; [congruence|].
      simpl in E2. apply andb_true_iff in E2 as [E2 _].
      apply Ascii.eqb_eq in E2. subst d.
      apply (B_apart b).
      * rewrite HM. apply in_or_app. right. left. reflexivity.
      * left. reflexivity.
Qed.

Lemma find_behind_barrier (y : gostring) :
  forall B', (forall c, In c B' -> In c B) ->
    strings.find (B' ++ y) key
    = option_map (fun k => (length B' + k)%nat) (strings.find y key).
Proof.
  induction B' as [|b B' IH]; intros Hsub.
  - simpl. destruct (strings.find y key); reflexivity.
  - rewrite find_unfold.
    assert (E : strings.HasPrefix ((b :: B') ++ y) key = false).
    { destruct key as [|d key'] eqn:EK; [congruence|]. simpl.
      destruct (Ascii.eqb b d) eqn:Ebd; [|reflexivity].
      apply Ascii.eqb_eq in Ebd. subst d. exfalso.
      apply (B_apart b); [left; reflexivity|].
      apply Hsub. left. reflexivity. }
    rewrite E. simpl app. cbv iota.
    rewrite IH by (intros c Hc; apply Hsub; right; exact Hc).
    destruct (strings.find y key); reflexivity.
Qed.

Lemma find_barrier (x y : gostring) :
  strings.find (x ++ B ++ y) key
  = match strings.find x key with
    | Some i => Some i
    | None =>
        option_map (fun k => (length x + length B + k)%nat)
                   (strings.find y key)
    end.
Proof.
  induction x as [|c x IH].
  - rewrite (find_nil_key key key_nonempty). simpl app.
    apply find_behind_barrier. auto.
  - rewrite (find_unfold ((c :: x) ++ B ++ y)), (find_unfold (c :: x)).
    rewrite HasPrefix_barrier.
    destruct (strings.HasPrefix (c :: x) key); [reflexivity|].
    simpl app. cbv iota. rewrite IH.
    destruct (strings.find x key); [reflexivity|].
    destruct (strings.find y key); reflexivity.
Qed.

(** The scan goes through a barrier piece by piece. *)
Lemma emphasize_barrier (pre post : gostring) (n : nat) :
  forall x' x y' y,
    (length x' <= n)%nat -> length x' = length x ->
    emphasize key pre post (x' ++ B ++ y') (x ++ B ++ y)
    = emphasize key pre post x' x ++ B ++ emphasize key pre post y' y.
Proof.
  induction n as [|n IH]; intros x' x y' y Hn Hx.
  - destruct x'; [|simpl in Hn; lia]. destruct x; [|discriminate].
    rewrite (emphasize_no_match key key_nonempty pre post [] [])
      by (apply find_nil_key; exact key_nonempty).
    simpl app.
    rewrite (emphasize_unfold key key_nonempty pre post (B ++ y')).
    rewrite (find_behind_barrier y' B) by auto.
    rewrite (emphasize_unfold key key_nonempty pre post y').
    destruct (strings.find y' key) as [k|]; [|reflexivity].
    cbn [option_map].
    rewrite firstn_app_exact, !skipn_app_exact.
    replace (length B + k + length key)%nat
      with (length B + (k + length key))%nat by lia.
    rewrite !skipn_app_exact. rewrite <- !app_assoc. reflexivity.
  - rewrite (emphasize_unfold key key_nonempty pre post (x' ++ B ++ y')).
    rewrite find_barrier.
    rewrite (emphasize_unfold key key_nonempty pre post x').
    destruct (strings.find x' key) as [i|] eqn:F.
    + pose proof (find_bound _ _ _ F) as Bd.
      assert (length key <> O) by (destruct key; simpl; congruence).
      rewrite firstn_app_le by lia.
      rewrite !skipn_app_le by lia.
      rewrite firstn_app_le by (rewrite length_skipn; lia).
      rewrite IH by (rewrite !length_skipn; lia).
      rewrite <- !app_assoc. reflexivity.
    + rewrite (emphasize_unfold key key_nonempty pre post y').
      destruct (strings.find y' key) as [k|]; [|reflexivity].
      cbn [option_map]. rewrite Hx.
      replace (length x + length B + k)%nat
        with (length x + (length B + k))%nat by lia.
      replace (length x + (length B + k) + length key)%nat
        with (length x + (length B + (k + length key)))%nat by lia.
      rewrite !firstn_app_exact, !skipn_app_exact.
      rewrite <- Hx. rewrite !skipn_app_exact.
      rewrite <- !app_assoc. reflexivity.
Qed.

End Barrier.

Lemma find_Some_piece (s key : gostring) (i : nat) :
  strings.find s key = Some i -> firstn (length key) (skipn i s) = key.
Proof.
  intros F. destruct (find_Some _ _ _ F) as (a & b & -> & <-).
  rewrite skipn_app, skipn_all, Nat.sub_diag. simpl.
  rewrite firstn_app, firstn_all, Nat.sub_diag. simpl. apply app_nil_r.
Qed.

Section DoubleWrap.

Variables key pre post : gostring.
Hypothesis key_nonempty : key <> [].
Hypothesis pre_nonempty : pre <> [].
Hypothesis post_nonempty : post <> [].
Hypothesis pre_apart : apart key pre.
Hypothesis post_apart : apart key post.

Lemma emphasize_length (shadow l1 l2 : gostring) :
  length l1 = length l2 ->
  length (emphasize key pre post shadow l1)
  = length (emphasize key pre post shadow l2).
Proof. apply wrapScan_length. Qed.

Lemma emphasize_key (m : gostring) :
  length m = length key ->
  emphasize key pre post key m = pre ++ m ++ post.
Proof.
  intros Hm. rewrite emphasize_unfold by exact key_nonempty.
  rewrite find_self. simpl firstn. simpl skipn at 1. simpl plus.
  rewrite <- Hm at 1. rewrite firstn_all.
  rewrite skipn_all. rewrite skipn_all2 by lia.
  rewrite emphasize_no_match
    by (try apply find_nil_key; exact key_nonempty).
  rewrite !app_nil_r. reflexivity.
Qed.

(** Scanning the output of a scan wraps every piece a second time. *)
Lemma emphasize_twice (n : nat) :
  forall shadow line,
    (length shadow <= n)%nat -> length shadow = length line ->
    emphasize key pre post
      (emphasize key pre post shadow shadow)
      (emphasize key pre post shadow line)
    = emphasize key (pre ++ pre) (post ++ post) shadow line.
Proof.
  induction n as [|n IH]; intros shadow line Hn Hl.
  - destruct shadow; [|simpl in Hn; lia]. destruct line; [|discriminate].
    rewrite !emphasize_no_match;
      try exact key_nonempty; try reflexivity;
      rewrite ?emphasize_no_match;
      try exact key_nonempty; apply find_nil_key; exact key_nonempty.
  - rewrite (emphasize_unfold key key_nonempty pre post shadow shadow).
    rewrite (emphasize_unfold key key_nonempty pre post shadow line).
    rewrite (emphasize_unfold key key_nonempty (pre ++ pre) (post ++ post)
               shadow line).
    destruct (strings.find shadow key) as [i|] eqn:F.
    + pose proof (find_bound _ _ _ F) as Bd.
      assert (length key <> O) by (destruct key; simpl; congruence).
      rewrite (find_Some_piece _ _ _ F).
      rewrite (emphasize_barrier key key_nonempty pre pre_nonempty pre_apart
                 pre post (length (firstn i shadow)))
        by (rewrite ?length_firstn; lia).
      rewrite (emphasize_no_match key key_nonempty pre post
                 (firstn i shadow))
        by (apply find_firstn_None; assumption).
      rewrite (emphasize_barrier key key_nonempty post post_nonempty
                 post_apart pre post (length key))
        by (rewrite ?length_firstn, ?length_skipn; lia).
      rewrite emphasize_key by (rewrite length_firstn, length_skipn; lia).
      rewrite IH by (rewrite !length_skipn; lia).
      rewrite <- !app_assoc. reflexivity.
    + rewrite emphasize_no_match by assumption. reflexivity.
Qed.

End DoubleWrap.

(** *** Highlighting twice *)

Definition markerBytes : gostring := ColorRed ++ ColorReset.

(** No byte of the key is a byte of a marker. *)
Definition avoidsMarkers (key : gostring) : bool :=
  forallb (fun c => negb (existsb (Ascii.eqb c) markerBytes)) key.

Lemma avoidsMarkers_apart (key : gostring) :
  avoidsMarkers key = true -> apart key ColorRed /\ apart key ColorReset.
Proof.
  unfold avoidsMarkers. rewrite forallb_forall. intros H.
  assert (A : forall c, In c key -> ~ In c markerBytes).
  { intros c Hc Hm. specialize (H c Hc). apply negb_true_iff in H.
    assert (E : existsb (Ascii.eqb c) markerBytes = true).
    { apply existsb_exists. exists c. split; [exact Hm | apply Ascii.eqb_refl]. }
    congruence. }
  split; intros c Hc Hm; apply (A c Hc); unfold markerBytes;
    apply in_or_app; auto.
Qed.

Lemma ReplaceAll_emphasize (s key pre post : gostring) :
  key <> [] -> pre <> [] ->
  strings.ReplaceAll s key (pre ++ key ++ post) = emphasize key pre post s s.
Proof.
  intros Hk Hp. unfold strings.ReplaceAll.
  destruct (streq key (pre ++ key ++ post)) eqn:E.
  - apply streq_iff in E. apply (f_equal (@length ascii)) in E.
    rewrite !length_app in E. destruct pre; [congruence|]. simpl in E. lia.
  - destruct key as [|c key'] eqn:EK; [congruence|]. rewrite <- EK in *.
    rewrite replace_loop_wrapScan by (rewrite EK; discriminate).
    unfold emphasize. apply wrapScan_fuel; [rewrite EK; discriminate|lia|lia].
Qed.

Lemma isASCII_app (a b : gostring) :
  strings.isASCII (a ++ b) = strings.isASCII a && strings.isASCII b.
Proof. apply forallb_app. Qed.

Lemma isASCII_firstn (n : nat) (s : gostring) :
  strings.isASCII s = true -> strings.isASCII (firstn n s) = true.
Proof.
  rewrite <- (firstn_skipn n s) at 1. rewrite isASCII_app.
  intros H. apply andb_true_iff in H. tauto.
Qed.

Lemma isASCII_skipn (n : nat) (s : gostring) :
  strings.isASCII s = true -> strings.isASCII (skipn n s) = true.
Proof.
  rewrite <- (firstn_skipn n s) at 1. rewrite isASCII_app.
  intros H. apply andb_true_iff in H. tauto.
Qed.

Lemma isASCII_wrapScan (key pre post : gostring) (fuel : nat) :
  strings.isASCII pre = true -> strings.isASCII post = true ->
  forall shadow line,
    strings.isASCII line = true ->
    strings.isASCII (wrapScan fuel key pre post shadow line) = true.
Proof.
  intros Hpre Hpost.
  induction fuel as [|fuel IH]; intros shadow line Hl; cbn [wrapScan].
  - exact Hl.
  - destruct (strings.find shadow key) as [i|]; [|exact Hl].
    rewrite !isASCII_app, Hpre, Hpost.
    rewrite IH by (apply isASCII_skipn; exact Hl).
    rewrite !isASCII_firstn; auto using isASCII_skipn.
Qed.

(** The text scanned and the key: lowered in the case-insensitive mode. *)
Definition scanned (lowerRune : utf8.rune -> utf8.rune) (ignoreCase : bool)
           (s : gostring) : gostring :=
  if ignoreCase then strings.ToLower lowerRune s else s.

(** C8, as the code has it: the highlighter does not know its own
    markers.  For a line without markers and a non-empty pattern that
    shares no byte with the markers (the line and the pattern being ASCII
    in the case-insensitive mode), the first pass wraps the occurrences
    once, the second pass, run on that output with the same pattern and
    mode, wraps each of them a second time, and stripping the markers from
    the result gives the line back. *)
Theorem second_highlight_wraps_again
        (lowerRune : utf8.rune -> utf8.rune) (line pattern : gostring)
        (fixedStrings ignoreCase : bool) :
  pattern <> [] ->
  markerFree line ->
  (ignoreCase = true ->
   strings.isASCII line = true /\ strings.isASCII pattern = true) ->
  avoidsMarkers (scanned lowerRune ignoreCase pattern) = true ->
  exists out1 out2,
    highlightMatches lowerRune line pattern fixedStrings ignoreCase = Done out1
    /\ highlightMatches lowerRune out1 pattern fixedStrings ignoreCase
       = Done out2
    /\ out1 = emphasize (scanned lowerRune ignoreCase pattern)
                ColorRed ColorReset
                (scanned lowerRune ignoreCase line) line
    /\ out2 = emphasize (scanned lowerRune ignoreCase pattern)
                (ColorRed ++ ColorRed) (ColorReset ++ ColorReset)
                (scanned lowerRune ignoreCase line) line
    /\ stripMarkers out2 = line.
Proof.
  intros Hne Hfree Hascii Hav.
  destruct (avoidsMarkers_apart _ Hav) as [ARed AReset].
  assert (Hlen : (len pattern =? 0) = false).
  { apply Z.eqb_neq. destruct pattern; [congruence|]. unfold len. simpl. lia. }
  assert (Strip : forall key shadow,
             stripMarkers
               (emphasize key (ColorRed ++ ColorRed) (ColorReset ++ ColorReset)
                  shadow line) = line).
  { intros key shadow.
    apply (stripMarkers_Wrapped (ColorRed ++ ColorRed)
             (ColorReset ++ ColorReset)); auto.
    - apply run_red_more, run_red.
    - apply run_reset_more, run_reset.
    - apply wrapScan_Wrapped. }
  unfold highlightMatches. rewrite Hlen.
  destruct ignoreCase; unfold scanned in *.
  - destruct (Hascii eq_refl) as [Al Ap].
    set (key := strings.ToLower lowerRune pattern) in *.
    set (shadow := strings.ToLower lowerRune line) in *.
    assert (Kl : length key = length pattern).
    { unfold key. rewrite ToLower_ascii by exact Ap. apply length_map. }
    assert (Sl : length shadow = length line).
    { unfold shadow. rewrite ToLower_ascii by exact Al. apply length_map. }
    assert (Kne : key <> []).
    { intros E. rewrite E in Kl. destruct pattern; [congruence|discriminate]. }
    set (out1 := emphasize key ColorRed ColorReset shadow line).
    assert (A1 : strings.isASCII out1 = true).
    { apply isASCII_wrapScan; auto. }
    assert (L1 : strings.ToLower lowerRune out1
                 = emphasize key ColorRed ColorReset shadow shadow).
    { assert (Sh : map strings.lowerByte line = shadow)
        by (symmetry; apply ToLower_ascii; exact Al).
      rewrite ToLower_ascii by exact A1. unfold out1, emphasize.
      rewrite wrapScan_map, Sh. reflexivity. }
    exists out1,
      (emphasize key (ColorRed ++ ColorRed) (ColorReset ++ ColorReset)
         shadow line).
    split; [apply highlightIgnoreCase_emphasize; assumption|].
    split; [|auto].
    rewrite highlightIgnoreCase_emphasize; auto.
    + fold key. rewrite L1. f_equal.
      apply (emphasize_twice key ColorRed ColorReset Kne) with (n := length shadow);
        auto; discriminate.
    + rewrite L1. unfold out1. apply emphasize_length. exact Sl.
  - exists (emphasize pattern ColorRed ColorReset line line),
      (emphasize pattern (ColorRed ++ ColorRed) (ColorReset ++ ColorReset)
         line line).
    rewrite !ReplaceAll_emphasize by (auto; discriminate).
    split; [reflexivity|]. split; [|auto].
    f_equal.
    apply (emphasize_twice pattern ColorRed ColorReset Hne) with (n := length line);
      auto; discriminate.
Qed.

Lemma second_highlight_wraps_again_witness :
  str "foo" <> []
  /\ markerFreeb (str "Foo bar foo") = true
  /\ avoidsMarkers (scanned unicode_ToLower true (str "foo")) = true
  /\ exists out1 out2,
      highlightMatches unicode_ToLower (str "Foo bar foo") (str "foo")
        false true = Done out1
      /\ highlightMatches unicode_ToLower out1 (str "foo") false true
         = Done out2
      /\ out1 = emphasize (scanned unicode_ToLower true (str "foo"))
                  ColorRed ColorReset
                  (scanned unicode_ToLower true (str "Foo bar foo"))
                  (str "Foo bar foo")
      /\ out2 = emphasize (scanned unicode_ToLower true (str "foo"))
                  (ColorRed ++ ColorRed) (ColorReset ++ ColorReset)
                  (scanned unicode_ToLower true (str "Foo bar foo"))
                  (str "Foo bar foo")
      /\ stripMarkers out2 = str "Foo bar foo".
Proof.
  split; [discriminate|]. split; [reflexivity|]. split; [reflexivity|].
  apply (second_highlight_wraps_again unicode_ToLower
           (str "Foo bar foo") (str "foo") false true).
  - discriminate.
  - apply markerFreeb_iff. reflexivity.
  - intros _. split; reflexivity.
  - reflexivity.
Defined.

(** *** Occurrences that neither overlap nor touch *)

(** The offsets at which [p] starts in [s], counted from [i]. *)
Fixpoint occurrences (s p : gostring) (i : nat) : list nat :=
  match s with
  | [] => []
  | _ :: s' =>
      (if strings.HasPrefix s p then [i] else []) ++ occurrences s' p (S i)
  end.

(** Every start lies more than [n] behind the start before it. *)
Fixpoint spaced (n : nat) (starts : list nat) : bool :=
  match starts with
  | a :: ((b :: _) as rest) => Nat.ltb (a + n) b && spaced n rest
  | _ => true
  end.

(** The result of highlighting [line] and then the output again. *)
Definition highlightTwice (line pattern : gostring) (ignoreCase : bool)
  : exec gostring :=
  out1 <- highlightMatches unicode_ToLower line pattern false ignoreCase ;;
  highlightMatches unicode_ToLower out1 pattern false ignoreCase.

(** C8 as stated fails: in [foo bar foo] the occurrences of [foo]
    neither overlap nor touch, yet the second pass wraps each of them a
    second time, in both modes; and for the pattern [m], a byte of the
    markers, the second pass cuts the markers of the first apart, so that
    stripping the markers no longer gives the line [m] back. *)
Lemma second_highlight_double_wraps :
  (occurrences (str "m") (str "m") 0 = [0%nat]
   /\ exists out2,
       highlightTwice (str "m") (str "m") false = Done out2
       /\ stripMarkers out2 = ColorRed ++ str "m" ++ ColorReset)
  /\ occurrences (str "foo bar foo") (str "foo") 0 = [0%nat; 8%nat]
  /\ spaced 3 (occurrences (str "foo bar foo") (str "foo") 0) = true
  /\ (forall ignoreCase : bool,
         highlightMatches unicode_ToLower (str "foo bar foo") (str "foo")
           false ignoreCase
         = Done (ColorRed ++ str "foo" ++ ColorReset ++ str " bar "
                   ++ ColorRed ++ str "foo" ++ ColorReset)
         /\ highlightMatches unicode_ToLower
              (ColorRed ++ str "foo" ++ ColorReset ++ str " bar "
                 ++ ColorRed ++ str "foo" ++ ColorReset)
              (str "foo") false ignoreCase
            = Done (ColorRed ++ ColorRed ++ str "foo" ++ ColorReset
                      ++ ColorReset ++ str " bar "
                      ++ ColorRed ++ ColorRed ++ str "foo" ++ ColorReset
                      ++ ColorReset)).
Proof.
  split.
  { split; [reflexivity|]. eexists. split; reflexivity. }
  split; [reflexivity|]. split; [reflexivity|].
  intros [|]; split; reflexivity.
Qed.

(** *** The emphasised pieces, when lowering keeps the offsets *)

(** [out] is [line] with markers around some of its pieces, each of
    which satisfies [P]. *)
Inductive Emphasised (P : gostring -> Prop) : gostring -> gostring -> Prop :=
| Emphasised_tail t : Emphasised P t t
| Emphasised_span g m rest out :
    P m -> Emphasised P rest out ->
    Emphasised P (g ++ m ++ rest)
      (g ++ ColorRed ++ m ++ ColorReset ++ out).

Lemma Emphasised_weaken (P Q : gostring -> Prop) (line out : gostring) :
  (forall m, occurs_in m line -> P m -> Q m) ->
  Emphasised P line out -> Emphasised Q line out.
Proof.
  intros H E. induction E as [t|g m rest out Hm E IH].
  - constructor.
  - constructor.
    + apply H; [|exact Hm]. exists g, rest. reflexivity.
    + apply IH. intros m' Hin. apply H.
      rewrite app_assoc. apply occurs_in_app_r. exact Hin.
Qed.

Lemma wrapScan_pieces (f : ascii -> ascii) (key : gostring) (fuel : nat) :
  forall line,
    Emphasised (fun m => map f m = key) line
      (wrapScan fuel key ColorRed ColorReset (map f line) line).
Proof.
  induction fuel as [|fuel IH]; intros line; cbn [wrapScan].
  - constructor.
  - destruct (strings.find (map f line) key) as [i|] eqn:F; [|constructor].
    rewrite (split_three line i (length key)) at 1.
    constructor.
    + rewrite <- firstn_map, <- skipn_map. exact (find_Some_piece _ _ _ F).
    + rewrite skipn_map. apply IH.
Qed.

(** On an ASCII line and pattern the case-insensitive highlighter
    returns, and every piece it emphasises is cut from the line as read
    and equals the pattern up to case. *)
Lemma highlightIgnoreCase_ascii
      (lowerRune : utf8.rune -> utf8.rune) (line pattern : gostring) :
  strings.isASCII line = true -> strings.isASCII pattern = true ->
  pattern <> [] ->
  exists out,
    highlightIgnoreCase lowerRune line pattern = Done out
    /\ Emphasised
         (fun m => strings.ToLower lowerRune m
                   = strings.ToLower lowerRune pattern)
         line out.
Proof.
  intros Al Ap Hne.
  rewrite highlightIgnoreCase_emphasize; auto;
    try (rewrite ToLower_ascii by assumption; apply length_map).
  eexists. split; [reflexivity|].
  rewrite (ToLower_ascii lowerRune line Al). unfold emphasize.
  apply Emphasised_weaken
    with (P := fun m => map strings.lowerByte m
                        = strings.ToLower lowerRune pattern);
    [|apply wrapScan_pieces].
  intros m (a & b & Hm) E. rewrite <- E. apply ToLower_ascii.
  rewrite Hm, !isASCII_app in Al.
  apply andb_true_iff in Al as [_ Al]. apply andb_true_iff in Al as [Al _].
  exact Al.
Qed.

(** * Further properties of the walk, the scan and the filters *)

(** ** The walk over any callback *)

Section WalkOutcomes.

Variable fn : gostring -> bool -> bool -> run werr.

Lemma walkNames_skip (child : node) (rest : list node) (err : werr) :
  walk fn child = ([], Done err) -> stops child err = false ->
  walkNames fn (child :: rest) = walkNames fn rest.
Proof.
  intros H1 H2. simpl. rewrite H1.
  change ([], Done err) with (@ret werr err). rewrite rbind_ret, H2.
  reflexivity.
Qed.

Lemma walkNames_stop (child : node) (rest : list node) (out : run werr) :
  walk fn child = out -> snd out = Panic \/ snd out = Timeout
  \/ (exists err, snd out = Done err /\ stops child err = true) ->
  walkNames fn (child :: rest) = out.
Proof.
  intros <- H. simpl. unfold rbind.
  destruct (walk fn child) as [evs [err| |]]; simpl in *.
  - destruct H as [H|[H|(err' & H & Hs)]]; try discriminate.
    injection H as <-. rewrite Hs. simpl. rewrite app_nil_r. reflexivity.
  - reflexivity.
  - reflexivity.
Qed.

(** What a walk ends with, other than a plain return of [nil] or
    [SkipDir], is what one call of the callback ended with, and the events
    of that call are among the events of the walk. *)
Lemma walk_outcome_origin (n : node) (x : exec werr) :
  x = Panic \/ x = Timeout \/ x = Done ErrOther ->
  snd (walk fn n) = x ->
  exists path isDir err,
    snd (fn path isDir err) = x
    /\ forall e, In e (fst (fn path isDir err)) -> In e (fst (walk fn n)).
Proof.
  intros Hx.
  induction n as [path|path|path readErr children IH] using node_induction.
  - simpl. intros H. exists path, false, true. auto.
  - simpl. intros H. exists path, false, false. auto.
  - rewrite walk_Directory. unfold rbind at 1.
    destruct (fn path true readErr) as [ev1 r1] eqn:E1. simpl fst. simpl snd.
    assert (Here : r1 = x ->
              exists path0 isDir err,
                snd (fn path0 isDir err) = x
                /\ forall e, In e (fst (fn path0 isDir err)) ->
                             In e (ev1 ++ [])).
    { intros ->. exists path, true, readErr. rewrite E1. simpl.
      split; [reflexivity|]. intros e He. rewrite app_nil_r. exact He. }
    destruct r1 as [err1| |]; simpl.
    + destruct (readErr || negb (is_nil err1)) eqn:Eb.
      * simpl. intros H. destruct (Here H) as (p & d & r & H1 & H2).
        exists p, d, r. split; [exact H1|]. exact H2.
      * clear Here. intros H.
        assert (N : exists path0 isDir err,
                   snd (fn path0 isDir err) = x
                   /\ forall e, In e (fst (fn path0 isDir err)) ->
                                In e (fst (walkNames fn children))).
        { clear E1 Eb. revert H.
          induction IH as [|child names Hc _ IHn]; simpl.
          - intros <-. destruct Hx as [Hx|[Hx|Hx]]; discriminate.
          - unfold rbind.
            destruct (walk fn child) as [evc [errc| |]] eqn:Ec; simpl in *.
            + destruct (stops child errc).
              * simpl. intros H. destruct (Hc H) as (p & d & r & H1 & H2).
                exists p, d, r. split; [exact H1|].
                intros e He. apply in_or_app. left. auto.
              * intros H. destruct (IHn H) as (p & d & r & H1 & H2).
                exists p, d, r. split; [exact H1|].
                intros e He. apply in_or_app. right. auto.
            + intros H. destruct (Hc H) as (p & d & r & H1 & H2).
              exists p, d, r. split; [exact H1|]. auto.
            + intros H. destruct (Hc H) as (p & d & r & H1 & H2).
              exists p, d, r. split; [exact H1|]. auto. }
        destruct N as (p & d & r & H1 & H2).
        exists p, d, r. split; [exact H1|].
        intros e He. apply in_or_app. right. auto.
    + intros H. destruct (Here H) as (p & d & r & H1 & H2).
      exists p, d, r. split; [exact H1|].
      intros e He. specialize (H2 e He). rewrite app_nil_r in H2. exact H2.
    + intros H. destruct (Here H) as (p & d & r & H1 & H2).
      exists p, d, r. split; [exact H1|].
      intros e He. specialize (H2 e He). rewrite app_nil_r in H2. exact H2.
Qed.

Lemma Walk_outcome (root : node) :
  snd (Walk fn root)
  = match snd (walk fn root) with
    | Done SkipDir => Done ErrNil
    | r => r
    end.
Proof.
  unfold Walk, rbind.
  destruct (walk fn root) as [evs [[| |]| |]]; reflexivity.
Qed.

Lemma Walk_events (root : node) : fst (Walk fn root) = fst (walk fn root).
Proof.
  unfold Walk, rbind.
  destruct (walk fn root) as [evs [err| |]]; simpl; rewrite ?app_nil_r;
    reflexivity.
Qed.

End WalkOutcomes.

Lemma rbind_snd {A B : Type} (m : run A) (k : A -> run B) :
  snd (rbind m k)
  = match snd m with
    | Done v => snd (k v)
    | Panic => Panic
    | Timeout => Timeout
    end.
Proof. unfold rbind. destruct (snd m); reflexivity. Qed.

Lemma rbind_fst_Done {A B : Type} (m : run A) (k : A -> run B) (v : A) :
  snd m = Done v -> fst (rbind m k) = fst m ++ fst (k v).
Proof. intros H. unfold rbind. rewrite H. reflexivity. Qed.

(** ** What a scan prints and how it ends *)

Section ScanOutcomes.

Variable lowerRune : utf8.rune -> utf8.rune.

Lemma highlightMatches_no_Timeout (line pattern : gostring)
      (fixedStrings ignoreCase : bool) :
  highlightMatches lowerRune line pattern fixedStrings ignoreCase <> Timeout.
Proof.
  unfold highlightMatches. destruct (len pattern =? 0); [discriminate|].
  destruct ignoreCase; [apply highlightIgnoreCase_no_Timeout | discriminate].
Qed.

Lemma printMatch_no_Timeout (filename : gostring) (lineNum : Z)
      (line : gostring) (config : Config) :
  printMatch lowerRune filename lineNum line config <> Timeout.
Proof.
  unfold printMatch.
  destruct (color config).
  - pose proof (highlightMatches_no_Timeout line (pattern config)
                  (fixedStrings config) (ignoreCase config)) as H.
    destruct (highlightMatches lowerRune line (pattern config)
                (fixedStrings config) (ignoreCase config));
      cbn [bind]; try congruence; try discriminate.
    match goal with
    | |- context [match ?parts with [] => _ | _ :: _ => _ end] =>
        destruct parts; discriminate
    end.
  - cbn [bind].
    match goal with
    | |- context [match ?parts with [] => _ | _ :: _ => _ end] =>
        destruct parts; discriminate
    end.
Qed.

Lemma printMatch_returns (filename : gostring) (lineNum : Z)
      (line : gostring) (config : Config) :
  color config = false \/ ignoreCase config = false ->
  exists out, printMatch lowerRune filename lineNum line config = Done out.
Proof.
  intros H. unfold printMatch.
  assert (D : exists d,
             (if color config
              then highlightMatches lowerRune line (pattern config)
                     (fixedStrings config) (ignoreCase config)
              else Done line) = Done d).
  { destruct (color config); [|eauto].
    destruct H as [H|H]; [discriminate|].
    unfold highlightMatches. rewrite H.
    destruct (len (pattern config) =? 0); eauto. }
  destruct D as [d ->]. cbn [bind].
  match goal with
  | |- context [match ?parts with [] => _ | _ :: _ => _ end] =>
      destruct parts; eauto
  end.
Qed.

Lemma scanLoop_no_Timeout (filename : gostring) (config : Config)
      (todo : list gostring) :
  forall lineNum,
    snd (scanLoop lowerRune filename config lineNum todo) <> Timeout.
Proof.
  induction todo as [|text todo IH]; intros lineNum.
  - discriminate.
  - rewrite scanLoop_cons, rbind_snd.
    destruct (matchesPattern lowerRune (shownLine text) (pattern config)
                (fixedStrings config) (ignoreCase config)).
    + rewrite rbind_snd. unfold lift. cbn [snd].
      pose proof (printMatch_no_Timeout filename (lineNum + 1)
                    (shownLine text) config) as H.
      destruct (printMatch lowerRune filename (lineNum + 1) (shownLine text)
                  config); cbn [emit snd]; [apply IH | discriminate | congruence].
    + cbn [ret snd]. apply IH.
Qed.

Lemma scanLoop_returns (filename : gostring) (config : Config)
      (todo : list gostring) :
  color config = false \/ ignoreCase config = false ->
  forall lineNum,
    snd (scanLoop lowerRune filename config lineNum todo) = Done tt.
Proof.
  intros H. induction todo as [|text todo IH]; intros lineNum.
  - reflexivity.
  - rewrite scanLoop_cons, rbind_snd.
    destruct (matchesPattern lowerRune (shownLine text) (pattern config)
                (fixedStrings config) (ignoreCase config)).
    + rewrite rbind_snd. unfold lift. cbn [snd].
      destruct (printMatch_returns filename (lineNum + 1) (shownLine text)
                  config H) as [out ->].
      cbn [emit snd]. apply IH.
    + cbn [ret snd]. apply IH.
Qed.

(** Every record printed is the record of a line that matches, numbered
    by its place among the lines read. *)
Lemma scanLoop_prints_sound (filename : gostring) (config : Config)
      (todo : list gostring) :
  forall lineNum out,
    In (EvPrint out) (fst (scanLoop lowerRune filename config lineNum todo)) ->
    exists i text,
      nth_error todo i = Some text
      /\ matchesPattern lowerRune (shownLine text) (pattern config)
           (fixedStrings config) (ignoreCase config) = true
      /\ printMatch lowerRune filename (lineNum + Z.of_nat i + 1)
           (shownLine text) config = Done out.
Proof.
  induction todo as [|text todo IH]; intros lineNum out H.
  - destruct H.
  - rewrite scanLoop_cons in H.
    apply rbind_fst_incl in H as [H|(u & _ & H)].
    + destruct (matchesPattern lowerRune (shownLine text) (pattern config)
                  (fixedStrings config) (ignoreCase config)) eqn:M;
        [|destruct H].
      apply rbind_fst_incl in H as [H|(o & Ho & H)]; [destruct H|].
      destruct H as [H|[]]. injection H as <-.
      exists O, text. unfold lift in Ho. cbn [snd] in Ho.
      repeat split; auto.
      replace (lineNum + Z.of_nat 0 + 1) with (lineNum + 1) by lia. exact Ho.
    + apply IH in H as (i & t & H1 & H2 & H3).
      exists (S i), t. repeat split; auto.
      replace (lineNum + Z.of_nat (S i) + 1)
        with (lineNum + 1 + Z.of_nat i + 1) by lia.
      exact H3.
Qed.

(** When the scan runs to its end, every line that matches has its
    record printed. *)
Lemma scanLoop_prints_complete (filename : gostring) (config : Config)
      (todo : list gostring) :
  forall lineNum i text,
    snd (scanLoop lowerRune filename config lineNum todo) = Done tt ->
    nth_error todo i = Some text ->
    matchesPattern lowerRune (shownLine text) (pattern config)
      (fixedStrings config) (ignoreCase config) = true ->
    exists out,
      printMatch lowerRune filename (lineNum + Z.of_nat i + 1)
        (shownLine text) config = Done out
      /\ In (EvPrint out)
           (fst (scanLoop lowerRune filename config lineNum todo)).
Proof.
  induction todo as [|text todo IH]; intros lineNum i t D Hn M.
  - destruct i; discriminate.
  - rewrite scanLoop_cons in D |- *. rewrite rbind_snd in D.
    set (first := if matchesPattern lowerRune (shownLine text)
                       (pattern config) (fixedStrings config)
                       (ignoreCase config)
                  then out <-- lift (printMatch lowerRune filename
                                       (lineNum + 1) (shownLine text) config) ;;
                       emit (EvPrint out)
                  else ret tt) in *.
    destruct (snd first) as [[]| |] eqn:F; try discriminate.
    rewrite (rbind_fst_Done first _ tt F).
    destruct i as [|i]; simpl in Hn.
    + injection Hn as ->. subst first. rewrite M in F |- *.
      rewrite rbind_snd in F. unfold lift in F |- *. cbn [snd] in F.
      destruct (printMatch lowerRune filename (lineNum + 1) (shownLine t)
                  config) as [out| |] eqn:P; try discriminate.
      exists out. split.
      * replace (lineNum + Z.of_nat 0 + 1) with (lineNum + 1) by lia.
        exact P.
      * apply in_or_app. left.
        rewrite (rbind_fst_Done _ _ out) by reflexivity.
        simpl. auto.
    + destruct (IH (lineNum + 1) i t D Hn M) as (out & P & Hin).
      exists out. split.
      * replace (lineNum + Z.of_nat (S i) + 1)
          with (lineNum + 1 + Z.of_nat i + 1) by lia.
        exact P.
      * apply in_or_app. right. exact Hin.
Qed.

End ScanOutcomes.

Section WalkOrder.

Variable fn : gostring -> bool -> bool -> run werr.

(** Every event of a walk comes from one call of the callback, all of
    whose events are events of the walk. *)
Lemma walk_events_from_call (n : node) (e : event) :
  In e (fst (walk fn n)) ->
  exists path isDir err,
    In e (fst (fn path isDir err))
    /\ forall e', In e' (fst (fn path isDir err)) -> In e' (fst (walk fn n)).
Proof.
  induction n as [path|path|path readErr children IH] using node_induction.
  - simpl. intros H. exists path, false, true. auto.
  - simpl. intros H. exists path, false, false. auto.
  - rewrite walk_Directory. unfold rbind at 1 2.
    destruct (fn path true readErr) as [ev1 r1] eqn:E1. simpl fst. simpl snd.
    assert (Here : In e ev1 ->
              exists path0 isDir err,
                In e (fst (fn path0 isDir err))
                /\ forall e', In e' (fst (fn path0 isDir err)) -> In e' ev1).
    { intros H. exists path, true, readErr. rewrite E1. auto. }
    destruct r1 as [err1| |]; simpl.
    + rewrite in_app_iff. intros [H|H].
      * destruct (Here H) as (p & d & r & H1 & H2).
        exists p, d, r. split; [exact H1|].
        intros e' He'. apply in_or_app. left. auto.
      * destruct (readErr || negb (is_nil err1)); [destruct H|].
        assert (N : exists path0 isDir err,
                   In e (fst (fn path0 isDir err))
                   /\ forall e', In e' (fst (fn path0 isDir err)) ->
                                 In e' (fst (walkNames fn children))).
        { clear E1 Here. revert H.
          induction IH as [|child names Hc _ IHn]; simpl; [intros []|].
          unfold rbind.
          destruct (walk fn child) as [evc [errc| |]] eqn:Ec; simpl in *.
          - rewrite in_app_iff.
            intros [H|H].
            + destruct (Hc H) as (p & d & r & H1 & H2).
              exists p, d, r. split; [exact H1|].
              intros e' He'. apply in_or_app. left. auto.
            + destruct (stops child errc); [destruct H|].
              destruct (IHn H) as (p & d & r & H1 & H2).
              exists p, d, r. split; [exact H1|].
              intros e' He'. apply in_or_app. right. auto.
          - intros H. destruct (Hc H) as (p & d & r & H1 & H2).
            exists p, d, r. split; [exact H1|]. auto.
          - intros H. destruct (Hc H) as (p & d & r & H1 & H2).
            exists p, d, r. split; [exact H1|]. auto. }
        destruct N as (p & d & r & H1 & H2).
        exists p, d, r. split; [exact H1|].
        intros e' He'. apply in_or_app. right. auto.
    + exact Here.
    + exact Here.
Qed.


End WalkOrder.

(** ** The search as a whole *)

(** The names of the directories that are never entered. *)
Definition builtinIgnored : list gostring :=
  str ".git" :: str ".idea" :: ignoreDirs.

Lemma existsb_streq (x : gostring) (l : list gostring) :
  existsb (fun y => streq x y) l = true <-> In x l.
Proof.
  rewrite existsb_exists. split.
  - intros (y & Hy & E). apply streq_iff in E. subst. exact Hy.
  - intros H. exists x. split; [exact H | apply streq_refl].
Qed.

Lemma shouldIgnoreDirectory_iff (path basePath : gostring) :
  shouldIgnoreDirectory path basePath = true
  <-> In (filepath.Base path) builtinIgnored.
Proof.
  unfold shouldIgnoreDirectory, builtinIgnored.
  destruct (streq (filepath.Base path) (str ".git")) eqn:E1.
  { apply streq_iff in E1. simpl orb. cbv iota. rewrite E1.
    split; [left; reflexivity | reflexivity]. }
  destruct (streq (filepath.Base path) (str ".idea")) eqn:E2.
  { apply streq_iff in E2. simpl orb. cbv iota. rewrite E2.
    split; [right; left; reflexivity | reflexivity]. }
  simpl orb. cbv iota. rewrite existsb_streq.
  split; [intros H; right; right; exact H|].
  intros [H|[H|H]]; [| |exact H].
  - rewrite <- H, streq_refl in E1. discriminate.
  - rewrite <- H, streq_refl in E2. discriminate.
Qed.

Section SearchOutcomes.

Variable lowerRune : utf8.rune -> utf8.rune.
Variable Rel : gostring -> gostring -> option gostring.
Variable Join : gostring -> gostring -> gostring.
Variable TrimSpace : gostring -> gostring.
Variable open : gostring -> option OpenedFile.

Local Abbreviation walkFn' := (walkFn lowerRune Rel open).
Local Abbreviation search' := (search lowerRune Rel Join TrimSpace open).
Local Abbreviation searchInFile' := (searchInFile lowerRune open).

Lemma search_is_Walk (config : Config) (root : node) :
  exists gf, search' config root = Walk (walkFn' config gf) root.
Proof.
  unfold search. destruct (respectGitignore config); [|eauto].
  destruct (loadGitignoreFilter Join TrimSpace open (searchPath config))
    as [f [|]]; eauto.
Qed.

Lemma searchInFile_snd (filename : gostring) (config : Config) :
  snd (searchInFile' filename config)
  = match open filename with
    | None => Done ErrNil
    | Some file =>
        if isBinaryFile file then Done ErrNil
        else match snd (scanLoop lowerRune filename config 0 (tokens file)) with
             | Done _ => Done (if scanErr file then ErrOther else ErrNil)
             | Panic => Panic
             | Timeout => Timeout
             end
    end.
Proof.
  unfold searchInFile. rewrite rbind_snd. cbn [emit snd].
  destruct (open filename) as [file|]; [|reflexivity].
  destruct (isBinaryFile file); [reflexivity|].
  rewrite rbind_snd.
  destruct (snd (scanLoop lowerRune filename config 0 (tokens file)));
    reflexivity.
Qed.

Lemma searchInFile_fst (filename : gostring) (config : Config) (e : event) :
  In e (fst (searchInFile' filename config)) ->
  e = EvOpen filename
  \/ exists file,
      open filename = Some file /\ isBinaryFile file = false
      /\ In e (fst (scanLoop lowerRune filename config 0 (tokens file))).
Proof.
  unfold searchInFile. rewrite rbind_emit_fst. intros [H|H]; [auto|].
  right. destruct (open filename) as [file|]; [|destruct H].
  destruct (isBinaryFile file) eqn:B; [destruct H|].
  exists file. repeat split; auto.
  apply rbind_fst_incl in H as [H|(u & _ & H)]; [exact H | destruct H].
Qed.

(** The callback ends otherwise than by a plain return only in the scan
    of a file that passed every check. *)
Lemma walkFn_outcome (config : Config) (gf : option GitignoreFilter)
      (path : gostring) (isDir err : bool) (x : exec werr) :
  x = Panic \/ x = Timeout \/ x = Done ErrOther ->
  snd (walkFn' config gf path isDir err) = x ->
  walkFn' config gf path isDir err = searchInFile' path config.
Proof.
  intros Hx. unfold walkFn.
  destruct err.
  { simpl. intros <-. destruct Hx as [H|[H|H]]; discriminate. }
  destruct isDir.
  - destruct (shouldIgnoreDirectory path (searchPath config));
      [simpl; intros <-; destruct Hx as [H|[H|H]]; discriminate|].
    destruct (negb (hidden config) && isHidden path);
      [simpl; intros <-; destruct Hx as [H|[H|H]]; discriminate|].
    destruct (shouldIgnore Rel gf path);
      simpl; intros <-; destruct Hx as [H|[H|H]]; discriminate.
  - destruct (negb (hidden config) && isHidden path);
      [simpl; intros <-; destruct Hx as [H|[H|H]]; discriminate|].
    destruct (shouldIgnore Rel gf path);
      [simpl; intros <-; destruct Hx as [H|[H|H]]; discriminate|].
    destruct (isBinaryFileByExtension lowerRune path);
      [simpl; intros <-; destruct Hx as [H|[H|H]]; discriminate|].
    reflexivity.
Qed.

End SearchOutcomes.

Lemma walk_dir_left
      (fn : gostring -> bool -> bool -> run werr)
      (path : gostring) (readErr : bool) (children : list node) (err : werr) :
  fn path true readErr = ([], Done err) ->
  readErr || negb (is_nil err) = true ->
  walk fn (Directory path readErr children) = ([], Done err).
Proof.
  intros H1 H2. rewrite walk_Directory, H1.
  change ([], Done err) with (@ret werr err). rewrite rbind_ret, H2.
  reflexivity.
Qed.

Lemma walk_dir_entered
      (fn : gostring -> bool -> bool -> run werr)
      (path : gostring) (children : list node) :
  fn path true false = ([], Done ErrNil) ->
  walk fn (Directory path false children) = walkNames fn children.
Proof.
  intros H1. rewrite walk_Directory, H1.
  change ([], Done ErrNil) with (@ret werr ErrNil). rewrite rbind_ret.
  reflexivity.
Qed.

(** X1: a directory whose name is on the built-in list ([.git], [.idea],
    [node_modules], [build], ...) is never entered, whatever the flags and
    the ignore rules: as the search root it gives an empty search that
    ends without error, and inside a tree the walk goes on with the
    entries behind it as if it were not there. *)
Theorem builtin_directories_never_entered
        (lowerRune : utf8.rune -> utf8.rune)
        (Rel : gostring -> gostring -> option gostring)
        (Join : gostring -> gostring -> gostring)
        (TrimSpace : gostring -> gostring)
        (open : gostring -> option OpenedFile)
        (config : Config) (path : gostring) (readErr : bool)
        (children : list node) :
  In (filepath.Base path) builtinIgnored ->
  search lowerRune Rel Join TrimSpace open config
    (Directory path readErr children) = ([], Done ErrNil)
  /\ forall gf rest,
      walkNames (walkFn lowerRune Rel open config gf)
        (Directory path readErr children :: rest)
      = walkNames (walkFn lowerRune Rel open config gf) rest.
Proof.
  intros Hin.
  apply (shouldIgnoreDirectory_iff path (searchPath config)) in Hin.
  assert (W : forall gf,
             exists err,
               walk (walkFn lowerRune Rel open config gf)
                 (Directory path readErr children) = ([], Done err)
               /\ is_other err = false).
  { intros gf. destruct readErr.
    - exists ErrNil. split; [|reflexivity].
      apply walk_dir_left; reflexivity.
    - exists SkipDir. split; [|reflexivity].
      apply walk_dir_left; [|reflexivity].
      unfold walkFn. rewrite Hin. reflexivity. }
  split.
  - destruct (search_is_Walk lowerRune Rel Join TrimSpace open config
                (Directory path readErr children)) as [gf ->].
    destruct (W gf) as (err & E & Ho). unfold Walk. rewrite E.
    change ([], Done err) with (@ret werr err). rewrite rbind_ret.
    destruct err; [reflexivity | reflexivity | discriminate].
  - intros gf rest. destruct (W gf) as (err & E & Ho).
    apply (walkNames_skip _ _ rest err E). exact Ho.
Qed.

(** X2: with [hidden] unset, a search path whose last element starts
    with a dot (the current directory given as [.], the parent given as
    [..]) gives an empty search that ends without error, for a directory
    and for a file. *)
Theorem hidden_search_path_finds_nothing
        (lowerRune : utf8.rune -> utf8.rune)
        (Rel : gostring -> gostring -> option gostring)
        (Join : gostring -> gostring -> gostring)
        (TrimSpace : gostring -> gostring)
        (open : gostring -> option OpenedFile)
        (config : Config) (path : gostring) :
  hidden config = false -> isHidden path = true ->
  (forall readErr children,
      search lowerRune Rel Join TrimSpace open config
        (Directory path readErr children) = ([], Done ErrNil))
  /\ search lowerRune Rel Join TrimSpace open config (Regular path)
     = ([], Done ErrNil).
Proof.
  intros Hh Hp. split.
  - intros readErr children.
    destruct (search_is_Walk lowerRune Rel Join TrimSpace open config
                (Directory path readErr children)) as [gf ->].
    assert (W : exists err,
               walk (walkFn lowerRune Rel open config gf)
                 (Directory path readErr children) = ([], Done err)
               /\ is_other err = false).
    { destruct readErr.
      - exists ErrNil. split; [|reflexivity].
        apply walk_dir_left; reflexivity.
      - exists SkipDir. split; [|reflexivity].
        apply walk_dir_left; [|reflexivity].
        unfold walkFn. rewrite Hh, Hp.
        destruct (shouldIgnoreDirectory path (searchPath config));
          reflexivity. }
    destruct W as (err & E & Ho). unfold Walk. rewrite E.
    change ([], Done err) with (@ret werr err). rewrite rbind_ret.
    destruct err; [reflexivity | reflexivity | discriminate].
  - destruct (search_is_Walk lowerRune Rel Join TrimSpace open config
                (Regular path)) as [gf ->].
    unfold Walk, walk, walkFn. rewrite Hh, Hp. reflexivity.
Qed.

Lemma hidden_search_path_finds_nothing_witness :
  hidden (exampleConfig false false) = false
  /\ isHidden (str ".") = true
  /\ search unicode_ToLower exampleRel exampleJoin (fun s => s) exampleOpen
       (exampleConfig false false)
       (Directory (str ".") false [Regular (str "a.txt")])
     = ([], Done ErrNil).
Proof.
  split; [reflexivity|]. split; [reflexivity|].
  apply (proj1 (hidden_search_path_finds_nothing unicode_ToLower exampleRel
                  exampleJoin (fun s => s) exampleOpen
                  (exampleConfig false false) (str ".") eq_refl eq_refl)).
Defined.

Lemma builtin_directories_never_entered_witness :
  In (filepath.Base (str "root/node_modules")) builtinIgnored
  /\ search unicode_ToLower exampleRel exampleJoin (fun s => s) exampleOpen
       (exampleConfig true false)
       (Directory (str "root/node_modules") false
          [Regular (str "root/node_modules/a.txt")])
     = ([], Done ErrNil).
Proof.
  assert (H : In (filepath.Base (str "root/node_modules")) builtinIgnored).
  { right. right. right. right. right. left. reflexivity. }
  split; [exact H|].
  apply (proj1 (builtin_directories_never_entered unicode_ToLower exampleRel
                  exampleJoin (fun s => s) exampleOpen
                  (exampleConfig true false) (str "root/node_modules") false
                  [Regular (str "root/node_modules/a.txt")] H)).
Defined.

(** X3: errors of the traversal are swallowed.  A search path whose
    [Lstat] fails gives an empty search that ends without error; inside a
    tree, an entry whose [Lstat] fails and a directory whose names cannot
    be read are passed over, and the walk goes on with the entries behind
    them. *)
Theorem traversal_errors_are_swallowed
        (lowerRune : utf8.rune -> utf8.rune)
        (Rel : gostring -> gostring -> option gostring)
        (Join : gostring -> gostring -> gostring)
        (TrimSpace : gostring -> gostring)
        (open : gostring -> option OpenedFile)
        (config : Config) (path : gostring) :
  search lowerRune Rel Join TrimSpace open config (Missing path)
  = ([], Done ErrNil)
  /\ (forall children,
         search lowerRune Rel Join TrimSpace open config
           (Directory path true children) = ([], Done ErrNil))
  /\ (forall gf rest,
         walkNames (walkFn lowerRune Rel open config gf) (Missing path :: rest)
         = walkNames (walkFn lowerRune Rel open config gf) rest)
  /\ (forall gf children rest,
         walkNames (walkFn lowerRune Rel open config gf)
           (Directory path true children :: rest)
         = walkNames (walkFn lowerRune Rel open config gf) rest).
Proof.
  split.
  { destruct (search_is_Walk lowerRune Rel Join TrimSpace open config
                (Missing path)) as [gf ->]. reflexivity. }
  split.
  { intros children.
    destruct (search_is_Walk lowerRune Rel Join TrimSpace open config
                (Directory path true children)) as [gf ->].
    unfold Walk. rewrite (walk_dir_left _ path true children ErrNil);
      reflexivity. }
  split.
  - intros gf rest. apply (walkNames_skip _ _ rest ErrNil); reflexivity.
  - intros gf children rest.
    apply (walkNames_skip _ _ rest ErrNil); [|reflexivity].
    apply walk_dir_left; reflexivity.
Qed.


(** X5: the error a search returns is the error of a scanner.  A search
    that returns ends with [nil], or with an error, and then one of the
    files it opened was read as text and its scanner ended with an
    error. *)
Theorem search_error_comes_from_a_scan
        (lowerRune : utf8.rune -> utf8.rune)
        (Rel : gostring -> gostring -> option gostring)
        (Join : gostring -> gostring -> gostring)
        (TrimSpace : gostring -> gostring)
        (open : gostring -> option OpenedFile)
        (config : Config) (root : node) (err : werr) :
  snd (search lowerRune Rel Join TrimSpace open config root) = Done err ->
  err = ErrNil
  \/ (err = ErrOther
      /\ exists f file,
          In f (candidates
                  (fst (search lowerRune Rel Join TrimSpace open config root)))
          /\ open f = Some file /\ isBinaryFile file = false
          /\ scanErr file = true).
Proof.
  destruct (search_is_Walk lowerRune Rel Join TrimSpace open config root)
    as [gf ->].
  rewrite Walk_outcome, Walk_candidates.
  destruct (snd (walk (walkFn lowerRune Rel open config gf) root))
    as [[| |]| |] eqn:E; try discriminate.
  - intros [= <-]. left. reflexivity.
  - intros [= <-]. left. reflexivity.
  - intros [= <-]. right. split; [reflexivity|].
    apply walk_outcome_origin in E as (p & d & r & E & Hin); [|auto].
    pose proof (walkFn_outcome lowerRune Rel open config gf p d r
                  (Done ErrOther) (or_intror (or_intror eq_refl)) E) as W.
    rewrite W in E, Hin. rewrite searchInFile_snd in E.
    destruct (open p) as [file|] eqn:Ho; [|discriminate].
    destruct (isBinaryFile file) eqn:Hb; [discriminate|].
    exists p, file. repeat split; auto.
    + apply In_candidates. apply Hin. unfold searchInFile.
      rewrite rbind_emit_fst. left. reflexivity.
    + destruct (snd (scanLoop lowerRune p config 0 (tokens file)));
        try discriminate.
      destruct (scanErr file); [reflexivity | discriminate].
Qed.

(** X6: a search never runs out of steps, and it panics only with both
    [color] and [ignoreCase] set: with one of them unset it returns, with
    [nil] or with the error of a scanner. *)
Theorem search_returns_without_color_or_ignoreCase
        (lowerRune : utf8.rune -> utf8.rune)
        (Rel : gostring -> gostring -> option gostring)
        (Join : gostring -> gostring -> gostring)
        (TrimSpace : gostring -> gostring)
        (open : gostring -> option OpenedFile)
        (config : Config) (root : node) :
  snd (search lowerRune Rel Join TrimSpace open config root) <> Timeout
  /\ (color config = false \/ ignoreCase config = false ->
      snd (search lowerRune Rel Join TrimSpace open config root) = Done ErrNil
      \/ snd (search lowerRune Rel Join TrimSpace open config root)
         = Done ErrOther).
Proof.
  destruct (search_is_Walk lowerRune Rel Join TrimSpace open config root)
    as [gf ->].
  rewrite Walk_outcome.
  assert (T : snd (walk (walkFn lowerRune Rel open config gf) root)
              <> Timeout).
  { intros E.
    apply walk_outcome_origin in E as (p & d & r & E & _); [|auto].
    pose proof (walkFn_outcome lowerRune Rel open config gf p d r
                  Timeout (or_intror (or_introl eq_refl)) E) as W.
    rewrite W, searchInFile_snd in E.
    destruct (open p) as [file|]; [|discriminate].
    destruct (isBinaryFile file); [discriminate|].
    pose proof (scanLoop_no_Timeout lowerRune p config (tokens file) 0) as N.
    destruct (snd (scanLoop lowerRune p config 0 (tokens file)));
      [discriminate | discriminate | congruence]. }
  split.
  - destruct (snd (walk (walkFn lowerRune Rel open config gf) root))
      as [[| |]| |]; congruence.
  - intros Hc.
    assert (P : snd (walk (walkFn lowerRune Rel open config gf) root)
                <> Panic).
    { intros E.
      apply walk_outcome_origin in E as (p & d & r & E & _); [|auto].
      pose proof (walkFn_outcome lowerRune Rel open config gf p d r
                    Panic (or_introl eq_refl) E) as W.
      rewrite W, searchInFile_snd in E.
      destruct (open p) as [file|]; [|discriminate].
      destruct (isBinaryFile file); [discriminate|].
      rewrite (scanLoop_returns lowerRune p config (tokens file) Hc 0) in E.
      discriminate. }
    destruct (snd (walk (walkFn lowerRune Rel open config gf) root))
      as [[| |]| |]; auto; congruence.
Qed.

(** X7: every file the walk hands to the scan passed all three checks
    of the callback: it is not hidden unless [hidden] is set, no rule of
    the ignore filter matches it, and its extension is not one of the
    binary extensions. *)
Theorem candidates_pass_every_check
        (lowerRune : utf8.rune -> utf8.rune)
        (Rel : gostring -> gostring -> option gostring)
        (open : gostring -> option OpenedFile)
        (config : Config) (gf : option GitignoreFilter) (root : node)
        (f : gostring) :
  In f (candidates (fst (Walk (walkFn lowerRune Rel open config gf) root))) ->
  (hidden config = true \/ isHidden f = false)
  /\ shouldIgnore Rel gf f = false
  /\ isBinaryFileByExtension lowerRune f = false.
Proof.
  rewrite Walk_candidates. intros H.
  apply walk_candidates in H as (H1 & H2 & H3).
  repeat split; auto.
  destruct (hidden config); [left; reflexivity | right; exact H1].
Qed.

(** X8: every record a search prints is the record of a line that
    matches: the line is one of the lines of a file the search opened and
    did not take for binary, the matcher answers true on that line as it
    is shown, and the record carries the place of the line in the file,
    counted from 1. *)
Theorem printed_records_are_matches
        (lowerRune : utf8.rune -> utf8.rune)
        (Rel : gostring -> gostring -> option gostring)
        (Join : gostring -> gostring -> gostring)
        (TrimSpace : gostring -> gostring)
        (open : gostring -> option OpenedFile)
        (config : Config) (root : node) (out : gostring) :
  In out (printed (fst (search lowerRune Rel Join TrimSpace open config root)))
  ->
  exists f file i text,
    In f (candidates
            (fst (search lowerRune Rel Join TrimSpace open config root)))
    /\ open f = Some file /\ isBinaryFile file = false
    /\ nth_error (tokens file) i = Some text
    /\ matchesPattern lowerRune (shownLine text) (pattern config)
         (fixedStrings config) (ignoreCase config) = true
    /\ printMatch lowerRune f (Z.of_nat i + 1) (shownLine text) config
       = Done out.
Proof.
  destruct (search_is_Walk lowerRune Rel Join TrimSpace open config root)
    as [gf ->].
  rewrite Walk_candidates, Walk_events. intros H.
  assert (E : In (EvPrint out)
                (fst (walk (walkFn lowerRune Rel open config gf) root))).
  { unfold printed in H. apply in_flat_map in H as ([g|t] & Hin & Ht);
      simpl in Ht; [destruct Ht|]. destruct Ht as [->|[]]. exact Hin. }
  apply walk_events_from_call in E as (p & d & r & E & Hin).
  assert (W : walkFn lowerRune Rel open config gf p d r
              = searchInFile lowerRune open p config).
  { revert E. unfold walkFn.
    destruct r; [intros []|]. destruct d.
    - destruct (shouldIgnoreDirectory p (searchPath config)); [intros []|].
      destruct (negb (hidden config) && isHidden p); [intros []|].
      destruct (shouldIgnore Rel gf p); intros [].
    - destruct (negb (hidden config) && isHidden p); [intros []|].
      destruct (shouldIgnore Rel gf p); [intros []|].
      destruct (isBinaryFileByExtension lowerRune p); [intros []|].
      reflexivity. }
  rewrite W in E, Hin.
  apply searchInFile_fst in E as [E|(file & Ho & Hb & E)]; [discriminate|].
  apply scanLoop_prints_sound in E as (i & text & H1 & H2 & H3).
  exists p, file, i, text. repeat split; auto.
  apply In_candidates. apply Hin. unfold searchInFile.
  rewrite rbind_emit_fst. left. reflexivity.
Qed.

(** X9: line numbers count every line.  When [color] or [ignoreCase] is
    unset, the scan of a file that opens and is not taken for binary
    prints exactly the records of its matching lines: a record is printed
    if and only if it is the record of a line that matches, numbered by
    the place of the line in the file, counted from 1, whether the lines
    before it matched or not. *)
Theorem line_numbers_count_every_line
        (lowerRune : utf8.rune -> utf8.rune)
        (open : gostring -> option OpenedFile)
        (config : Config) (f : gostring) (file : OpenedFile)
        (out : gostring) :
  color config = false \/ ignoreCase config = false ->
  open f = Some file -> isBinaryFile file = false ->
  (In (EvPrint out) (fst (searchInFile lowerRune open f config))
   <-> exists i text,
        nth_error (tokens file) i = Some text
        /\ matchesPattern lowerRune (shownLine text) (pattern config)
             (fixedStrings config) (ignoreCase config) = true
        /\ printMatch lowerRune f (Z.of_nat i + 1) (shownLine text) config
           = Done out).
Proof.
  intros Hc Ho Hb. split.
  - intros H.
    apply searchInFile_fst in H as [H|(file' & Ho' & _ & H)]; [discriminate|].
    rewrite Ho in Ho'. injection Ho' as <-.
    apply scanLoop_prints_sound in H. exact H.
  - intros (i & text & H1 & H2 & H3).
    destruct (scanLoop_prints_complete lowerRune f config (tokens file) 0 i
                text (scanLoop_returns lowerRune f config (tokens file) Hc 0)
                H1 H2) as (out' & P & Hin).
    simpl in P. rewrite H3 in P. injection P as <-.
    unfold searchInFile. rewrite rbind_emit_fst, Ho, Hb. right.
    rewrite (rbind_fst_Done _ _ tt)
      by (apply scanLoop_returns; exact Hc).
    apply in_or_app. left. exact Hin.
Qed.

(** *** A tree with a file whose scanner fails *)

Definition brokenFile : OpenedFile :=
  {| firstRead := Some (str "foo" ++ [byte 10]);
     tokens := [str "foo"];
     scanErr := true |}.

Definition brokenOpen (path : gostring) : option OpenedFile :=
  if streq path (str "root/a.txt") then Some brokenFile
  else if streq path (str "root/b.txt") then
    Some {| firstRead := Some (str "foo" ++ [byte 10]);
            tokens := [str "foo"];
            scanErr := false |}
  else None.

Definition brokenTree : node :=
  Directory (str "root") false
    [Regular (str "root/a.txt"); Regular (str "root/b.txt")].

Example search_stops_at_broken_file :
  search unicode_ToLower exampleRel exampleJoin (fun s => s) brokenOpen
    (exampleConfig false false) brokenTree
  = ([EvOpen (str "root/a.txt");
      EvPrint (str "root/a.txt:1:foo" ++ [byte 10])], Done ErrOther).
Proof. vm_compute. reflexivity. Qed.


Lemma search_error_comes_from_a_scan_witness :
  ErrOther = ErrNil
  \/ (ErrOther = ErrOther
      /\ exists f file,
          In f (candidates
                  (fst (search unicode_ToLower exampleRel exampleJoin
                          (fun s => s) brokenOpen (exampleConfig false false)
                          brokenTree)))
          /\ brokenOpen f = Some file /\ isBinaryFile file = false
          /\ scanErr file = true).
Proof.
  apply (search_error_comes_from_a_scan unicode_ToLower exampleRel
           exampleJoin (fun s => s) brokenOpen (exampleConfig false false)
           brokenTree ErrOther).
  vm_compute. reflexivity.
Defined.

Lemma candidates_pass_every_check_witness :
  (hidden (exampleConfig false false) = true
   \/ isHidden (str "root/a.txt") = false)
  /\ shouldIgnore exampleRel None (str "root/a.txt") = false
  /\ isBinaryFileByExtension unicode_ToLower (str "root/a.txt") = false.
Proof.
  apply (candidates_pass_every_check unicode_ToLower exampleRel exampleOpen
           (exampleConfig false false) None exampleTree (str "root/a.txt")).
  vm_compute. left. reflexivity.
Defined.

Lemma printed_records_are_matches_witness :
  exists f file i text,
    In f (candidates (fst (exampleSearch false false)))
    /\ exampleOpen f = Some file /\ isBinaryFile file = false
    /\ nth_error (tokens file) i = Some text
    /\ matchesPattern unicode_ToLower (shownLine text)
         (pattern (exampleConfig false false))
         (fixedStrings (exampleConfig false false))
         (ignoreCase (exampleConfig false false)) = true
    /\ printMatch unicode_ToLower f (Z.of_nat i + 1) (shownLine text)
         (exampleConfig false false)
       = Done (str "root/a.txt:1:foo" ++ [byte 10]).
Proof.
  apply (printed_records_are_matches unicode_ToLower exampleRel exampleJoin
           (fun s => s) exampleOpen (exampleConfig false false) exampleTree
           (str "root/a.txt:1:foo" ++ [byte 10])).
  vm_compute. left. reflexivity.
Defined.

Lemma line_numbers_count_every_line_witness :
  In (EvPrint (str "root/b.txt:2:foo" ++ [byte 10]))
    (fst (searchInFile unicode_ToLower
            (fun _ => Some {| firstRead := Some (str "bar");
                              tokens := [str "bar"; str "foo"];
                              scanErr := false |})
            (str "root/b.txt") (exampleConfig false false)))
  <-> exists i text,
      nth_error [str "bar"; str "foo"] i = Some text
      /\ matchesPattern unicode_ToLower (shownLine text) (str "foo")
           false false = true
      /\ printMatch unicode_ToLower (str "root/b.txt") (Z.of_nat i + 1)
           (shownLine text) (exampleConfig false false)
         = Done (str "root/b.txt:2:foo" ++ [byte 10]).
Proof.
  apply (line_numbers_count_every_line unicode_ToLower
           (fun _ => Some {| firstRead := Some (str "bar");
                             tokens := [str "bar"; str "foo"];
                             scanErr := false |})
           (exampleConfig false false) (str "root/b.txt")
           {| firstRead := Some (str "bar");
              tokens := [str "bar"; str "foo"];
              scanErr := false |}
           (str "root/b.txt:2:foo" ++ [byte 10])
           (or_introl eq_refl) eq_refl eq_refl).
Defined.

(** *** Flags the program parses and never reads *)

(** [config] with other values of [fixedStrings] and [noHeading]. *)
Definition withUnreadFlags (fs nh : bool) (config : Config) : Config :=
  {| fixedStrings := fs; hidden := hidden config; noHeading := nh;
     lineNumber := lineNumber config; withFilename := withFilename config;
     color := color config; ignoreCase := ignoreCase config;
     respectGitignore := respectGitignore config;
     pattern := pattern config; searchPath := searchPath config |}.

Section UnreadFlags.

Variable lowerRune : utf8.rune -> utf8.rune.
Variables fs nh : bool.
Variable config : Config.

Lemma matchesPattern_flag (line pat : gostring) (a b ic : bool) :
  matchesPattern lowerRune line pat a ic
  = matchesPattern lowerRune line pat b ic.
Proof. unfold matchesPattern. destruct a, b; reflexivity. Qed.

Lemma highlightMatches_flag (line pat : gostring) (a b ic : bool) :
  highlightMatches lowerRune line pat a ic
  = highlightMatches lowerRune line pat b ic.
Proof. reflexivity. Qed.

Lemma printMatch_flags (filename : gostring) (lineNum : Z) (line : gostring) :
  printMatch lowerRune filename lineNum line (withUnreadFlags fs nh config)
  = printMatch lowerRune filename lineNum line config.
Proof. reflexivity. Qed.

Lemma scanLoop_flags (filename : gostring) (todo : list gostring) :
  forall lineNum,
    scanLoop lowerRune filename (withUnreadFlags fs nh config) lineNum todo
    = scanLoop lowerRune filename config lineNum todo.
Proof.
  induction todo as [|text todo IH]; intros lineNum; [reflexivity|].
  rewrite !scanLoop_cons, IH.
  cbn [pattern fixedStrings ignoreCase withUnreadFlags].
  rewrite (matchesPattern_flag _ _ fs (fixedStrings config)).
  rewrite printMatch_flags. reflexivity.
Qed.

End UnreadFlags.

(** X10: the flags [fixed-strings] and [no-heading] are parsed and never
    change what the program does: a search with any values of the two
    opens the same files, prints the same bytes and ends the same way. *)
Theorem unread_flags_change_nothing
        (lowerRune : utf8.rune -> utf8.rune)
        (Rel : gostring -> gostring -> option gostring)
        (Join : gostring -> gostring -> gostring)
        (TrimSpace : gostring -> gostring)
        (open : gostring -> option OpenedFile)
        (fs nh : bool) (config : Config) (root : node) :
  search lowerRune Rel Join TrimSpace open (withUnreadFlags fs nh config) root
  = search lowerRune Rel Join TrimSpace open config root.
Proof.
  unfold search. cbn [respectGitignore searchPath withUnreadFlags].
  apply Walk_ext. intros path isDir err. unfold walkFn.
  cbn [hidden searchPath withUnreadFlags].
  assert (S : searchInFile lowerRune open path (withUnreadFlags fs nh config)
              = searchInFile lowerRune open path config).
  { unfold searchInFile. destruct (open path) as [file|]; [|reflexivity].
    rewrite scanLoop_flags. reflexivity. }
  rewrite S. reflexivity.
Qed.

(** *** The rules of the ignore filter *)

Lemma existsb_same_members {A : Type} (p : A -> bool) (l1 l2 : list A) :
  (forall x, In x l1 <-> In x l2) -> existsb p l1 = existsb p l2.
Proof.
  intros H. apply eq_true_iff_eq. rewrite !existsb_exists.
  split; intros (x & Hx & Px); exists x; split; auto; apply H; exact Hx.
Qed.

Lemma shouldIgnore_existsb
      (Rel : gostring -> gostring -> option gostring)
      (f : GitignoreFilter) (path : gostring) :
  shouldIgnore Rel (Some f) path
  = match Rel (basePath f) path with
    | None => false
    | Some relPath =>
        existsb (matchGitignorePattern relPath) (patterns f)
    end.
Proof.
  unfold shouldIgnore. destruct (patterns f); [|reflexivity].
  destruct (Rel (basePath f) path); reflexivity.
Qed.

(** X11: the rules of the filter are a set.  Two filters with the same
    base path whose lists hold the same rules, in whatever order and
    however often, ignore the same paths: no rule can take back what
    another rule ignores. *)
Theorem ignore_rules_are_a_set
        (Rel : gostring -> gostring -> option gostring)
        (f g : GitignoreFilter) (path : gostring) :
  basePath f = basePath g ->
  (forall rule, In rule (patterns f) <-> In rule (patterns g)) ->
  shouldIgnore Rel (Some f) path = shouldIgnore Rel (Some g) path.
Proof.
  intros Hb Hp. rewrite !shouldIgnore_existsb, Hb.
  destruct (Rel (basePath g) path) as [relPath|]; [|reflexivity].
  apply existsb_same_members. exact Hp.
Qed.

Lemma ignore_rules_are_a_set_witness :
  shouldIgnore exampleRel
    (Some {| patterns := [str "*.log"; str "tmp"]; basePath := str "root" |})
    (str "root/tmp/x")
  = shouldIgnore exampleRel
      (Some {| patterns := [str "tmp"; str "*.log"; str "tmp"];
               basePath := str "root" |})
      (str "root/tmp/x").
Proof.
  apply (ignore_rules_are_a_set exampleRel
           {| patterns := [str "*.log"; str "tmp"]; basePath := str "root" |}
           {| patterns := [str "tmp"; str "*.log"; str "tmp"];
              basePath := str "root" |}
           (str "root/tmp/x") eq_refl).
  intros rule. simpl. tauto.
Defined.

(** A rule that starts with [!], behind one leading [/] if there is
    one. *)
Definition isNegation (rule : gostring) : bool :=
  strings.HasPrefix (strings.TrimPrefix rule (str "/")) (str "!").

Lemma existsb_filter {A : Type} (p keep : A -> bool) (l : list A) :
  (forall x, keep x = false -> p x = false) ->
  existsb p (filter keep l) = existsb p l.
Proof.
  intros H. induction l as [|x l IH]; [reflexivity|]. simpl.
  destruct (keep x) eqn:K; simpl; rewrite IH; [reflexivity|].
  rewrite (H x K). reflexivity.
Qed.

(** X12: rules of negation do nothing.  A rule that starts with [!]
    matches no path, and a filter ignores the same paths with and without
    its rules of negation: a path that another rule ignores stays ignored,
    whatever [!] rule follows. *)
Theorem negation_rules_are_inert :
  (forall path rule,
      isNegation rule = true -> matchGitignorePattern path rule = false)
  /\ (forall (Rel : gostring -> gostring -> option gostring)
             (rules : list gostring) (base path : gostring),
         shouldIgnore Rel
           (Some {| patterns := filter (fun r => negb (isNegation r)) rules;
                    basePath := base |}) path
         = shouldIgnore Rel
             (Some {| patterns := rules; basePath := base |}) path).
Proof.
  assert (N : forall path rule,
             isNegation rule = true -> matchGitignorePattern path rule = false).
  { intros path rule H. unfold matchGitignorePattern.
    unfold isNegation in H. rewrite H. reflexivity. }
  split; [exact N|].
  intros Rel rules base path. rewrite !shouldIgnore_existsb.
  cbn [patterns basePath].
  destruct (Rel base path) as [relPath|]; [|reflexivity].
  apply existsb_filter. intros r K. apply N.
  destruct (isNegation r); [reflexivity | discriminate].
Qed.

Example negation_does_not_keep :
  shouldIgnore exampleRel
    (Some {| patterns := [str "*.log"; str "!keep.log"];
             basePath := str "root" |})
    (str "root/keep.log") = true.
Proof. vm_compute. reflexivity. Qed.

(** *** [filepath.Base] gives a piece of the path *)

Lemma takeWhile_dropWhile (p : ascii -> bool) (s : gostring) :
  filepath.takeWhile p s ++ filepath.dropWhile p s = s.
Proof.
  induction s as [|c s IH]; [reflexivity|]. simpl.
  destruct (p c); [simpl; rewrite IH|]; reflexivity.
Qed.

Lemma dropWhile_head (p : ascii -> bool) (s : gostring) (c : ascii)
      (t : gostring) :
  filepath.dropWhile p s = c :: t -> p c = false.
Proof.
  induction s as [|d s IH]; simpl; [discriminate|].
  destruct (p d) eqn:E; [exact IH|]. intros [= <- _]. exact E.
Qed.

Lemma dropWhile_nil (p : ascii -> bool) (s : gostring) :
  filepath.dropWhile p s = [] -> forallb p s = true.
Proof.
  induction s as [|d s IH]; simpl; [reflexivity|].
  destruct (p d); [exact IH | discriminate].
Qed.

Lemma takeWhile_nil (p : ascii -> bool) (s : gostring) :
  filepath.takeWhile p s = [] ->
  s = [] \/ exists c t, s = c :: t /\ p c = false.
Proof.
  destruct s as [|c s]; [left; reflexivity|]. simpl.
  destruct (p c) eqn:E; [discriminate|]. right. eauto.
Qed.

Lemma isSep_slash (c : ascii) : filepath.isSep c = true -> c = "/"%char.
Proof. unfold filepath.isSep. apply Ascii.eqb_eq. Qed.

Lemma Base_occurs (path : gostring) :
  path <> [] -> occurs_in (filepath.Base path) path.
Proof.
  intros Hne. unfold filepath.Base.
  destruct path as [|c0 path0]; [congruence|].
  set (path := c0 :: path0) in *.
  set (stripped := filepath.dropWhile filepath.isSep (rev path)).
  set (tw := filepath.takeWhile (fun c => negb (filepath.isSep c)) stripped).
  assert (D : path
              = rev (filepath.dropWhile (fun c => negb (filepath.isSep c))
                       stripped)
                ++ rev tw
                ++ rev (filepath.takeWhile filepath.isSep (rev path))).
  { rewrite <- (rev_involutive path) at 1.
    rewrite <- (takeWhile_dropWhile filepath.isSep (rev path)) at 1.
    fold stripped.
    rewrite <- (takeWhile_dropWhile (fun c => negb (filepath.isSep c))
                  stripped) at 1.
    fold tw. rewrite !rev_app_distr, <- app_assoc. reflexivity. }
  destruct (rev tw) as [|b base] eqn:Eb.
  - assert (Etw : tw = []).
    { rewrite <- (rev_involutive tw), Eb. reflexivity. }
    apply takeWhile_nil in Etw as [Es|(c & t & Es & Hc)].
    + apply dropWhile_nil in Es.
      destruct (rev path) as [|c r] eqn:Er.
      { apply (f_equal (@rev ascii)) in Er. rewrite rev_involutive in Er.
        discriminate. }
      simpl in Es. apply andb_true_iff in Es as [Hc _].
      apply isSep_slash in Hc. subst c.
      exists (rev r), []. rewrite <- (rev_involutive path), Er. reflexivity.
    + apply dropWhile_head in Es. rewrite Es in Hc. discriminate.
  - eexists _, _. exact D.
Qed.

(** X13: a rule without [*] is a test for a piece of the path, nothing
    more.  For a rule that is no rule of negation and that ends with [/]
    or holds no [*], a path that is not empty matches if and only if the
    rule, less one leading and one trailing [/], occurs somewhere in the
    path; the comparison with the last element of the path that ends the
    function never decides. *)
Theorem plain_rules_test_for_a_piece
        (path rule : gostring) :
  path <> [] ->
  isNegation rule = false ->
  strings.HasSuffix (strings.TrimPrefix rule (str "/")) (str "/") = true
  \/ strings.Contains (strings.TrimPrefix rule (str "/")) (str "*") = false ->
  matchGitignorePattern path rule
  = strings.Contains path
      (strings.TrimSuffix (strings.TrimPrefix rule (str "/")) (str "/")).
Proof.
  intros Hne Hn Hs. unfold matchGitignorePattern.
  unfold isNegation in Hn. rewrite Hn.
  destruct (strings.HasSuffix (strings.TrimPrefix rule (str "/")) (str "/"))
    eqn:E; [reflexivity|].
  destruct Hs as [Hs|Hs]; [discriminate|]. rewrite Hs.
  unfold strings.TrimSuffix. rewrite E.
  destruct (strings.Contains path (strings.TrimPrefix rule (str "/")))
    eqn:C; [reflexivity|].
  destruct (streq (filepath.Base path) (strings.TrimPrefix rule (str "/")))
    eqn:S; [|reflexivity].
  apply streq_iff in S. pose proof (Base_occurs path Hne) as O.
  rewrite S in O. apply Contains_iff in O. congruence.
Qed.

Lemma plain_rules_test_for_a_piece_witness :
  matchGitignorePattern (str "data/readme.txt") (str "/ad/")
  = strings.Contains (str "data/readme.txt") (str "ad").
Proof.
  apply (plain_rules_test_for_a_piece (str "data/readme.txt") (str "/ad/")).
  - discriminate.
  - reflexivity.
  - left. reflexivity.
Defined.

(** *** What is loaded from the ignore file *)

Lemma loaded_rules
      (Join : gostring -> gostring -> gostring)
      (TrimSpace : gostring -> gostring)
      (open : gostring -> option OpenedFile)
      (searchPath rule : gostring) :
  In rule (patterns (fst (loadGitignoreFilter Join TrimSpace open searchPath)))
  <-> exists file line,
      open (Join searchPath (str ".gitignore")) = Some file
      /\ In line (tokens file)
      /\ rule = TrimSpace line
      /\ skipLine rule = false.
Proof.
  unfold loadGitignoreFilter.
  destruct (open (Join searchPath (str ".gitignore"))) as [file|].
  - cbn [fst patterns]. rewrite filter_In, in_map_iff, negb_true_iff. split.
    + intros ((line & E & Hin) & Hs). exists file, line. auto.
    + intros (file' & line & [= <-] & Hin & E & Hs). split; [|exact Hs].
      exists line. auto.
  - cbn [fst patterns]. split; [intros [] | intros (f & l & H & _)].
    discriminate.
Qed.

(** X14: an ignore file that holds only blank lines and comments is as
    good as none.  The rules loaded are the trimmed lines that are not
    empty and do not start with [#]; when the file has no such line, the
    search is the walk without a filter, whether reading the file ended
    with an error or not. *)
Theorem blank_ignore_file_filters_nothing
        (lowerRune : utf8.rune -> utf8.rune)
        (Rel : gostring -> gostring -> option gostring)
        (Join : gostring -> gostring -> gostring)
        (TrimSpace : gostring -> gostring)
        (open : gostring -> option OpenedFile)
        (config : Config) (file : OpenedFile) (root : node) :
  open (Join (searchPath config) (str ".gitignore")) = Some file ->
  (forall line, In line (tokens file) ->
                TrimSpace line = []
                \/ strings.HasPrefix (TrimSpace line) (str "#") = true) ->
  search lowerRune Rel Join TrimSpace open config root
  = Walk (walkFn lowerRune Rel open config None) root.
Proof.
  intros Ho Hl. unfold search.
  destruct (respectGitignore config); [|reflexivity].
  destruct (loadGitignoreFilter Join TrimSpace open (searchPath config))
    as [filter err] eqn:L.
  destruct err; [reflexivity|].
  apply Walk_ext. apply walkFn_filter_ext. intros path.
  assert (P : patterns filter = []).
  { destruct (patterns filter) as [|rule rules] eqn:P; [reflexivity|].
    assert (Hin : In rule
                    (patterns (fst (loadGitignoreFilter Join TrimSpace open
                                      (searchPath config))))).
    { rewrite L. cbn [fst]. rewrite P. left. reflexivity. }
    apply loaded_rules in Hin as (file' & line & Ho' & Hin & -> & Hs).
    rewrite Ho in Ho'. injection Ho' as <-.
    unfold skipLine in Hs. apply orb_false_iff in Hs as [H1 H2].
    destruct (Hl line Hin) as [E|E].
    - rewrite E in H1. discriminate.
    - congruence. }
  unfold shouldIgnore. rewrite P. reflexivity.
Qed.

Definition commentedOpen (path : gostring) : option OpenedFile :=
  if streq path (str "root/.gitignore") then
    Some {| firstRead := Some (str "# nothing");
            tokens := [str "# nothing"; str ""];
            scanErr := false |}
  else exampleOpen path.

Lemma blank_ignore_file_filters_nothing_witness :
  search unicode_ToLower exampleRel exampleJoin (fun s => s) commentedOpen
    (exampleConfig false false) exampleTree
  = Walk (walkFn unicode_ToLower exampleRel commentedOpen
            (exampleConfig false false) None) exampleTree.
Proof.
  apply (blank_ignore_file_filters_nothing unicode_ToLower exampleRel
           exampleJoin (fun s => s) commentedOpen (exampleConfig false false)
           {| firstRead := Some (str "# nothing");
              tokens := [str "# nothing"; str ""];
              scanErr := false |} exampleTree eq_refl).
  intros line [<-|[<-|[]]]; [right | left]; reflexivity.
Defined.

(** *** The extension check and the case of letters *)

Lemma lowerByte_isSep (c : ascii) :
  filepath.isSep (strings.lowerByte c) = filepath.isSep c.
Proof. destruct c as [[] [] [] [] [] [] [] []]; reflexivity. Qed.

Lemma lowerByte_dot (c : ascii) :
  Ascii.eqb (strings.lowerByte c) "."%char = Ascii.eqb c "."%char.
Proof. destruct c as [[] [] [] [] [] [] [] []]; reflexivity. Qed.

Lemma ext_scan_lower (r : gostring) :
  forall acc,
    filepath.ext_scan (map strings.lowerByte r) (map strings.lowerByte acc)
    = map strings.lowerByte (filepath.ext_scan r acc).
Proof.
  induction r as [|c r IH]; intros acc; [reflexivity|].
  cbn [map filepath.ext_scan]. rewrite lowerByte_isSep, lowerByte_dot.
  destruct (filepath.isSep c); [reflexivity|].
  destruct (Ascii.eqb c "."%char); [reflexivity|].
  apply (IH (c :: acc)).
Qed.

Lemma Ext_lower (s : gostring) :
  filepath.Ext (map strings.lowerByte s)
  = map strings.lowerByte (filepath.Ext s).
Proof.
  unfold filepath.Ext. rewrite <- map_rev. apply (ext_scan_lower (rev s) []).
Qed.

Lemma ext_scan_forallb (p : ascii -> bool) (r : gostring) :
  forall acc,
    forallb p r = true -> forallb p acc = true ->
    forallb p (filepath.ext_scan r acc) = true.
Proof.
  induction r as [|c r IH]; intros acc Hr Ha; [reflexivity|].
  simpl in Hr. apply andb_true_iff in Hr as [Hc Hr]. cbn [filepath.ext_scan].
  destruct (filepath.isSep c); [reflexivity|].
  destruct (Ascii.eqb c "."%char).
  - simpl. rewrite Hc, Ha. reflexivity.
  - apply IH; [exact Hr|]. simpl. rewrite Hc, Ha. reflexivity.
Qed.

Lemma isASCII_Ext (s : gostring) :
  strings.isASCII s = true -> strings.isASCII (filepath.Ext s) = true.
Proof.
  unfold strings.isASCII, filepath.Ext. intros H.
  apply ext_scan_forallb; [|reflexivity].
  rewrite forallb_forall in *. intros c Hc. apply H, in_rev, Hc.
Qed.

(** X15: the extension check does not see the case of ASCII letters.
    Two ASCII file names that differ in the case of their letters only are
    both taken for binary or both not: [photo.JPG] is skipped as
    [photo.jpg] is. *)
Theorem binary_extension_ignores_ascii_case
        (lowerRune : utf8.rune -> utf8.rune) (a b : gostring) :
  strings.isASCII a = true -> strings.isASCII b = true ->
  map strings.lowerByte a = map strings.lowerByte b ->
  isBinaryFileByExtension lowerRune a = isBinaryFileByExtension lowerRune b.
Proof.
  intros Ha Hb E. unfold isBinaryFileByExtension.
  rewrite !ToLower_ascii by (apply isASCII_Ext; assumption).
  rewrite <- !Ext_lower, E. reflexivity.
Qed.

Lemma binary_extension_ignores_ascii_case_witness :
  isBinaryFileByExtension unicode_ToLower (str "Photo.JPG")
  = isBinaryFileByExtension unicode_ToLower (str "photo.jpg").
Proof.
  apply (binary_extension_ignores_ascii_case unicode_ToLower
           (str "Photo.JPG") (str "photo.jpg") eq_refl eq_refl eq_refl).
Defined.

(** *** More on the highlight renderer *)

Lemma Contains_false_Index (s sub : gostring) :
  strings.Contains s sub = false -> strings.Index s sub = -1.
Proof.
  unfold strings.Contains. intros H. apply Z.leb_gt in H.
  destruct (Index_range s sub); lia.
Qed.

(** X16: a line that does not match comes back as it is.  Whenever the
    matcher answers false for a line and a pattern, the highlight renderer
    returns the line unchanged for the same pattern and mode, for every
    table of lower-case letters. *)
Theorem highlight_leaves_other_lines
        (lowerRune : utf8.rune -> utf8.rune) (line pattern : gostring)
        (fixedStrings ignoreCase : bool) :
  matchesPattern lowerRune line pattern fixedStrings ignoreCase = false ->
  highlightMatches lowerRune line pattern fixedStrings ignoreCase = Done line.
Proof.
  intros M. rewrite (matchesPattern_flag _ _ _ _ false) in M.
  unfold matchesPattern in M. unfold highlightMatches.
  destruct (len pattern =? 0) eqn:Lp; [reflexivity|].
  apply Contains_false_Index in M. destruct ignoreCase.
  - unfold highlightIgnoreCase.
    destruct ((len line =? 0) || (len pattern =? 0)); [reflexivity|].
    cbn [highlightLoop].
    rewrite slice_from_ok by (pose proof (len_nonneg
                                            (strings.ToLower lowerRune line));
                              lia).
    cbn [bind Z.to_nat skipn]. rewrite M. cbn [Z.eqb Pos.eqb].
    rewrite slice_from_ok by (pose proof (len_nonneg line); lia).
    reflexivity.
  - f_equal. unfold strings.ReplaceAll.
    destruct (streq pattern (ColorRed ++ pattern ++ ColorReset));
      [reflexivity|].
    destruct pattern as [|c p]; [discriminate|].
    destruct (length line) as [|fuel]; [reflexivity|].
    cbn [strings.replace_loop]. rewrite M. reflexivity.
Qed.

Lemma highlight_leaves_other_lines_witness :
  highlightMatches unicode_ToLower (str "Hello") (str "xyz") false true
  = Done (str "Hello").
Proof.
  apply (highlight_leaves_other_lines unicode_ToLower (str "Hello")
           (str "xyz") false true).
  reflexivity.
Defined.

(** [out] is [line] with the markers put around the occurrences of [key]
    met by reading from the left: each emphasised piece is the first
    occurrence of [key] in what is left of the line, the reading goes on
    behind it, and what follows the last piece holds no occurrence. *)
Inductive Leftmost (key : gostring) : gostring -> gostring -> Prop :=
| Leftmost_tail t : ~ occurs_in key t -> Leftmost key t t
| Leftmost_span g rest out :
    (forall pre post,
        g ++ key ++ rest = pre ++ key ++ post -> (length g <= length pre)%nat) ->
    Leftmost key rest out ->
    Leftmost key (g ++ key ++ rest)
      (g ++ ColorRed ++ key ++ ColorReset ++ out).

Lemma emphasize_Leftmost (key : gostring) (n : nat) :
  key <> [] ->
  forall s, (length s <= n)%nat ->
            Leftmost key s (emphasize key ColorRed ColorReset s s).
Proof.
  intros Hk. induction n as [|n IH]; intros s Hn.
  - destruct s; [|simpl in Hn; lia].
    rewrite (emphasize_no_match key Hk) by (apply find_nil_key; exact Hk).
    apply Leftmost_tail. exact (find_None [] key (find_nil_key key Hk)).
  - rewrite (emphasize_unfold key Hk).
    destruct (strings.find s key) as [i|] eqn:F.
    + pose proof (find_Some_split _ _ _ F) as Hs.
      pose proof (find_bound _ _ _ F) as Hb.
      pose proof (find_first _ _ _ F) as Hf.
      rewrite (find_Some_piece _ _ _ F).
      assert (Lg : length (firstn i s) = i) by (rewrite length_firstn; lia).
      assert (Lr : (length (skipn (i + length key) s) <= n)%nat).
      { rewrite length_skipn. destruct key; [congruence|]. simpl. lia. }
      remember (firstn i s) as g. remember (skipn (i + length key) s) as rest.
      clear Heqg Heqrest. subst s. apply Leftmost_span.
      * intros pre post E. rewrite Lg. apply (Hf pre post E).
      * apply IH. exact Lr.
    + apply Leftmost_tail. exact (find_None s key F).
Qed.

(** X17: what the case-sensitive mode emphasises.  For a pattern that is
    not empty the renderer returns the line with the markers around the
    occurrences of the pattern found from the left, one after the other
    without overlap: each emphasised piece is the pattern and is the first
    occurrence behind the piece before it, and the text behind the last
    piece holds no occurrence. *)
Theorem highlight_marks_leftmost_occurrences
        (lowerRune : utf8.rune -> utf8.rune) (line pattern : gostring)
        (fixedStrings : bool) :
  pattern <> [] ->
  exists out,
    highlightMatches lowerRune line pattern fixedStrings false = Done out
    /\ Leftmost pattern line out.
Proof.
  intros Hp. unfold highlightMatches.
  assert (L : (len pattern =? 0) = false).
  { destruct pattern; [congruence|]. reflexivity. }
  rewrite L. eexists. split; [reflexivity|].
  rewrite ReplaceAll_emphasize by (exact Hp || discriminate).
  apply (emphasize_Leftmost pattern (length line) Hp). lia.
Qed.

Lemma highlight_marks_leftmost_occurrences_witness :
  exists out,
    highlightMatches unicode_ToLower (str "aaa") (str "aa") false false
    = Done out
    /\ Leftmost (str "aa") (str "aaa") out.
Proof.
  apply (highlight_marks_leftmost_occurrences unicode_ToLower (str "aaa")
           (str "aa") false).
  discriminate.
Defined.



(** ** The first version of the program ([main.go]) *)

(** [main.go] has the matcher, the printer, the highlight renderer, the
    scan of a file and the two binary checks of [main_v2.go] word for
    word; its [search] has no ignore filter and no list of directories. *)
Module main_go.

Section Program.

Variable lowerRune : utf8.rune -> utf8.rune.
Variable open : gostring -> option OpenedFile.

(** The callback of [search] in [main.go]. *)
Definition walkFn (config : Config) (path : gostring) (isDir err : bool)
  : run werr :=
  if err then ret ErrNil
  else if isDir then
    if negb (hidden config) && isHidden path then ret SkipDir
    else ret ErrNil
  else
    if negb (hidden config) && isHidden path then ret ErrNil
    else if isBinaryFileByExtension lowerRune path then ret ErrNil
    else searchInFile lowerRune open path config.

Definition search (config : Config) (root : node) : run werr :=
  Walk (walkFn config) root.

End Program.

End main_go.

(** The paths of the directories of a tree. *)
Fixpoint directories (n : node) : list gostring :=
  match n with
  | Directory path _ children => path :: flat_map directories children
  | _ => []
  end.

Lemma walk_ext_on (fn fn' : gostring -> bool -> bool -> run werr) :
  (forall path err, fn path false err = fn' path false err) ->
  forall n,
    (forall path, In path (directories n) ->
                  forall err, fn path true err = fn' path true err) ->
    walk fn n = walk fn' n.
Proof.
  intros E n.
  induction n as [path|path|path readErr children IH] using node_induction;
    intros D.
  - apply E.
  - apply E.
  - rewrite !walk_Directory, (D path (or_introl eq_refl)).
    assert (N : walkNames fn children = walkNames fn' children).
    { assert (D' : forall p, In p (flat_map directories children) ->
                             forall err, fn p true err = fn' p true err).
      { intros p Hp. apply D. right. exact Hp. }
      clear D. induction IH as [|child names Hc _ IHn]; [reflexivity|].
      simpl. rewrite Hc, IHn; [reflexivity| |].
      - intros p Hp. apply D'. simpl. apply in_or_app. right. exact Hp.
      - intros p Hp. apply D'. simpl. apply in_or_app. left. exact Hp. }
    rewrite N. reflexivity.
Qed.

(** X19: the two versions of [search] agree where the second has nothing
    to add.  With [respectGitignore] unset, on a tree none of whose
    directories has a name of the built-in list, [search] of [main_v2.go]
    opens the same files, prints the same bytes and ends the same way as
    [search] of [main.go]. *)
Theorem versions_agree_without_ignored_directories
        (lowerRune : utf8.rune -> utf8.rune)
        (Rel : gostring -> gostring -> option gostring)
        (Join : gostring -> gostring -> gostring)
        (TrimSpace : gostring -> gostring)
        (open : gostring -> option OpenedFile)
        (config : Config) (root : node) :
  respectGitignore config = false ->
  (forall path, In path (directories root) ->
                ~ In (filepath.Base path) builtinIgnored) ->
  search lowerRune Rel Join TrimSpace open config root
  = main_go.search lowerRune open config root.
Proof.
  intros Hr Hd. unfold search, main_go.search, Walk. rewrite Hr.
  rewrite (walk_ext_on (walkFn lowerRune Rel open config None)
             (main_go.walkFn lowerRune open config)); [reflexivity| |].
  - intros path err. reflexivity.
  - intros path Hp err. unfold walkFn, main_go.walkFn.
    destruct (shouldIgnoreDirectory path (searchPath config)) eqn:S.
    + apply shouldIgnoreDirectory_iff in S. destruct (Hd path Hp S).
    + cbn [shouldIgnore]. reflexivity.
Qed.

Lemma versions_agree_without_ignored_directories_witness :
  search unicode_ToLower exampleRel exampleJoin (fun s => s) exampleOpen
    (plainConfig (str "foo")) exampleTree
  = main_go.search unicode_ToLower exampleOpen (plainConfig (str "foo"))
      exampleTree.
Proof.
  apply (versions_agree_without_ignored_directories unicode_ToLower
           exampleRel exampleJoin (fun s => s) exampleOpen
           (plainConfig (str "foo")) exampleTree).
  - reflexivity.
  - intros path [<-|[]] H. vm_compute in H.
    repeat (destruct H as [H|H]; [discriminate|]). exact H.
Defined.

(** ** Colour adds markers and nothing else *)

(** The markers [printMatch] and the highlight renderer write. *)
Definition colorMarkers : list gostring :=
  [ColorReset; ColorRed; ColorGreen; ColorPurple].

(** Deleting every colour marker from a text, in one pass from the
    left. *)
Fixpoint stripColorsFrom (skip : nat) (s : gostring) : gostring :=
  match s with
  | [] => []
  | c :: s' =>
      match skip with
      | S k => stripColorsFrom k s'
      | O =>
          match List.find (strings.HasPrefix s) colorMarkers with
          | Some M => stripColorsFrom (length M - 1) s'
          | None => c :: stripColorsFrom O s'
          end
      end
  end.

Definition stripColors (s : gostring) : gostring := stripColorsFrom O s.

(** The text holds no escape byte. *)
Definition noESC (s : gostring) : bool :=
  forallb (fun c => negb (Ascii.eqb c ESC)) s.

(** [config] with another value of [color]. *)
Definition withColor (b : bool) (config : Config) : Config :=
  {| fixedStrings := fixedStrings config; hidden := hidden config;
     noHeading := noHeading config; lineNumber := lineNumber config;
     withFilename := withFilename config; color := b;
     ignoreCase := ignoreCase config;
     respectGitignore := respectGitignore config;
     pattern := pattern config; searchPath := searchPath config |}.

Lemma stripColors_text (a b : gostring) :
  noESC a = true -> stripColors (a ++ b) = a ++ stripColors b.
Proof.
  unfold stripColors. induction a as [|c a IH]; intros H; [reflexivity|].
  simpl in H. apply andb_true_iff in H as [Hc Ha].
  apply negb_true_iff in Hc.
  change ((c :: a) ++ b) with (c :: (a ++ b)). cbn [stripColorsFrom].
  assert (F : List.find (strings.HasPrefix (c :: a ++ b)) colorMarkers = None).
  { unfold colorMarkers, ColorReset, ColorRed, ColorGreen, ColorPurple.
    cbn [List.find strings.HasPrefix]. fold ESC. rewrite Hc. reflexivity. }
  rewrite F, (IH Ha). reflexivity.
Qed.

Lemma stripColors_marker (M x : gostring) :
  In M colorMarkers -> stripColors (M ++ x) = stripColors x.
Proof.
  intros [<-|[<-|[<-|[<-|[]]]]]; reflexivity.
Qed.

Lemma noESC_app (a b : gostring) : noESC (a ++ b) = noESC a && noESC b.
Proof. apply forallb_app. Qed.

Lemma stripColors_Wrapped (line out : gostring) :
  Wrapped ColorRed ColorReset line out -> noESC line = true ->
  forall b, stripColors (out ++ b) = line ++ stripColors b.
Proof.
  induction 1 as [t|g m rest out W IH]; intros H b.
  - apply stripColors_text. exact H.
  - rewrite !noESC_app in H.
    apply andb_true_iff in H as [Hg H]. apply andb_true_iff in H as [Hm Hr].
    rewrite <- !app_assoc. rewrite (stripColors_text g _ Hg).
    rewrite (stripColors_marker ColorRed) by (simpl; auto).
    rewrite (stripColors_text m _ Hm).
    rewrite (stripColors_marker ColorReset) by (simpl; auto).
    rewrite (IH Hr). reflexivity.
Qed.

Lemma highlightMatches_Wrapped
      (lowerRune : utf8.rune -> utf8.rune) (line pattern out : gostring)
      (fixedStrings ignoreCase : bool) :
  highlightMatches lowerRune line pattern fixedStrings ignoreCase = Done out ->
  Wrapped ColorRed ColorReset line out.
Proof.
  unfold highlightMatches.
  destruct (len pattern =? 0) eqn:Ep.
  { intros [= <-]. constructor. }
  destruct ignoreCase.
  - unfold highlightIgnoreCase. rewrite Ep, orb_false_r.
    destruct (len line =? 0).
    { intros [= <-]. constructor. }
    intros H. apply highlightLoop_Wrapped in H as (out' & -> & H); [|lia].
    exact H.
  - intros H.
    replace out with (strings.ReplaceAll line pattern
                        (ColorRed ++ pattern ++ ColorReset)) by congruence.
    unfold strings.ReplaceAll.
    destruct (streq pattern (ColorRed ++ pattern ++ ColorReset));
      [constructor|].
    destruct pattern; [discriminate|]. apply replace_loop_Wrapped.
Qed.

Lemma noESC_uint (d : Decimal.uint) :
  noESC (str (DecimalString.NilZero.string_of_uint d)) = true.
Proof.
  assert (U : noESC (str (DecimalString.NilEmpty.string_of_uint d)) = true).
  { induction d; simpl; auto. }
  destruct d; exact U.
Qed.

Lemma noESC_Sprintf_d (n : Z) : noESC (Sprintf_d n) = true.
Proof.
  unfold Sprintf_d. destruct (Z.to_int n) as [d|d].
  - apply noESC_uint.
  - change (str (DecimalString.NilZero.string_of_int (Decimal.Neg d)))
      with ("-"%char :: str (DecimalString.NilZero.string_of_uint d)).
    simpl. apply noESC_uint.
Qed.

(** X20: colour adds markers and nothing else.  For a file name and a
    line that hold no escape byte, whenever [printMatch] returns with
    [color] set, deleting the colour markers from what it writes gives
    exactly what it writes with [color] unset: the same name, number and
    line, in every combination of the other flags. *)
Theorem color_only_adds_markers
        (lowerRune : utf8.rune -> utf8.rune)
        (filename : gostring) (lineNum : Z) (line : gostring)
        (config : Config) (out : gostring) :
  noESC filename = true -> noESC line = true ->
  printMatch lowerRune filename lineNum line (withColor true config)
  = Done out ->
  printMatch lowerRune filename lineNum line (withColor false config)
  = Done (stripColors out).
Proof.
  intros Hf Hl. unfold printMatch.
  cbn [withFilename lineNumber color pattern fixedStrings ignoreCase
       withColor].
  destruct (highlightMatches lowerRune line (pattern config)
              (fixedStrings config) (ignoreCase config)) as [d| |] eqn:H;
    try (destruct (withFilename config), (lineNumber config); discriminate).
  apply highlightMatches_Wrapped in H.
  pose proof (stripColors_Wrapped line d H Hl [byte 10]) as Sd.
  change (stripColors [byte 10]) with [byte 10] in Sd.
  pose proof (noESC_Sprintf_d lineNum) as Hn.
  assert (Hc : noESC (str ":") = true) by reflexivity.
  assert (Inj : forall a b : gostring, Done a = Done b -> a = b)
    by (intros a b E; congruence).
  destruct (withFilename config), (lineNumber config); intros E.
  - change (Done (((ColorPurple ++ filename ++ ColorReset) ++ str ":"
                     ++ (ColorGreen ++ Sprintf_d lineNum ++ ColorReset))
                    ++ str ":" ++ d ++ [byte 10]) = Done out) in E.
    apply Inj in E. subst out.
    change (Done ((filename ++ str ":" ++ Sprintf_d lineNum)
                    ++ str ":" ++ line ++ [byte 10]) = Done (stripColors
              (((ColorPurple ++ filename ++ ColorReset) ++ str ":"
                  ++ (ColorGreen ++ Sprintf_d lineNum ++ ColorReset))
                 ++ str ":" ++ d ++ [byte 10]))).
    f_equal. rewrite <- !app_assoc.
    rewrite (stripColors_marker ColorPurple) by (simpl; auto).
    rewrite (stripColors_text filename) by exact Hf.
    rewrite (stripColors_marker ColorReset) by (simpl; auto).
    rewrite (stripColors_text (str ":")) by exact Hc.
    rewrite (stripColors_marker ColorGreen) by (simpl; auto).
    rewrite (stripColors_text (Sprintf_d lineNum)) by exact Hn.
    rewrite (stripColors_marker ColorReset) by (simpl; auto).
    rewrite (stripColors_text (str ":")) by exact Hc.
    rewrite Sd. reflexivity.
  - change (Done ((ColorPurple ++ filename ++ ColorReset)
                    ++ str ":" ++ d ++ [byte 10]) = Done out) in E.
    apply Inj in E. subst out.
    change (Done (filename ++ str ":" ++ line ++ [byte 10])
            = Done (stripColors
                      ((ColorPurple ++ filename ++ ColorReset)
                         ++ str ":" ++ d ++ [byte 10]))).
    f_equal. rewrite <- !app_assoc.
    rewrite (stripColors_marker ColorPurple) by (simpl; auto).
    rewrite (stripColors_text filename) by exact Hf.
    rewrite (stripColors_marker ColorReset) by (simpl; auto).
    rewrite (stripColors_text (str ":")) by exact Hc.
    rewrite Sd. reflexivity.
  - change (Done ((ColorGreen ++ Sprintf_d lineNum ++ ColorReset)
                    ++ str ":" ++ d ++ [byte 10]) = Done out) in E.
    apply Inj in E. subst out.
    change (Done (Sprintf_d lineNum ++ str ":" ++ line ++ [byte 10])
            = Done (stripColors
                      ((ColorGreen ++ Sprintf_d lineNum ++ ColorReset)
                         ++ str ":" ++ d ++ [byte 10]))).
    f_equal. rewrite <- !app_assoc.
    rewrite (stripColors_marker ColorGreen) by (simpl; auto).
    rewrite (stripColors_text (Sprintf_d lineNum)) by exact Hn.
    rewrite (stripColors_marker ColorReset) by (simpl; auto).
    rewrite (stripColors_text (str ":")) by exact Hc.
    rewrite Sd. reflexivity.
  - change (Done (d ++ [byte 10]) = Done out) in E.
    apply Inj in E. subst out.
    change (Done (line ++ [byte 10]) = Done (stripColors (d ++ [byte 10]))).
    rewrite Sd. reflexivity.
Qed.

Lemma color_only_adds_markers_witness :
  printMatch unicode_ToLower (str "a.txt") 3 (str "foo bar")
    (withColor false (exampleConfig false false))
  = Done (stripColors
            (ColorPurple ++ str "a.txt" ++ ColorReset ++ str ":"
               ++ ColorGreen ++ str "3" ++ ColorReset ++ str ":"
               ++ ColorRed ++ str "foo" ++ ColorReset ++ str " bar"
               ++ [byte 10])).
Proof.
  apply (color_only_adds_markers unicode_ToLower (str "a.txt") 3
           (str "foo bar") (exampleConfig false false)).
  - reflexivity.
  - reflexivity.
  - vm_compute. reflexivity.
Defined.

(** *** Only the last element of a path is looked at *)

Lemma takeWhile_app_stop (p : ascii -> bool) (a : gostring) (c : ascii)
      (b : gostring) :
  forallb p a = true -> p c = false ->
  filepath.takeWhile p (a ++ c :: b) = a.
Proof.
  intros Ha Hc. induction a as [|x a IH]; simpl.
  - rewrite Hc. reflexivity.
  - simpl in Ha. apply andb_true_iff in Ha as [Hx Ha].
    rewrite Hx, (IH Ha). reflexivity.
Qed.

(** The name holds no separator. *)
Definition plainName (name : gostring) : bool :=
  forallb (fun c => negb (filepath.isSep c)) name.

Lemma Base_of_joined (dir name : gostring) :
  name <> [] -> plainName name = true ->
  filepath.Base (dir ++ str "/" ++ name) = name.
Proof.
  intros Hne Hp. unfold filepath.Base.
  destruct (dir ++ str "/" ++ name) as [|c0 p0] eqn:E.
  { destruct dir; discriminate. }
  rewrite <- E. clear E c0 p0.
  rewrite !rev_app_distr. change (rev (str "/")) with [("/"%char)].
  assert (Hr : forallb (fun c => negb (filepath.isSep c)) (rev name) = true).
  { unfold plainName in Hp. rewrite forallb_forall in *.
    intros c Hc. apply Hp, in_rev, Hc. }
  destruct (rev name) as [|c r] eqn:Er.
  { apply (f_equal (@rev ascii)) in Er. rewrite rev_involutive in Er.
    simpl in Er. congruence. }
  assert (Hc : filepath.isSep c = false).
  { simpl in Hr. apply andb_true_iff in Hr as [Hc _].
    apply negb_true_iff in Hc. exact Hc. }
  rewrite <- app_assoc.
  change ((c :: r) ++ ["/"%char] ++ rev dir)
    with (c :: (r ++ "/"%char :: rev dir)).
  cbn [filepath.dropWhile]. rewrite Hc.
  change (c :: r ++ "/"%char :: rev dir)
    with ((c :: r) ++ "/"%char :: rev dir).
  rewrite takeWhile_app_stop by (exact Hr || reflexivity).
  rewrite <- Er, rev_involutive.
  destruct name; [congruence | reflexivity].
Qed.

(** X21: only the last element of a path is looked at.  For a path made
    of a directory, a separator and a name that is not empty and holds no
    separator, [isHidden] tells whether the name starts with a dot and
    [shouldIgnoreDirectory] whether the name is on the built-in list,
    whatever the directory and the base path are: a file in a hidden
    directory is not hidden. *)
Theorem last_element_decides (dir name basePath : gostring) :
  name <> [] -> plainName name = true ->
  isHidden (dir ++ str "/" ++ name) = strings.HasPrefix name (str ".")
  /\ shouldIgnoreDirectory (dir ++ str "/" ++ name) basePath
     = existsb (streq name) builtinIgnored.
Proof.
  intros Hne Hp. unfold isHidden, shouldIgnoreDirectory.
  rewrite (Base_of_joined dir name Hne Hp). split; [reflexivity|].
  unfold builtinIgnored. cbn [existsb].
  destruct (streq name (str ".git")), (streq name (str ".idea"));
    reflexivity.
Qed.

Lemma last_element_decides_witness :
  isHidden (str ".git" ++ str "/" ++ str "config") = false
  /\ shouldIgnoreDirectory (str ".git" ++ str "/" ++ str "config") (str ".")
     = false.
Proof.
  apply (last_element_decides (str ".git") (str "config") (str ".")).
  - discriminate.
  - reflexivity.
Defined.

(** *** The cut of long lines *)

(** X22: what the scan goes on with is never longer than 32788 bytes: a
    line of at most 32768 bytes is kept as it is, a longer one is cut to
    its first 32768 bytes, to which the 20 bytes of the marker are added;
    the cut never fails. *)
Theorem shown_line_is_bounded (text : gostring) :
  len (shownLine text) <= 32788
  /\ (len text <= 32768 -> shownLine text = text)
  /\ (32768 < len text ->
      slice_to text 32768 = Done (firstn (Z.to_nat 32768) text)
      /\ shownLine text = firstn (Z.to_nat 32768) text ++ truncationMarker
      /\ len (shownLine text) = 32788).
Proof.
  unfold shownLine.
  assert (M : len truncationMarker = 20) by reflexivity.
  assert (F : 32768 < len text ->
              len (firstn (Z.to_nat 32768) text) = 32768).
  { intros H. unfold len in *. rewrite length_firstn. lia. }
  destruct (len text >? 32768) eqn:E.
  - apply Z.gtb_lt in E. specialize (F E).
    repeat split; try lia.
    + rewrite len_app. lia.
    + apply slice_to_ok; lia.
    + rewrite len_app. lia.
  - assert (len text <= 32768).
    { rewrite Z.gtb_ltb in E. apply Z.ltb_ge in E. exact E. }
    repeat split; try lia.
Qed.

(** X23: the first version opens only files that passed its two checks.
    Every file [search] of [main.go] hands to the scan is not hidden
    unless [hidden] is set, and its extension is not one of the binary
    extensions. *)
Theorem first_version_opens_checked_files
        (lowerRune : utf8.rune -> utf8.rune)
        (open : gostring -> option OpenedFile)
        (config : Config) (root : node) (f : gostring) :
  In f (candidates (fst (main_go.search lowerRune open config root))) ->
  (hidden config = true \/ isHidden f = false)
  /\ isBinaryFileByExtension lowerRune f = false.
Proof.
  unfold main_go.search. rewrite Walk_events, In_candidates. intros H.
  apply walk_events_from_call in H as (p & d & r & H & _).
  unfold main_go.walkFn in H.
  destruct r; [destruct H|]. destruct d.
  - destruct (negb (hidden config) && isHidden p); destruct H.
  - destruct (negb (hidden config) && isHidden p) eqn:Hh; [destruct H|].
    destruct (isBinaryFileByExtension lowerRune p) eqn:Hb; [destruct H|].
    apply searchInFile_fst in H as [H|(file & _ & _ & H)].
    + injection H as ->. split; [|exact Hb].
      destruct (hidden config); [left; reflexivity | right; exact Hh].
    + apply scanLoop_only_prints in H as [t H]. discriminate.
Qed.

Lemma first_version_opens_checked_files_witness :
  (hidden (exampleConfig false false) = true
   \/ isHidden (str "root/a.txt") = false)
  /\ isBinaryFileByExtension unicode_ToLower (str "root/a.txt") = false.
Proof.
  apply (first_version_opens_checked_files unicode_ToLower exampleOpen
           (exampleConfig false false) exampleTree (str "root/a.txt")).
  vm_compute. left. reflexivity.
Defined.

(** X24: a directory a rule of the filter matches is never entered: as
    the root of the walk it gives no event and no error, and inside a
    tree the walk goes on with the entries behind it; nothing below it is
    stat-ed, opened or printed, even a file no rule matches. *)
Theorem ignored_directories_are_not_entered
        (lowerRune : utf8.rune -> utf8.rune)
        (Rel : gostring -> gostring -> option gostring)
        (open : gostring -> option OpenedFile)
        (config : Config) (gf : option GitignoreFilter)
        (path : gostring) (readErr : bool) (children : list node) :
  shouldIgnore Rel gf path = true ->
  Walk (walkFn lowerRune Rel open config gf)
    (Directory path readErr children) = ([], Done ErrNil)
  /\ forall rest,
      walkNames (walkFn lowerRune Rel open config gf)
        (Directory path readErr children :: rest)
      = walkNames (walkFn lowerRune Rel open config gf) rest.
Proof.
  intros Hi.
  assert (W : exists err,
             walk (walkFn lowerRune Rel open config gf)
               (Directory path readErr children) = ([], Done err)
             /\ is_other err = false).
  { destruct readErr.
    - exists ErrNil. split; [|reflexivity].
      apply walk_dir_left; reflexivity.
    - exists SkipDir. split; [|reflexivity].
      apply walk_dir_left; [|reflexivity].
      unfold walkFn. rewrite Hi.
      destruct (shouldIgnoreDirectory path (searchPath config));
        [reflexivity|].
      destruct (negb (hidden config) && isHidden path); reflexivity. }
  destruct W as (err & E & Ho). split.
  - unfold Walk. rewrite E.
    change ([], Done err) with (@ret werr err). rewrite rbind_ret.
    destruct err; [reflexivity | reflexivity | discriminate].
  - intros rest. apply (walkNames_skip _ _ rest err E). exact Ho.
Qed.

Lemma ignored_directories_are_not_entered_witness :
  Walk (walkFn unicode_ToLower exampleRel exampleOpen
          (exampleConfig false false)
          (Some {| patterns := [str "oo"]; basePath := str "." |}))
    exampleTree = ([], Done ErrNil).
Proof.
  apply (proj1 (ignored_directories_are_not_entered unicode_ToLower
                  exampleRel exampleOpen (exampleConfig false false)
                  (Some {| patterns := [str "oo"]; basePath := str "." |})
                  (str "root") false
                  [Regular (str "root/.secret"); Regular (str "root/a.txt")]
                  eq_refl)).
Defined.
